(** * Sparse conditional constant propagation (cmd/compile/internal/ssa/sccp.go)

    A shallow embedding of the SCCP pass and of the part of the SSA data
    model it reads and writes.

    Pointers are arena indices: a [*Value] is an index into [Vals], the
    heap of value objects of the function, and a [*Block] is an index
    into [Blocks].  A pointer that has no object behind it (nil, or an
    index outside the arena) makes the access panic.  [f.newValue]
    allocates at the end of the heap, so a probe made by
    [computeConstValue] never aliases an older value; the probe is listed
    last among the values of the entry block.

    Go maps are [gmap]s.  Where the source ranges over a map the order is
    left open: the function takes the enumeration as an argument, or the
    theorem is stated for every permutation of [map_to_list].

    [Fatalf] and run-time panics end the compilation; every function that
    can reach one returns a [result].  The diagnostic prints guarded by
    [f.pass.debug > 0] do not influence the solver and are left out.

    The last part of the definitions embeds [checkLoopForm] and
    [blockOrdering] of looprotate.go over the same blocks. *)

From stdpp Require Import gmap list.
From Stdlib Require Import ZArith.

Open Scope Z_scope.

(** ** Opcodes and block kinds *)

Inductive Op :=
  | OpInvalid
  | OpConst64 | OpConst32 | OpConst16 | OpConst8
  | OpConstBool | OpConst32F | OpConst64F
  | OpCopy | OpPhi
  | OpAdd64 | OpAdd32 | OpAdd16 | OpAdd8 | OpAdd32F | OpAdd64F
  | OpSub64 | OpSub32 | OpSub16 | OpSub8 | OpSub32F | OpSub64F
  | OpMul64 | OpMul32 | OpMul16 | OpMul8 | OpMul32F | OpMul64F
  | OpDiv32F | OpDiv64F
  | OpDiv8 | OpDiv16 | OpDiv32 | OpDiv64
  | OpDiv8u | OpDiv16u | OpDiv32u | OpDiv64u
  | OpMod8 | OpMod16 | OpMod32 | OpMod64
  | OpMod8u | OpMod16u | OpMod32u | OpMod64u
  | OpEq64 | OpEq32 | OpEq16 | OpEq8 | OpEq32F | OpEq64F
  | OpLess64 | OpLess32 | OpLess16 | OpLess8
  | OpLess64U | OpLess32U | OpLess16U | OpLess8U
  | OpLess32F | OpLess64F
  | OpLeq64 | OpLeq32 | OpLeq16 | OpLeq8
  | OpLeq64U | OpLeq32U | OpLeq16U | OpLeq8U
  | OpLeq32F | OpLeq64F
  | OpOther (code : nat).   (* every opcode the pass does not name *)

#[global] Instance Op_eq_dec : EqDecision Op.
Proof. solve_decision. Defined.

Inductive BlockKind :=
  | BlockInvalid | BlockPlain | BlockIf | BlockDefer | BlockRet
  | BlockRetJmp | BlockExit | BlockJumpTable | BlockFirst
  | BlockOther (code : nat).   (* machine-specific kinds *)

#[global] Instance BlockKind_eq_dec : EqDecision BlockKind.
Proof. solve_decision. Defined.

Inductive BranchPrediction := BranchUnlikely | BranchUnknown | BranchLikely.

(** ** Values, blocks, functions *)

Abbreviation ID := nat (only parsing).        (* *Value *)
Abbreviation BlockID := nat (only parsing).   (* *Block *)

Record Value := mkValue {
  vOp     : Op;
  vType   : nat;
  vAuxInt : Z;           (* int64 *)
  vArgs   : list ID;
  vBlock  : BlockID;
  vUses   : Z;           (* int32 *)
  vPos    : nat;
}.

(** [bSuccs] and [bPreds] hold the [.b] end of each edge, in order; the
    pass reads nothing else of an edge.  Where a block has several edges
    to the same block, they stand in the same order among its successors
    and among the predecessors of that block. *)
Record Block := mkBlock {
  bKind     : BlockKind;
  bSuccs    : list BlockID;
  bPreds    : list BlockID;
  bValues   : list ID;
  bControls : list ID;    (* what ControlValues() returns *)
  bLikely   : BranchPrediction;
}.

Record Func := mkFunc {
  Vals   : list Value;    (* the heap of value objects *)
  Blocks : list Block;    (* f.Blocks *)
  Entry  : BlockID;
}.

(** ** Outcomes *)

Inductive abort :=
  | Panic                                  (* nil or out-of-range access *)
  | FatalDefUse (dumped : Func) (key : ID) (* "def-use chain of %v is problematic",
                                              after the function was printed *)
  | FatalNotConst (val : ID)               (* "%v must be a constant value" *)
  | FatalBlockKind                         (* "All kind of block should be processed above." *)
  | FatalRewire (k : BlockKind).           (* "should not reach here" *)

Inductive result (A : Type) :=
  | Ok (a : A)
  | Abort (e : abort).
Arguments Ok {A} a.
Arguments Abort {A} e.

#[global] Instance result_ret : MRet result := @Ok.
#[global] Instance result_bind : MBind result := λ A B k r,
  match r with Ok a => k a | Abort e => Abort e end.

Definition orPanic {A} (o : option A) : result A :=
  match o with Some a => Ok a | None => Abort Panic end.

(** Dereference of a value pointer and of a block pointer. *)
Definition getValue (f : Func) (p : ID) : result Value := orPanic (Vals f !! p).
Definition getBlock (f : Func) (p : BlockID) : result Block := orPanic (Blocks f !! p).

(** Index expression [s[i]] with a Go [int] index. *)
Definition index {A} (s : list A) (i : Z) : result A :=
  if decide (0 ≤ i) then orPanic (s !! Z.to_nat i) else Abort Panic.

(** Wrap-around of int64 and of int32 arithmetic. *)
Definition int64 (z : Z) : Z := (z + 2^63) mod 2^64 - 2^63.
Definition int32 (z : Z) : Z := (z + 2^31) mod 2^32 - 2^31.

(** ** The lattice *)

Inductive ltag := top | constant | bottom.

#[global] Instance ltag_eq_dec : EqDecision ltag.
Proof. solve_decision. Defined.

Record lattice := mkLattice {
  tag : ltag;
  val : option ID;     (* None is nil *)
}.

#[global] Instance lattice_eq_dec : EqDecision lattice.
Proof. solve_decision. Defined.

Record edge := mkEdge {
  start : BlockID;
  dest  : BlockID;
}.

#[global] Instance edge_eq_dec : EqDecision edge.
Proof. solve_decision. Defined.

#[global] Instance edge_countable : Countable edge.
Proof.
  apply (inj_countable' (λ e, (start e, dest e)) (λ p, mkEdge p.1 p.2)).
  by intros [].
Defined.

Record worklist := mkWorklist {
  wl_f            : Func;
  wl_edges        : list edge;
  wl_uses         : list ID;
  wl_visited      : gmap edge bool;
  wl_latticeCells : gmap ID lattice;
  wl_defUse       : gmap ID (list ID);
  wl_defBlock     : gmap ID (list BlockID);
}.

Definition isVisited (t : worklist) (e : edge) : bool :=
  bool_decide (is_Some (wl_visited t !! e)).

Definition getLatticeCell (t : worklist) (v : ID) : lattice :=
  match wl_latticeCells t !! v with
  | None => mkLattice top None
  | Some c => c
  end.

Definition isConstOp (op : Op) : bool :=
  match op with
  | OpConst64 | OpConst32 | OpConst16 | OpConst8
  | OpConstBool | OpConst32F | OpConst64F => true
  | _ => false
  end.

Definition isConst (v : Value) : bool := isConstOp (vOp v).

Definition isDivOp (op : Op) : bool :=
  match op with
  | OpDiv32F | OpDiv64F
  | OpDiv8 | OpDiv16 | OpDiv32 | OpDiv64
  | OpMod8 | OpMod16 | OpMod32 | OpMod64
  | OpDiv8u | OpDiv16u | OpDiv32u | OpDiv64u
  | OpMod8u | OpMod16u | OpMod32u | OpMod64u => true
  | _ => false
  end.

(** The divisor is dereferenced only under a division or modulo opcode. *)
Definition isDivByZero (f : Func) (op : Op) (divisor : option ID) : result bool :=
  if isDivOp op then
    d ← orPanic (divisor ≫= λ p, Vals f !! p);
    mret (bool_decide (vAuxInt d = 0))
  else mret false.

(** [meet]: the loop over [arr] with the accumulator [lt]. *)
Fixpoint meet_loop (lt : lattice) (arr : list lattice) : lattice :=
  match arr with
  | [] => lt
  | t :: arr' =>
      match tag t with
      | bottom => mkLattice bottom None
      | constant =>
          match tag lt with
          | top => meet_loop (mkLattice constant (val t)) arr'
          | _ =>
              if decide (val lt = val t) then meet_loop lt arr'
              else mkLattice bottom None
          end
      | top => meet_loop lt arr'
      end
  end.

Definition meet (arr : list lattice) : lattice :=
  meet_loop (mkLattice top None) arr.

(** The three points, as [meet] returns them. *)
Definition Top : lattice := mkLattice top None.
Definition Bottom : lattice := mkLattice bottom None.
Definition Const (p : option ID) : lattice := mkLattice constant p.

(** A cell that may stay under the accumulated constant [a]. *)
Definition agrees (a : option ID) (x : lattice) : Prop :=
  tag x = top ∨ (tag x = constant ∧ val x = a).

#[global] Instance agrees_dec a x : Decision (agrees a x).
Proof. unfold agrees. apply _. Defined.

(** ** Loops *)

(** [for _, x := range l { s = body(s, x) }] where the body may abort. *)
Fixpoint range_loop {S A} (body : S → A → result S) (s : S) (l : list A) : result S :=
  match l with
  | [] => Ok s
  | x :: l' => s' ← body s x; range_loop body s' l'
  end.

(** [m[k] = append(m[k], x)], the entry being created when absent. *)
Definition appendAt {A} (m : gmap ID (list A)) (k : ID) (x : A) : gmap ID (list A) :=
  <[k := default [] (m !! k) ++ [x]]> m.

(** ** Field updates *)

Definition set_f (t : worklist) (f : Func) : worklist :=
  mkWorklist f (wl_edges t) (wl_uses t) (wl_visited t) (wl_latticeCells t)
             (wl_defUse t) (wl_defBlock t).
Definition set_edges (t : worklist) (es : list edge) : worklist :=
  mkWorklist (wl_f t) es (wl_uses t) (wl_visited t) (wl_latticeCells t)
             (wl_defUse t) (wl_defBlock t).
Definition set_uses (t : worklist) (us : list ID) : worklist :=
  mkWorklist (wl_f t) (wl_edges t) us (wl_visited t) (wl_latticeCells t)
             (wl_defUse t) (wl_defBlock t).
Definition set_visited (t : worklist) (vs : gmap edge bool) : worklist :=
  mkWorklist (wl_f t) (wl_edges t) (wl_uses t) vs (wl_latticeCells t)
             (wl_defUse t) (wl_defBlock t).
Definition set_cell (t : worklist) (v : ID) (c : lattice) : worklist :=
  mkWorklist (wl_f t) (wl_edges t) (wl_uses t) (wl_visited t)
             (<[v := c]> (wl_latticeCells t)) (wl_defUse t) (wl_defBlock t).
Definition set_defs (t : worklist) (du : gmap ID (list ID)) (db : gmap ID (list BlockID))
  : worklist :=
  mkWorklist (wl_f t) (wl_edges t) (wl_uses t) (wl_visited t) (wl_latticeCells t) du db.

Definition set_Vals (f : Func) (vs : list Value) : Func :=
  mkFunc vs (Blocks f) (Entry f).
Definition set_Blocks (f : Func) (bs : list Block) : Func :=
  mkFunc (Vals f) bs (Entry f).
(** [*p = v] for a live pointer [p]. *)
Definition setValue (f : Func) (p : ID) (v : Value) : Func :=
  set_Vals f (<[p := v]> (Vals f)).
Definition setBlock (f : Func) (p : BlockID) (b : Block) : Func :=
  set_Blocks f (<[p := b]> (Blocks f)).

(** ** buildDefUses *)

Definition buildDefUses_value (f : Func) (du : gmap ID (list ID)) (v : ID)
  : result (gmap ID (list ID)) :=
  V ← getValue f v;
  mret (foldl (λ du arg, appendAt du arg v) du (vArgs V)).

Definition buildDefUses_block (f : Func)
    (s : gmap ID (list ID) * gmap ID (list BlockID)) (ib : BlockID * Block)
  : result (gmap ID (list ID) * gmap ID (list BlockID)) :=
  du ← range_loop (buildDefUses_value f) s.1 (bValues ib.2);
  mret (du, foldl (λ db ctl, appendAt db ctl ib.1) s.2 (bControls ib.2)).

(** The check at the end: the keys of [defUse], in the order of [order]. *)
Definition verifyDefUse (f : Func) (db : gmap ID (list BlockID)) (_ : unit)
    (kv : ID * list ID) : result unit :=
  key ← getValue f kv.1;
  if decide (vUses key ≠ Z.of_nat (length kv.2) + Z.of_nat (length (default [] (db !! kv.1))))
  then Abort (FatalDefUse f kv.1)
  else mret ().

Definition buildDefUses (t : worklist) : result worklist :=
  let f := wl_f t in
  '(du, db) ← range_loop (buildDefUses_block f) (wl_defUse t, wl_defBlock t)
                 (imap pair (Blocks f));
  _ ← range_loop (verifyDefUse f db) () (map_to_list du);
  mret (set_defs t du db).

(** ** The IR operations the pass calls *)

(** Modelled from the spec: the update of a block by [f.newValue] below,
    [b.Values = append(b.Values, vs...)]. *)
Definition addValues (B : Block) (vs : list ID) : Block :=
  mkBlock (bKind B) (bSuccs B) (bPreds B) (bValues B ++ vs) (bControls B) (bLikely B).

(** Modelled from the spec: [f.newValue] is not among the sources.  It
    "allocates a fresh value node with the same opcode, type, and position
    as v, attached to the entry block", where the probe is "left attached
    to the entry block as dead code, to be removed by a subsequent
    dead-code pass": the node has no arguments and no uses yet, and it
    becomes the last value of the given block (of none when the block
    pointer has no object behind it). *)
Definition newValue (f : Func) (op : Op) (ty : nat) (b : BlockID) (pos : nat)
  : Func * ID :=
  let v := length (Vals f) in
  (mkFunc (Vals f ++ [mkValue op ty 0 [] b 0 pos])
          (alter (λ B, addValues B [v]) b (Blocks f))
          (Entry f),
   v).

(** Modelled from the spec: [AddArgs] is not among the sources.  It
    "attaches a1,...,an as its arguments"; a nil argument cannot be
    attached.  The evaluator being "pure, side-effect-free", attaching
    arguments to a probe leaves the arguments as they are. *)
Definition AddArgs (f : Func) (v : ID) (args : list (option ID)) : result Func :=
  V ← getValue f v;
  as' ← range_loop (λ acc a, x ← orPanic a; mret (acc ++ [x])) [] args;
  mret (setValue f v (mkValue (vOp V) (vType V) (vAuxInt V) (vArgs V ++ as')
                              (vBlock V) (vUses V) (vPos V))).

Definition set_AuxInt (v : Value) (a : Z) : Value :=
  mkValue (vOp v) (vType v) a (vArgs v) (vBlock v) (vUses v) (vPos v).
Definition set_Args (v : Value) (args : list ID) : Value :=
  mkValue (vOp v) (vType v) (vAuxInt v) args (vBlock v) (vUses v) (vPos v).
Definition set_Uses (v : Value) (uses : Z) : Value :=
  mkValue (vOp v) (vType v) (vAuxInt v) (vArgs v) (vBlock v) uses (vPos v).

(** Modelled from the spec: the update [a.Uses--] by which [reset],
    [removeEdge] and [ResetControls] below record that [a] has lost a use;
    the count is an int32. *)
Definition decUses (f : Func) (a : ID) : result Func :=
  A ← getValue f a;
  mret (setValue f a (set_Uses A (int32 (vUses A - 1)))).

(** Modelled from the spec: the fields that [reset] below writes: the
    opcode becomes [op], arguments and auxiliary integer are cleared. *)
Definition resetFields (v : Value) (op : Op) : Value :=
  mkValue op (vType v) 0 [] (vBlock v) (vUses v) (vPos v).

(** Modelled from the spec: [reset] is not among the sources.  It changes
    the opcode and clears the arguments and the auxiliary integer, keeping
    the value's identity and type.  The use count being, "for every value
    v, |defUse[v]| + |defBlock[v]|", each value that was an argument loses
    one use per argument slot. *)
Definition reset (f : Func) (v : ID) (op : Op) : result Func :=
  V ← getValue f v;
  f1 ← range_loop decUses f (vArgs V);
  V1 ← getValue f1 v;
  mret (setValue f1 v (resetFields V1 op)).

Definition isPhi (v : Value) : bool :=
  match vOp v with OpPhi => true | _ => false end.

(** The place in [l] of occurrence number [n], counted from 0, of [x]. *)
Fixpoint occurrence (x : BlockID) (n : nat) (l : list BlockID) : option nat :=
  match l with
  | [] => None
  | y :: l' =>
      if decide (y = x)
      then match n with O => Some O | S n' => S <$> occurrence x n' l' end
      else S <$> occurrence x n l'
  end.

(** Modelled from the spec: the update of the values of the destination by
    [removeEdge] below, "deleting the corresponding argument slot" of "any
    phi".  The phi [v] loses argument slot [j], and the argument one use; a
    value that is not a phi, or a phi without that slot, is left alone. *)
Definition removePhiArg (j : nat) (f : Func) (v : ID) : result Func :=
  V ← getValue f v;
  if isPhi V then
    match vArgs V !! j with
    | Some a =>
        f1 ← decUses f a;
        V1 ← getValue f1 v;
        mret (setValue f1 v (set_Args V1 (delete j (vArgs V1))))
    | None => mret f
    end
  else mret f.

(** Modelled from the spec: [removeEdge] is not among the sources.  It
    removes successor [i] of [b]; "removing an edge updates the destination
    block's predecessor list, which must in turn update any phi in the
    destination block by deleting the corresponding argument slot."  The
    predecessor slot is that of the removed edge: when successor [i] is
    edge number [n] from [b] to the destination, it is entry number [n]
    for [b] among the destination's predecessors ([occurrence]). *)
Definition removeEdge (f : Func) (b : BlockID) (i : Z) : result Func :=
  B ← getBlock f b;
  c ← index (bSuccs B) i;
  let n := length (filter (λ s, s = c) (take (Z.to_nat i) (bSuccs B))) in
  let f1 := setBlock f b (mkBlock (bKind B) (delete (Z.to_nat i) (bSuccs B)) (bPreds B)
                                  (bValues B) (bControls B) (bLikely B)) in
  C ← getBlock f1 c;
  j ← orPanic (occurrence b n (bPreds C));
  let f2 := setBlock f1 c (mkBlock (bKind C) (bSuccs C) (delete j (bPreds C))
                                   (bValues C) (bControls C) (bLikely C)) in
  range_loop (removePhiArg j) f2 (bValues C).

(** Modelled from the spec: [ResetControls] is not among the sources.  It
    "clears the control value"; each control value loses the use the block
    made of it. *)
Definition ResetControls (f : Func) (b : BlockID) : result Func :=
  B ← getBlock f b;
  f1 ← range_loop decUses f (bControls B);
  B1 ← getBlock f1 b;
  mret (setBlock f1 b (mkBlock (bKind B1) (bSuccs B1) (bPreds B1) (bValues B1) []
                               (bLikely B1))).

(** [block.Kind = BlockPlain; block.Likely = BranchUnknown;
    block.ResetControls()]. *)
Definition resetToPlain (f : Func) (b : BlockID) : result Func :=
  B ← getBlock f b;
  let f1 := setBlock f b (mkBlock BlockPlain (bSuccs B) (bPreds B) (bValues B)
                                  (bControls B) BranchUnknown) in
  ResetControls f1 b.

(** ** The solver *)

Section Solver.

(** Modelled from the spec: [rewriteValuegeneric] is not among the sources.
    It is "a generic algebraic rewriter operating on a single value in
    place, returning whether any rule matched"; it sees the function (to
    read the arguments) and yields the rewritten value and the flag. *)
Variable rewriteValuegeneric : Func → Value → Value * bool.

Definition computeConstValue (f : Func) (v : ID) (args : list (option ID))
  : result (Func * ID * bool) :=
  V ← getValue f v;
  let '(f1, constValue) := newValue f (vOp V) (vType V) (Entry f) (vPos V) in
  f2 ← AddArgs f1 constValue args;
  P ← getValue f2 constValue;
  let '(P', matched) := rewriteValuegeneric f2 P in
  let f3 := setValue f2 constValue P' in
  if matched && negb (isConst P') then Abort (FatalNotConst v)
  else mret (f3, constValue, matched).

Definition addEdges (t : worklist) (es : list edge) : worklist :=
  set_edges t (wl_edges t ++ es).

Definition propagate (t : worklist) (block : BlockID) : result worklist :=
  B ← getBlock (wl_f t) block;
  match bKind B with
  | BlockExit | BlockRet | BlockRetJmp | BlockInvalid => mret t
  | BlockDefer => mret (addEdges t (map (mkEdge block) (bSuccs B)))
  | BlockFirst | BlockPlain =>
      s ← index (bSuccs B) 0;
      mret (addEdges t [mkEdge block s])
  | BlockIf | BlockJumpTable =>
      cond ← index (bControls B) 0;
      let condLattice := getLatticeCell t cond in
      match tag condLattice with
      | bottom => mret (addEdges t (map (mkEdge block) (bSuccs B)))
      | constant =>
          c ← orPanic (val condLattice ≫= λ p, Vals (wl_f t) !! p);
          let branch :=
            match bKind B with
            | BlockIf => int64 (1 - vAuxInt c)
            | _ => vAuxInt c
            end in
          s ← index (bSuccs B) branch;
          mret (addEdges t [mkEdge block s])
      | top => mret t
      end
  | BlockOther _ => Abort FatalBlockKind
  end.

Definition addUses (t : worklist) (v : ID) : result worklist :=
  let us := filter (λ use, v ≠ use) (default [] (wl_defUse t !! v)) in
  range_loop propagate (set_uses t (wl_uses t ++ us)) (default [] (wl_defBlock t !! v)).

(** The loop of [visitPhi]: [i] is the index of the first argument of [args]. *)
Fixpoint visitPhi_args (t : worklist) (blk : BlockID) (i : nat) (args : list ID)
    (argLattice : list lattice) : result (list lattice) :=
  match args with
  | [] => mret argLattice
  | a :: args' =>
      B ← getBlock (wl_f t) blk;
      p ← orPanic (bPreds B !! i);
      if isVisited t (mkEdge p blk)
      then visitPhi_args t blk (S i) args' (argLattice ++ [getLatticeCell t a])
      else visitPhi_args t blk (S i) args' argLattice
  end.

Definition visitPhi (t : worklist) (v : ID) : result worklist :=
  V ← getValue (wl_f t) v;
  argLattice ← visitPhi_args t (vBlock V) 0 (vArgs V) [];
  mret (set_cell t v (meet argLattice)).

Definition worstLt : lattice := mkLattice bottom None.

Definition isFoldable (op : Op) : bool :=
  match op with
  | OpAdd64 | OpAdd32 | OpAdd16 | OpAdd8 | OpAdd32F | OpAdd64F
  | OpSub64 | OpSub32 | OpSub16 | OpSub8 | OpSub32F | OpSub64F
  | OpMul64 | OpMul32 | OpMul16 | OpMul8 | OpMul32F | OpMul64F
  | OpDiv32F | OpDiv64F
  | OpDiv8 | OpDiv16 | OpDiv32 | OpDiv64
  | OpDiv8u | OpDiv16u | OpDiv32u | OpDiv64u
  | OpMod8 | OpMod16 | OpMod32 | OpMod64
  | OpMod8u | OpMod16u | OpMod32u | OpMod64u
  | OpEq64 | OpEq32 | OpEq16 | OpEq8 | OpEq32F | OpEq64F
  | OpLess64 | OpLess32 | OpLess16 | OpLess8
  | OpLess64U | OpLess32U | OpLess16U | OpLess8U
  | OpLess32F | OpLess64F
  | OpLeq64 | OpLeq32 | OpLeq16 | OpLeq8
  | OpLeq64U | OpLeq32U | OpLeq16U | OpLeq8U
  | OpLeq32F | OpLeq64F => true
  | _ => false
  end.

(** The case of [visitValue] for the binary opcodes that are evaluated. *)
Definition visitBinary (t : worklist) (v : ID) (V : Value) : result worklist :=
  a0 ← index (vArgs V) 0;
  let lt1 := getLatticeCell t a0 in
  a1 ← index (vArgs V) 1;
  let lt2 := getLatticeCell t a1 in
  if negb (bool_decide (tag lt1 = constant)) then mret (set_cell t v worstLt)
  else if negb (bool_decide (tag lt2 = constant)) then mret (set_cell t v worstLt)
  else
    dz ← isDivByZero (wl_f t) (vOp V) (val lt2);
    if (dz : bool) then mret (set_cell t v worstLt)
    else
      '(f', constValue, matched) ← computeConstValue (wl_f t) v [val lt1; val lt2];
      if (matched : bool)
      then mret (set_cell (set_f t f') v (mkLattice constant (Some constValue)))
      else mret (set_cell (set_f t f') v worstLt).

(** The [switch] of [visitValue]. *)
Definition visitValue_switch (t : worklist) (v : ID) : result worklist :=
  V ← getValue (wl_f t) v;
  if isConst V then mret (set_cell t v (mkLattice constant (Some v)))
  else match vOp V with
  | OpCopy =>
      a0 ← index (vArgs V) 0;
      mret (set_cell t v (getLatticeCell t a0))
  | OpPhi => visitPhi t v
  | _ => if isFoldable (vOp V) then visitBinary t v V
         else mret (set_cell t v worstLt)
  end.

(** [visitValue]: the switch, then the deferred comparison with the old cell. *)
Definition visitValue (t : worklist) (v : ID) : result worklist :=
  let oldLt := getLatticeCell t v in
  t' ← visitValue_switch t v;
  let newLt := getLatticeCell t' v in
  if bool_decide (tag newLt ≠ tag oldLt ∨ val newLt ≠ val oldLt)
  then addUses t' v
  else mret t'.

Definition destVisited (t : worklist) (d : BlockID) : bool :=
  existsb (λ kv : edge * bool, bool_decide (dest kv.1 = d)) (map_to_list (wl_visited t)).

(** The body of the loop over [dest.Values]. *)
Definition visitDestValue (seen : bool) (t : worklist) (x : ID) : result worklist :=
  V ← getValue (wl_f t) x;
  if isPhi V || negb seen then visitValue t x else mret t.

Definition visitEdge (t : worklist) (e : edge) : result worklist :=
  if isVisited t e then mret t
  else
    let seen := destVisited t (dest e) in
    let t1 := set_visited t (<[e := true]> (wl_visited t)) in
    D ← getBlock (wl_f t1) (dest e);
    t2 ← range_loop (visitDestValue seen) t1 (bValues D);
    if seen then mret t2 else propagate t2 (dest e).

(** One turn of the loop of [sccp]; [None] is the [break]. *)
Definition step (t : worklist) : result (option worklist) :=
  match wl_edges t with
  | e :: es => t' ← visitEdge (set_edges t es) e; mret (Some t')
  | [] =>
      match wl_uses t with
      | use :: us => t' ← visitValue (set_uses t us) use; mret (Some t')
      | [] => mret None
      end
  end.

(** The loop of [sccp], with a bound on the number of turns; [None] when
    the bound is reached before the loop ends. *)
Fixpoint solve (fuel : nat) (t : worklist) : option (result worklist) :=
  match fuel with
  | O => None
  | S fuel' =>
      match step t with
      | Abort e => Some (Abort e)
      | Ok None => Some (Ok t)
      | Ok (Some t') => solve fuel' t'
      end
  end.

(** ** replaceConst *)

(** One turn of the loop over [ctrlBlock]. *)
Definition rewire (k : ID) (s : Func * Z) (block : BlockID) : result (Func * Z) :=
  B ← getBlock s.1 block;
  match bKind B with
  | BlockIf =>
      K ← getValue s.1 k;
      f1 ← removeEdge s.1 block (vAuxInt K);
      f2 ← resetToPlain f1 block;
      mret (f2, s.2 + 1)
  | BlockJumpTable => mret s
  | kind => Abort (FatalRewire kind)
  end.

(** One turn of the loop over [t.latticeCells]. *)
Definition replaceConst_cell (t : worklist) (s : Func * Z * Z) (vl : ID * lattice)
  : result (Func * Z * Z) :=
  let '(f, constCnt, rewireCnt) := s in
  if bool_decide (tag vl.2 = constant) then
    V ← getValue f vl.1;
    if negb (isConst V) then
      k ← orPanic (val vl.2);
      K ← getValue f k;
      f1 ← reset f vl.1 (vOp K);
      K' ← getValue f1 k;
      V' ← getValue f1 vl.1;
      let f2 := setValue f1 vl.1 (set_AuxInt V' (vAuxInt K')) in
      '(f3, rewireCnt') ← range_loop (rewire k) (f2, rewireCnt)
                             (default [] (wl_defBlock t !! vl.1));
      mret (f3, constCnt + 1, rewireCnt')
    else mret s
  else mret s.

(** [replaceConst], ranging over the cells in the order of [order]. *)
Definition replaceConst_in (order : list (ID * lattice)) (t : worklist)
  : result (Func * Z * Z) :=
  range_loop (replaceConst_cell t) (wl_f t, 0, 0) order.

Definition replaceConst (t : worklist) : result (Func * Z * Z) :=
  replaceConst_in (map_to_list (wl_latticeCells t)) t.

(** ** sccp *)

Definition init (f : Func) : worklist :=
  mkWorklist f [mkEdge (Entry f) (Entry f)] [] ∅ ∅ ∅ ∅.

(** The solver part of [sccp]: set-up, [buildDefUses], the loop. *)
Definition sccp_solve (fuel : nat) (f : Func) : option (result worklist) :=
  match buildDefUses (init f) with
  | Abort e => Some (Abort e)
  | Ok t => solve fuel t
  end.

Definition sccp (fuel : nat) (f : Func) : option (result Func) :=
  match sccp_solve fuel f with
  | None => None
  | Some (Abort e) => Some (Abort e)
  | Some (Ok t) =>
      Some ('(f', _, _) ← replaceConst t; mret f')
  end.

End Solver.

(** ** A sample rewriter and sample functions *)

Definition constArg (f : Func) (op : Op) (p : ID) : option Z :=
  V ← Vals f !! p;
  if decide (vOp V = op) then Some (vAuxInt V) else None.

Definition b2z (b : bool) : Z := if b then 1 else 0.

(** Modelled from the spec: the generic rules are not among the sources.
    This instance has the fold rules of [Add32], [Eq32] and [Less32] on
    two [Const32] arguments ("x = Const32 5, y = Const32 7, z = Add32 x y
    ... z is reset to Const32 12") and matches nothing else. *)
Definition foldRules (f : Func) (P : Value) : Value * bool :=
  match vArgs P with
  | [a; b] =>
      match constArg f OpConst32 a, constArg f OpConst32 b with
      | Some c, Some d =>
          match vOp P with
          | OpAdd32 => (set_AuxInt (resetFields P OpConst32) (int32 (c + d)), true)
          | OpEq32 => (set_AuxInt (resetFields P OpConstBool) (b2z (bool_decide (c = d))), true)
          | OpLess32 => (set_AuxInt (resetFields P OpConstBool) (b2z (bool_decide (c < d))), true)
          | _ => (P, false)
          end
      | _, _ => (P, false)
      end
  | _ => (P, false)
  end.

(** A value as the front end builds it: type and position are immaterial. *)
Definition mkV (op : Op) (aux : Z) (args : list ID) (b : BlockID) (uses : Z) : Value :=
  mkValue op 0 aux args b uses 0.

(** Scenario S1: [x = Const32 5], [y = Const32 7], [z = Add32 x y] in the
    entry block, which is Plain and leads to a Ret block. *)
Definition progS1 : Func :=
  mkFunc [ mkV OpConst32 5 [] 0 1; mkV OpConst32 7 [] 0 1; mkV OpAdd32 0 [0; 1]%nat 0 0 ]
         [ mkBlock BlockPlain [1%nat] [] [0; 1; 2]%nat [] BranchUnknown;
           mkBlock BlockRet [] [0%nat] [] [] BranchUnknown ]
         0.

(** The same function with [z] listed first in the block's values. *)
Definition progS1' : Func :=
  mkFunc [ mkV OpConst32 5 [] 0 1; mkV OpConst32 7 [] 0 1; mkV OpAdd32 0 [0; 1]%nat 0 0 ]
         [ mkBlock BlockPlain [1%nat] [] [2; 0; 1]%nat [] BranchUnknown;
           mkBlock BlockRet [] [0%nat] [] [] BranchUnknown ]
         0.

(** The cell of [v] after [n] turns of the loop, from the state [t];
    the last state is kept once the loop has ended. *)
Fixpoint stateAfter (rw : Func → Value → Value * bool) (n : nat) (t : worklist)
  : result worklist :=
  match n with
  | O => Ok t
  | S n' =>
      match step rw t with
      | Abort e => Abort e
      | Ok None => Ok t
      | Ok (Some t') => stateAfter rw n' t'
      end
  end.

(** An If block on a condition that folds to true, with a join that is
    also the else target:
      b0 (entry, If c -> b1, b2):  x = Const32 5; y = Const32 5;
                                   c = Eq32 x y;  a = <unknown>
      b1 (Plain -> b2):            d = <unknown>
      b2 (Ret):                    p = Phi a d          (preds b0, b1) *)
Definition progIf : Func :=
  mkFunc [ mkV OpConst32 5 [] 0 1; mkV OpConst32 5 [] 0 1;
           mkV OpEq32 0 [0; 1]%nat 0 1; mkV (OpOther 0) 0 [] 0 1;
           mkV (OpOther 0) 0 [] 1 1; mkV OpPhi 0 [3; 4]%nat 2 0 ]
         [ mkBlock BlockIf [1; 2]%nat [] [0; 1; 2; 3]%nat [2%nat] BranchUnknown;
           mkBlock BlockPlain [2%nat] [0%nat] [4%nat] [] BranchUnknown;
           mkBlock BlockRet [] [0; 1]%nat [5%nat] [] BranchUnknown ]
         0.


(** The state in which the loop of [sccp] ends (the initial state when it
    does not end within [fuel] turns, or aborts). *)
Definition solved (rw : Func → Value → Value * bool) (fuel : nat) (f : Func) : worklist :=
  match sccp_solve rw fuel f with
  | Some (Ok t) => t
  | _ => init f
  end.

(** The cell of [v] before each of the first [n] turns of the loop. *)
Definition cellHistory (rw : Func → Value → Value * bool) (f : Func) (v : ID) (n : nat)
  : list (option lattice) :=
  map (λ i, match buildDefUses (init f) with
            | Ok t => match stateAfter rw i t with
                      | Ok t' => Some (getLatticeCell t' v)
                      | Abort _ => None
                      end
            | Abort _ => None
            end) (seq 0 n).

(** ** Statements from the specification, as it words them *)

(** "The oracle returns the same node for the same literal within a single
    opcode": two invocations, one after the other, that both match and
    yield nodes with the same opcode and the same literal yield the same
    node. *)
Definition canonicalizing (rw : Func → Value → Value * bool) : Prop :=
  ∀ f v args f1 n1 v' args' f2 n2 N1 N2,
    computeConstValue rw f v args = Ok (f1, n1, true) →
    computeConstValue rw f1 v' args' = Ok (f2, n2, true) →
    Vals f2 !! n1 = Some N1 → Vals f2 !! n2 = Some N2 →
    vOp N1 = vOp N2 → vAuxInt N1 = vAuxInt N2 →
    n1 = n2.

(** ** The def-use relation of a function *)

(** The (argument, user) pairs in the order of the scan of [buildDefUses],
    and the (control value, block) pairs likewise. *)
Definition valueArgPairs (f : Func) (v : ID) : list (ID * ID) :=
  match Vals f !! v with
  | Some V => map (λ a, (a, v)) (vArgs V)
  | None => []
  end.
Definition blockArgPairs (f : Func) (ib : BlockID * Block) : list (ID * ID) :=
  bValues ib.2 ≫= valueArgPairs f.
Definition blockCtlPairs (ib : BlockID * Block) : list (ID * BlockID) :=
  map (λ c, (c, ib.1)) (bControls ib.2).
Definition argPairs (f : Func) : list (ID * ID) :=
  imap pair (Blocks f) ≫= blockArgPairs f.
Definition ctlPairs (f : Func) : list (ID * BlockID) :=
  imap pair (Blocks f) ≫= blockCtlPairs.

(** The values that have [a] as an argument, once per occurrence, and the
    blocks that have [a] as a control value. *)
Definition usersOf (f : Func) (a : ID) : list ID :=
  (filter (λ p, p.1 = a) (argPairs f)).*2.
Definition ctlBlocksOf (f : Func) (a : ID) : list BlockID :=
  (filter (λ p, p.1 = a) (ctlPairs f)).*2.

(** The recorded use count of [a] is the number of its uses. *)
Definition useCountOk (f : Func) (a : ID) : Prop :=
  ∃ A, Vals f !! a = Some A ∧
       vUses A = Z.of_nat (length (usersOf f a)) + Z.of_nat (length (ctlBlocksOf f a)).

(** [m] after [m[k] = append(m[k], x)] for each pair [(k, x)] in turn. *)
Definition collect {A} (pairs : list (ID * A)) (m : gmap ID (list A)) : gmap ID (list A) :=
  foldl (λ m p, appendAt m p.1 p.2) m pairs.

(** The check of one entry of [defUse]. *)
Definition entryOk (f : Func) (db : gmap ID (list BlockID)) (kv : ID * list ID) : Prop :=
  ∃ K, Vals f !! kv.1 = Some K ∧
       vUses K = Z.of_nat (length kv.2) + Z.of_nat (length (default [] (db !! kv.1))).

(** [progIf] with a stale use count on [c], which is used once, as the
    control value of [b0]. *)
Definition progStale : Func :=
  mkFunc (<[2%nat := mkV OpEq32 0 [0; 1]%nat 0 7]> (Vals progIf)) (Blocks progIf) (Entry progIf).

(** "For every value v, |defUse[v]| + |defBlock[v]| == v.useCount", the
    build completing normally exactly when this holds of every value listed
    in a block of the function. *)
Definition checksEveryValue (f : Func) : Prop :=
  (∃ t, buildDefUses (init f) = Ok t) ↔
  (∀ B v, B ∈ Blocks f → v ∈ bValues B → useCountOk f v).

(** The state [buildDefUses] builds, when it does not abort. *)
Definition defUseOf (f : Func) : gmap ID (list ID) := collect (argPairs f) ∅.
Definition defBlockOf (f : Func) : gmap ID (list BlockID) := collect (ctlPairs f) ∅.

(** ** Relations between a function before and after rewriting *)

(** [f'] has the values of [f], except that phis may have lost arguments
    and that use counts may differ. *)
Definition valsRel (f f' : Func) : Prop :=
  length (Vals f') = length (Vals f) ∧
  ∀ p V, Vals f !! p = Some V →
    ∃ args' uses', Vals f' !! p = Some (set_Uses (set_Args V args') uses')
      ∧ sublist args' (vArgs V) ∧ (isPhi V = false → args' = vArgs V).

(** Two states of a block that differ at most in the predecessor list. *)
Definition coreEq (B B' : Block) : Prop :=
  bKind B = bKind B' ∧ bSuccs B = bSuccs B' ∧ bControls B = bControls B'
  ∧ bLikely B = bLikely B' ∧ bValues B = bValues B'.

(** [B] is [B0] collapsed to a Plain block by removing successor [i]. *)
Definition rewiredTo (i : nat) (B0 B : Block) : Prop :=
  bKind B = BlockPlain ∧ bSuccs B = delete i (bSuccs B0) ∧ bControls B = []
  ∧ bLikely B = BranchUnknown ∧ bValues B = bValues B0.

(** The value [V] after it has been reset to the constant [K]. *)
Definition finalForm (V K : Value) : Value :=
  mkValue (vOp K) (vType V) (vAuxInt K) [] (vBlock V) (vUses V) (vPos V).

(** Every Const cell holds a node with a constant-literal opcode. *)
Definition cellsLiteral (t : worklist) : Prop :=
  ∀ v lt, wl_latticeCells t !! v = Some lt → tag lt = constant →
    ∃ k K, val lt = Some k ∧ Vals (wl_f t) !! k = Some K ∧ isConst K = true.

(** The state of the function while [replaceConst] ranges over the cells,
    the entries in [done] having been processed: use counts apart, the
    values reset so far have their final form and the others differ from
    the original at most in phi arguments that were removed; a block that
    is not Plain is as it was, but for its predecessors; the If blocks
    controlled by a value reset so far are rewired. *)
Definition rcInv (t : worklist) (done : list (ID * lattice)) (f : Func) : Prop :=
  length (Vals f) = length (Vals (wl_f t))
  ∧ (∀ p V0, Vals (wl_f t) !! p = Some V0 →
       (∀ lt k K, (p, lt) ∈ done → tag lt = constant → isConst V0 = false →
          val lt = Some k → Vals (wl_f t) !! k = Some K →
          ∃ uses', Vals f !! p = Some (set_Uses (finalForm V0 K) uses'))
       ∧ ((∀ lt, (p, lt) ∈ done → tag lt = constant → isConst V0 = true) →
          ∃ args' uses', Vals f !! p = Some (set_Uses (set_Args V0 args') uses')
                   ∧ sublist args' (vArgs V0)
                   ∧ (isPhi V0 = false → args' = vArgs V0)))
  ∧ (∀ b B0, Blocks (wl_f t) !! b = Some B0 →
       ∃ B, Blocks f !! b = Some B ∧ (bKind B ≠ BlockPlain → coreEq B B0))
  ∧ (∀ v lt V0 k K b B0,
       (v, lt) ∈ done → tag lt = constant →
       Vals (wl_f t) !! v = Some V0 → isConst V0 = false →
       val lt = Some k → Vals (wl_f t) !! k = Some K →
       b ∈ default [] (wl_defBlock t !! v) →
       Blocks (wl_f t) !! b = Some B0 → bKind B0 = BlockIf →
       ∃ B, Blocks f !! b = Some B ∧ rewiredTo (Z.to_nat (vAuxInt K)) B0 B).

(** ** The inputs of a phi *)

(** Argument position [ia.1] of a phi of block [blk] has a predecessor
    edge, and that edge has been visited. *)
Definition visitedPos (t : worklist) (blk : BlockID) (preds : list BlockID)
    (ia : nat * ID) : bool :=
  match preds !! ia.1 with
  | Some p => isVisited t (mkEdge p blk)
  | None => false
  end.

(** The cells of the arguments of the phi [V] that come in over visited
    edges, in argument order. *)
Definition phiInputs (t : worklist) (V : Value) : list lattice :=
  match Blocks (wl_f t) !! vBlock V with
  | Some B =>
      map (λ ia, getLatticeCell t ia.2)
          (filter (λ ia, visitedPos t (vBlock V) (bPreds B) ia)
                  (zip (seq 0 (length (vArgs V))) (vArgs V)))
  | None => []
  end.

(** [f'] is [f] with probes added: at the end of the heap and, in the
    order in which they were allocated, at the end of the value list of
    the entry block.  Nothing else differs. *)
Definition extendsF (f f' : Func) : Prop :=
  Entry f' = Entry f
  ∧ ∃ probes,
      Vals f' = Vals f ++ probes
      ∧ Blocks f' = alter (λ B, addValues B (seq (length (Vals f)) (length probes)))
                          (Entry f) (Blocks f).

(** ** The invariant of the solver *)

(** [w] is a phi listed in a block of [f]. *)
Definition listedPhi (f : Func) (w : ID) (W : Value) : Prop :=
  ∃ b B, Blocks f !! b = Some B ∧ w ∈ bValues B ∧ Vals f !! w = Some W ∧ isPhi W = true.

(** Every value listed in a block knows that block as its own. *)
Definition blocksOwnValues (f : Func) : Prop :=
  ∀ b B v V, Blocks f !! b = Some B → v ∈ bValues B → Vals f !! v = Some V → vBlock V = b.

(** The state [t] of the solver run on [f0]: the function has only gained
    probes, listed in its entry block; the def-use index is the one built
    at the start; the Const cells hold literals; and, when the blocks of
    [f0] own their values, every phi they list is up to date unless it
    waits in the value worklist or is one of the values [pend] about to be
    visited. *)
Definition solveInv (f0 : Func) (pend : ID → Prop) (t : worklist) : Prop :=
  extendsF f0 (wl_f t)
  ∧ wl_defUse t = defUseOf f0
  ∧ wl_defBlock t = defBlockOf f0
  ∧ cellsLiteral t
  ∧ (blocksOwnValues f0 → ∀ w W, listedPhi f0 w W →
       w ∈ wl_uses t ∨ pend w ∨ getLatticeCell t w = meet (phiInputs t W)).

(** What [replaceConst] returns on the state in which the loop ended. *)
Definition rewritten (rw : Func → Value → Value * bool) (fuel : nat) (f : Func)
  : Func * Z * Z :=
  match replaceConst (solved rw fuel f) with
  | Ok r => r
  | Abort _ => (f, 0, 0)
  end.


(** A loop that carries a value around unchanged, entered with a folded
    sum; the entry block lists the copy before the sum and the sum before
    its operands:
      b0 (entry, Plain -> b1):      a = Copy n; n = Add32 k1 k2;
                                    k1 = Const32 1; k2 = Const32 2
      b1 (If c -> b2, b3):          u = Phi a y; c = <unknown>   (preds b0, b2)
      b2 (Plain -> b1):             x = Copy u; y = Copy x
      b3 (Ret) *)
Definition progSpin : Func :=
  mkFunc [ mkV OpConst32 1 [] 0 1; mkV OpConst32 2 [] 0 1;
           mkV OpAdd32 0 [0; 1]%nat 0 1; mkV OpCopy 0 [2%nat] 0 1;
           mkV OpPhi 0 [3; 6]%nat 1 1; mkV OpCopy 0 [4%nat] 2 1;
           mkV OpCopy 0 [5%nat] 2 1; mkV (OpOther 0) 0 [] 1 1 ]
         [ mkBlock BlockPlain [1%nat] [] [3; 2; 0; 1]%nat [] BranchUnknown;
           mkBlock BlockIf [2; 3]%nat [0; 2]%nat [4; 7]%nat [7%nat] BranchUnknown;
           mkBlock BlockPlain [1%nat] [1%nat] [5; 6]%nat [] BranchUnknown;
           mkBlock BlockRet [] [1%nat] [] [] BranchUnknown ]
         0.

(** The state after exactly [n] turns of the loop; [None] when the loop
    ends or aborts earlier. *)
Fixpoint turns (rw : Func → Value → Value * bool) (n : nat) (t : worklist)
  : option worklist :=
  match n with
  | O => Some t
  | S n' =>
      match step rw t with
      | Ok (Some t') => turns rw n' t'
      | _ => None
      end
  end.

(** The state of the solver run on [progSpin] after 16 turns of the loop. *)
Definition spinState : option worklist :=
  match buildDefUses (init progSpin) with
  | Ok t0 => turns foldRules 16 t0
  | Abort _ => None
  end.

(** ** Edges of the control-flow graph, growth of the solver state *)

(** An edge from a block of [f] to one of its successors. *)
Definition succEdge (f : Func) (e : edge) : Prop :=
  ∃ B, Blocks f !! start e = Some B ∧ dest e ∈ bSuccs B.

(** An edge the solver may hold: the edge it starts from, or an edge of the
    control-flow graph. *)
Definition cfgEdge (f : Func) (e : edge) : Prop :=
  e = mkEdge (Entry f) (Entry f) ∨ succEdge f e.

(** [t'] is a later state of the solver than [t], nothing having been taken
    from the worklists in between: the function has gained probes, listed
    in its entry block; both worklists have gained entries at the end, the
    new edges being edges of the control-flow graph; no visited mark and
    no cell has been removed; and the def-use index is the same. *)
Definition advances (t t' : worklist) : Prop :=
  extendsF (wl_f t) (wl_f t')
  ∧ wl_defUse t' = wl_defUse t ∧ wl_defBlock t' = wl_defBlock t
  ∧ (∃ us, wl_uses t' = wl_uses t ++ us)
  ∧ (∃ es, wl_edges t' = wl_edges t ++ es ∧ ∀ e, e ∈ es → succEdge (wl_f t) e)
  ∧ (∀ e, is_Some (wl_visited t !! e) → is_Some (wl_visited t' !! e))
  ∧ (∀ v, is_Some (wl_latticeCells t !! v) → is_Some (wl_latticeCells t' !! v)).

(** The invariant on edges of the solver run on [f0]. *)
Definition edgesInv (f0 : Func) (t : worklist) : Prop :=
  extendsF f0 (wl_f t)
  ∧ (∀ e, e ∈ wl_edges t → cfgEdge f0 e)
  ∧ (∀ e, is_Some (wl_visited t !! e) → cfgEdge f0 e).

(** [B] is [B0] after rewiring: the same values; the same kind, or Plain
    where [B0] was an If; successors and predecessors among those of [B0],
    in their order; and, unless [B0] was an If, the same successors,
    control values and branch prediction. *)
Definition rewiredFrom (B0 B : Block) : Prop :=
  bValues B = bValues B0
  ∧ (bKind B = bKind B0 ∨ (bKind B0 = BlockIf ∧ bKind B = BlockPlain))
  ∧ sublist (bSuccs B) (bSuccs B0)
  ∧ sublist (bPreds B) (bPreds B0)
  ∧ (bKind B0 ≠ BlockIf →
       bSuccs B = bSuccs B0 ∧ bControls B = bControls B0 ∧ bLikely B = bLikely B0).

(** The blocks of [f] are those of [f0], rewired. *)
Definition blocksRewired (f0 f : Func) : Prop :=
  length (Blocks f) = length (Blocks f0) ∧ Entry f = Entry f0
  ∧ length (Vals f) = length (Vals f0)
  ∧ ∀ b B0, Blocks f0 !! b = Some B0 → ∃ B, Blocks f !! b = Some B ∧ rewiredFrom B0 B.

(** [f] with the probe [P] allocated for its entry block. *)
Definition withProbe (f : Func) (P : Value) : Func :=
  mkFunc (Vals f ++ [P]) (alter (λ B, addValues B [length (Vals f)]) (Entry f) (Blocks f))
         (Entry f).

(** ** More sample functions and states *)

(** A jump table on a constant selector:
      b0 (entry, JumpTable k -> b1, b2, b3):  k = Const64 2
      b1, b2, b3 (Ret) *)
Definition progJump : Func :=
  mkFunc [ mkV OpConst64 2 [] 0 1 ]
         [ mkBlock BlockJumpTable [1; 2; 3]%nat [] [0%nat] [0%nat] BranchUnknown;
           mkBlock BlockRet [] [0%nat] [] [] BranchUnknown;
           mkBlock BlockRet [] [0%nat] [] [] BranchUnknown;
           mkBlock BlockRet [] [0%nat] [] [] BranchUnknown ]
         0.

(** An If block on a constant that is not a boolean:
      b0 (entry, If k -> b1, b2):  k = Const32 5
      b1, b2 (Ret) *)
Definition progBadIf : Func :=
  mkFunc [ mkV OpConst32 5 [] 0 1 ]
         [ mkBlock BlockIf [1; 2]%nat [] [0%nat] [0%nat] BranchUnknown;
           mkBlock BlockRet [] [0%nat] [] [] BranchUnknown;
           mkBlock BlockRet [] [0%nat] [] [] BranchUnknown ]
         0.

(** The state in which the loop of [sccp] starts (the initial state when
    [buildDefUses] aborts). *)
Definition built (f : Func) : worklist :=
  match buildDefUses (init f) with
  | Ok t => t
  | Abort _ => init f
  end.

(** The state after one turn of the loop, [t] itself when there is none. *)
Definition next (rw : Func → Value → Value * bool) (t : worklist) : worklist :=
  match step rw t with
  | Ok (Some t') => t'
  | _ => t
  end.

(** The solver on [progS1] once [x] and [y] have been visited. *)
Definition stateS1 : worklist :=
  set_cell (set_cell (built progS1) 0 (Const (Some 0%nat))) 1 (Const (Some 1%nat)).

(** The value [x] of [f] is a phi. *)
Definition isPhiAt (f : Func) (x : ID) : Prop :=
  ∃ V, Vals f !! x = Some V ∧ isPhi V = true.

#[global] Instance isPhiAt_dec f x : Decision (isPhiAt f x).
Proof.
  unfold isPhiAt. destruct (Vals f !! x) as [V|].
  - destruct (isPhi V) eqn:Hphi.
    + left. by exists V.
    + right. intros (V' & [= <-] & ?). congruence.
  - right. by intros (V' & ? & _).
Defined.

(** ** A function without constants *)

(** No cell is Const. *)
Definition noConstCell (t : worklist) : Prop :=
  ∀ v lt, wl_latticeCells t !! v = Some lt → tag lt ≠ constant.

(** The solver run on [f] has not touched the function, and no cell is
    Const. *)
Definition noConstInv (f : Func) (t : worklist) : Prop :=
  wl_f t = f ∧ noConstCell t.

(** A branch on an opaque value:
      b0 (entry, If c -> b1, b2):  c = <unknown>; x = Add32 c c
      b1, b2 (Ret) *)
Definition progOpaque : Func :=
  mkFunc [ mkV (OpOther 0) 0 [] 0 3; mkV OpAdd32 0 [0; 0]%nat 0 0 ]
         [ mkBlock BlockIf [1; 2]%nat [] [0; 1]%nat [0%nat] BranchUnknown;
           mkBlock BlockRet [] [0%nat] [] [] BranchUnknown;
           mkBlock BlockRet [] [0%nat] [] [] BranchUnknown ]
         0.

(** ** Loop rotation (cmd/compile/internal/ssa/looprotate.go) *)

(** A loop of the loop nest, with the fields [checkLoopForm] reads. *)
Record loop := mkLoop {
  header : BlockID;
  exits  : list BlockID;
}.

(** The scan of [loop.exits] for [loopExit], which ends at the first hit. *)
Fixpoint illShape_scan (loopExit : BlockID) (exits : list BlockID) (illShape : bool) : bool :=
  match exits with
  | [] => illShape
  | exit :: rest =>
      if decide (exit = loopExit) then false
      else illShape_scan loopExit rest illShape
  end.

(** [checkLoopForm]: the header is an If block with two predecessors, and
    its second successor is an exit of the loop. *)
Definition checkLoopForm (f : Func) (l : loop) : result bool :=
  loopHeader ← getBlock f (header l);
  if decide (bKind loopHeader ≠ BlockIf) then mret false
  else if decide (length (bPreds loopHeader) ≠ 2%nat) then mret false
  else
    loopExit ← index (bSuccs loopHeader) 1;
    if illShape_scan loopExit (exits l) true then mret false else mret true.

(** The loop of [progSpin] as the loop nest describes it: header [b1],
    left through [b3]. *)
Definition loopSpin : loop := mkLoop 1 [3%nat].

(** ** Block ordering (looprotate.go, blockOrdering) *)

(** The loop nest as [blockOrdering] reads it.  A [*loop] is an index into
    [loops]; [b2l] gives, by block, the loop the block belongs to, [None]
    being nil.  [f.loopnest()] is not among the sources: the loop nest is
    an argument. *)
Record loopnest := mkLoopnest {
  hasIrreducible : bool;
  loops : list loop;
  b2l   : list (option nat);
}.

(** How a run of [blockOrdering] may end other than by returning: a
    run-time panic, the [Fatalf] at the end, or the bound on the turns of
    the inner [for] loop. *)
Inductive stop := StopPanic | StopFatal | StopBound.

Inductive outcome (A : Type) :=
  | Done (a : A)
  | Stop (s : stop).
Arguments Done {A} a.
Arguments Stop {A} s.

#[global] Instance outcome_ret : MRet outcome := @Done.
#[global] Instance outcome_bind : MBind outcome := λ A B k r,
  match r with Done a => k a | Stop s => Stop s end.

(** [for _, x := range l { s = body(s, x) }]. *)
Fixpoint forEach {S A} (body : S → A → outcome S) (s : S) (l : list A) : outcome S :=
  match l with
  | [] => Done s
  | x :: l' => s' ← body s x; forEach body s' l'
  end.

(** [s[i]] and [s[i] = x] on a slice. *)
Definition at_ {A} (s : list A) (i : nat) : outcome A :=
  match s !! i with Some a => Done a | None => Stop StopPanic end.
Definition store {A} (s : list A) (i : nat) (x : A) : outcome (list A) :=
  if decide (i < length s)%nat then Done (<[i := x]> s) else Stop StopPanic.

(** The variables of [blockOrdering]: [f.Blocks] as a list of block
    pointers, [idToIdx], [move] and [after].  Blocks are identified with
    their IDs. *)
Record layout := mkLayout {
  lBlocks  : list BlockID;
  lIdToIdx : list nat;
  lMove    : gset BlockID;
  lAfter   : gmap BlockID (list BlockID);
}.

Definition set_after (s : layout) (a : gmap BlockID (list BlockID)) : layout :=
  mkLayout (lBlocks s) (lIdToIdx s) (lMove s) a.

(** [idToIdx[b.ID] = i]. *)
Definition setIdx (idx : list nat) (ib : nat * BlockID) : outcome (list nat) :=
  store idx ib.2 ib.1.

(** One turn of the loop over [b.Preds], looking for the in-loop
    predecessor of the header of loop [l]. *)
Definition pickPred (f : Func) (ln : loopnest) (l : nat) (p : option BlockID)
    (e : BlockID) : outcome (option BlockID) :=
  E ← at_ (Blocks f) e;
  if decide (bKind E ≠ BlockPlain) then mret p
  else
    le ← at_ (b2l ln) e;
    if decide (le ≠ Some l) then mret p else mret (Some e).

(** The inner [for] loop, which collects in [after[p.ID]] the blocks of the
    loop that follow [b]; at most [bound] turns. *)
Fixpoint scan (bound : nat) (ln : loopnest) (l : nat) (p : BlockID) (s : layout)
    (b : BlockID) : outcome layout :=
  match bound with
  | O => Stop StopBound
  | S bound' =>
      i ← at_ (lIdToIdx s) b;
      let nextIdx := S i in
      if decide (length (lBlocks s) ≤ nextIdx)%nat then mret s
      else
        nextb ← at_ (lBlocks s) nextIdx;
        if decide (nextb = p) then mret s
        else
          lb ← at_ (b2l ln) nextb;
          let s' := if decide (lb = Some l)
                    then set_after s (<[p := default [] (lAfter s !! p) ++ [nextb]]> (lAfter s))
                    else s in
          scan bound' ln l p s' nextb
  end.

(** One turn of the loop over [loopnest.loops]. *)
Definition rotate (bound : nat) (f : Func) (ln : loopnest) (s : layout)
    (il : nat * loop) : outcome layout :=
  let b := header il.2 in
  B ← at_ (Blocks f) b;
  p ← forEach (pickPred f ln il.1) None (bPreds B);
  match p with
  | None => mret s
  | Some p =>
      if decide (p = b) then mret s
      else
        s1 ← scan bound ln il.1 p (set_after s (<[p := [b]]> (lAfter s))) b;
        ih ← at_ (lIdToIdx s1) b;
        blocks1 ← store (lBlocks s1) ih p;
        ip ← at_ (lIdToIdx s1) p;
        blocks2 ← store blocks1 ip b;
        idx1 ← store (lIdToIdx s1) b ip;
        idx2 ← store idx1 p ih;
        mret (mkLayout blocks2 idx2
                (foldl (λ m x, {[x]} ∪ m) (lMove s1) (default [] (lAfter s1 !! p)))
                (lAfter s1))
  end.

(** [f.Blocks[j] = a; j++]. *)
Definition emit (st : list BlockID * nat) (a : BlockID) : outcome (list BlockID * nat) :=
  blocks ← store st.1 st.2 a; mret (blocks, S st.2).

(** One turn of the loop over [oldOrder]. *)
Definition place (s : layout) (st : list BlockID * nat) (b : BlockID)
  : outcome (list BlockID * nat) :=
  if decide (b ∈ lMove s) then mret st
  else st1 ← emit st b; forEach emit st1 (default [] (lAfter s !! b)).

(** [blockOrdering] on the function [f] with [f.Blocks = order]; what is
    returned is [f.Blocks] at the end.  The pass [sccp] never reorders
    [f.Blocks], so there the heap of block objects stands for it; here
    [f.Blocks] is a list of pointers into that heap.  [f.NumBlocks] and
    [f.Cache.allocIntSlice] are not among the sources: [idToIdx] is taken
    to have one entry for each block object, zero at first.  [bound]
    bounds the turns of each run of the inner [for] loop. *)
Definition blockOrdering (bound : nat) (ln : loopnest) (f : Func) (order : list BlockID)
  : outcome (list BlockID) :=
  if hasIrreducible ln then mret order
  else if decide (length (loops ln) = 0%nat) then mret order
  else
    idx ← forEach setIdx (replicate (length (Blocks f)) 0%nat) (imap pair order);
    s ← forEach (rotate bound f ln) (mkLayout order idx ∅ ∅) (imap pair (loops ln));
    st ← forEach (place s) (lBlocks s, 0%nat) (lBlocks s);
    if decide (st.2 ≠ length (lBlocks s)) then Stop StopFatal else mret st.1.

(** The loop nest of [progSpin]: one loop, made of [b1] and [b2]. *)
Definition nestSpin : loopnest :=
  mkLoopnest false [loopSpin] [None; Some 0%nat; Some 0%nat; None].

(** [idToIdx] gives the place of every block of [f.Blocks]. *)
Definition indexed (blocks : list BlockID) (idx : list nat) : Prop :=
  ∀ i b, blocks !! i = Some b → idx !! b = Some i.

(** The in-loop predecessor that [blockOrdering] picks for the loop [L],
    number [l], when it picks one. *)
Definition latch (f : Func) (ln : loopnest) (l : nat) (L : loop) : option BlockID :=
  match Blocks f !! header L with
  | Some B =>
      match forEach (pickPred f ln l) None (bPreds B) with
      | Done (Some p) => if decide (p = header L) then None else Some p
      | _ => None
      end
  | None => None
  end.

(** The state of [blockOrdering] before the turn for loop [cur], [nb]
    being the number of blocks: [f.Blocks] lists every block once and
    [idToIdx] gives its place; each entry of [after] belongs to an earlier
    loop, its key being a block of that loop and its list blocks of that
    loop other than the key, none twice; no two entries belong to the same
    loop; and [move] holds the blocks of the lists of [after]. *)
Definition rotInv (ln : loopnest) (nb cur : nat) (s : layout) : Prop :=
  NoDup (lBlocks s)
  ∧ length (lBlocks s) = nb
  ∧ (∀ x, x ∈ lBlocks s ↔ (x < nb)%nat)
  ∧ length (lIdToIdx s) = nb
  ∧ indexed (lBlocks s) (lIdToIdx s)
  ∧ (∀ k xs, lAfter s !! k = Some xs →
       ∃ l, (l < cur)%nat ∧ b2l ln !! k = Some (Some l) ∧ NoDup xs
         ∧ ∀ x, x ∈ xs → x ≠ k ∧ (x < nb)%nat ∧ b2l ln !! x = Some (Some l))
  ∧ (∀ k k' xs xs', lAfter s !! k = Some xs → lAfter s !! k' = Some xs' →
       b2l ln !! k = b2l ln !! k' → k = k')
  ∧ (∀ x, x ∈ lMove s ↔ ∃ k xs, lAfter s !! k = Some xs ∧ x ∈ xs).

(** What the last loop writes for the block [b] of [oldOrder]. *)
Definition placed (s : layout) (b : BlockID) : list BlockID :=
  if decide (b ∈ lMove s) then [] else b :: default [] (lAfter s !! b).

(** * Properties *)

(** ** The result monad and loops *)

Lemma bind_Ok {A B} (r : result A) (k : A → result B) (b : B) :
  r ≫= k = Ok b ↔ ∃ a, r = Ok a ∧ k a = Ok b.
Proof.
  destruct r as [a|e]; simpl.
  - split; [eauto | by intros (? & [= ->] & ?)].
  - split; [done | by intros (? & ? & ?)].
Qed.

Lemma orPanic_Ok {A} (o : option A) (a : A) : orPanic o = Ok a ↔ o = Some a.
Proof. destruct o; simpl; split; congruence. Qed.

Lemma range_loop_app {S A} (body : S → A → result S) s l1 l2 :
  range_loop body s (l1 ++ l2) = s' ← range_loop body s l1; range_loop body s' l2.
Proof.
  revert s. induction l1 as [|x l1 IH]; intros s; simpl; [done|].
  destruct (body s x); simpl; [apply IH | done].
Qed.

(** An invariant of the loop body that also tracks the part of the list
    still to be processed. *)
Lemma range_loop_inv {S A} (body : S → A → result S) (I : S → list A → Prop) l s s' :
  I s l →
  (∀ s x rest s', I s (x :: rest) → body s x = Ok s' → I s' rest) →
  range_loop body s l = Ok s' →
  I s' [].
Proof.
  intros HI Hstep. revert s HI. induction l as [|x l IH]; intros s HI; simpl.
  - by intros [= <-].
  - intros (s1 & Hb & Hl)%bind_Ok. eauto.
Qed.

(** ** meet *)

Lemma meet_loop_constant a l :
  meet_loop (Const a) l = if decide (Forall (agrees a) l) then Const a else Bottom.
Proof.
  induction l as [|[[] p] l IH]; cbn [meet_loop tag val Const].
  - by rewrite decide_True by constructor.
  - rewrite IH. destruct (decide (Forall (agrees a) l)) as [Hl|Hl].
    + rewrite decide_True; [done|]. constructor; [by left | done].
    + rewrite decide_False; [done|]. by intros [_ ?]%Forall_cons.
  - destruct (decide (a = p)) as [->|Hne].
    + rewrite IH. destruct (decide (Forall (agrees p) l)) as [Hl|Hl].
      * rewrite decide_True; [done|]. constructor; [by right | done].
      * rewrite decide_False; [done|]. by intros [_ ?]%Forall_cons.
    + rewrite decide_False; [done|].
      intros [[?|[_ ?]] _]%Forall_cons; simpl in *; congruence.
  - rewrite decide_False; [done|].
    intros [[?|[? _]] _]%Forall_cons; simpl in *; congruence.
Qed.

Lemma meet_cons x l :
  meet (x :: l) =
    match tag x with
    | top => meet l
    | constant => if decide (Forall (agrees (val x)) l) then Const (val x) else Bottom
    | bottom => Bottom
    end.
Proof.
  unfold meet; simpl. destruct (tag x); try done. apply meet_loop_constant.
Qed.

(** The three possible results, each by what the list contains. *)
Lemma meet_Top l : meet l = Top ↔ Forall (λ x, tag x = top) l.
Proof.
  induction l as [|x l IH]; [by split|].
  rewrite meet_cons, Forall_cons. destruct (tag x) eqn:Hx.
  - rewrite IH. tauto.
  - case_decide; (split; [done | by intros [? _]]).
  - split; [done | by intros [? _]].
Qed.

Lemma meet_Const l a :
  meet l = Const a ↔ Forall (agrees a) l ∧ ∃ x, x ∈ l ∧ tag x = constant.
Proof.
  induction l as [|x l IH].
  - split; [done|]. intros [_ (x & Hx%elem_of_nil & _)]. done.
  - rewrite meet_cons, Forall_cons. destruct (tag x) eqn:Hx.
    + rewrite IH. split.
      * intros [Hall (y & Hy & Hty)]. repeat split; [by left | done |].
        exists y. split; [by right | done].
      * intros [[_ Hall] (y & Hy & Hty)]. split; [done|].
        apply elem_of_cons in Hy as [->|Hy]; [congruence | eauto].
    + case_decide as Hall.
      * split.
        -- intros [= <-]. repeat split; [by right | done |].
           exists x. split; [by left | done].
        -- intros [[[?|[_ <-]] _] _]; [congruence | done].
      * split; [done|]. intros [[[?|[_ <-]] Hall'] _]; [congruence | done].
    + split; [done|]. intros [[[?|[? _]] _] _]; congruence.
Qed.

Lemma meet_cases l : meet l = Top ∨ meet l = Bottom ∨ ∃ a, meet l = Const a.
Proof.
  induction l as [|x l IH]; [by left|].
  rewrite meet_cons. destruct (tag x); [done | | by right; left].
  case_decide; [right; right; eauto | by right; left].
Qed.

Lemma meet_Bottom l :
  meet l = Bottom ↔
    (∃ x, x ∈ l ∧ tag x = bottom) ∨
    (∃ x y, x ∈ l ∧ y ∈ l ∧ tag x = constant ∧ tag y = constant ∧ val x ≠ val y).
Proof.
  induction l as [|x l IH].
  - split; [done|]. intros [(x & Hx%elem_of_nil & _)|(x & y & Hx%elem_of_nil & _)]; done.
  - rewrite meet_cons. destruct (tag x) eqn:Hx.
    + rewrite IH. split.
      * intros [(y & Hy & ?)|(y & z & Hy & Hz & ?)]; [left | right].
        -- exists y. split; [by right | done].
        -- exists y, z. repeat split; try tauto; by right.
      * intros [(y & Hy & ?)|(y & z & Hy & Hz & Hty & Htz & Hne)]; [left | right].
        -- apply elem_of_cons in Hy as [->|Hy]; [congruence | eauto].
        -- apply elem_of_cons in Hy as [->|Hy]; [congruence|].
           apply elem_of_cons in Hz as [->|Hz]; [congruence|].
           exists y, z. tauto.
    + case_decide as Hall.
      * split; [done|]. rewrite Forall_forall in Hall.
        assert (Hx' : agrees (val x) x) by (by right).
        assert (Hall' : ∀ y, y ∈ x :: l → agrees (val x) y).
        { intros y [->|Hy]%elem_of_cons; auto. }
        intros [(y & Hy & Hty)|(y & z & Hy & Hz & Hty & Htz & Hne)].
        -- destruct (Hall' y Hy) as [?|[? _]]; congruence.
        -- destruct (Hall' y Hy) as [?|[_ ?]], (Hall' z Hz) as [?|[_ ?]]; congruence.
      * split; [intros _ | done].
        apply not_Forall_Exists in Hall; [|apply _].
        apply Exists_exists in Hall as (y & Hy & Hny).
        destruct (tag y) eqn:Hty.
        -- exfalso. apply Hny. by left.
        -- right. exists x, y. repeat split; [by left | by right | done | done |].
           intros Heq. apply Hny. by right.
        -- left. exists y. split; [by right | done].
    + split; [intros _ | done]. left. exists x. split; [by left | done].
Qed.

(** The result is determined by the set of cells in the list. *)
Lemma meet_set_ext l l' : (∀ x, x ∈ l ↔ x ∈ l') → meet l = meet l'.
Proof.
  intros Hll'.
  destruct (meet_cases l) as [H|[H|[a H]]]; rewrite H; symmetry.
  - apply meet_Top. apply meet_Top in H.
    rewrite Forall_forall in *. intros x Hx%Hll'. auto.
  - apply meet_Bottom. apply meet_Bottom in H.
    destruct H as [(y & Hy & ?)|(y & z & Hy & Hz & ?)]; [left | right].
    + exists y. by rewrite <- Hll'.
    + exists y, z. by rewrite <- !Hll'.
  - apply meet_Const. apply meet_Const in H as [Hall (y & Hy & Hty)]. split.
    + rewrite Forall_forall in *. intros x Hx%Hll'. auto.
    + exists y. by rewrite <- Hll'.
Qed.

#[local] Ltac list_mem :=
  intros ?; rewrite ?elem_of_cons, ?elem_of_nil; tauto.

Lemma meet_skip_top l1 l2 x :
  tag x = top → meet (l1 ++ x :: l2) = meet (l1 ++ l2).
Proof.
  intros Hx. unfold meet. generalize (mkLattice top None).
  induction l1 as [|y l1 IH]; intros lt; cbn [app meet_loop].
  - by rewrite Hx.
  - destruct (tag y); [apply IH | | done].
    destruct (tag lt); [apply IH | |]; case_decide; auto.
Qed.

(** The meet of a list, taken as a cell, is its own meet. *)
Lemma meet_meet l : meet [meet l] = meet l.
Proof. by destruct (meet_cases l) as [->|[->|[a ->]]]. Qed.

(** A list stays under a constant exactly when its meet does. *)
Lemma agrees_meet a l : Forall (agrees a) l ↔ agrees a (meet l).
Proof.
  destruct (meet_cases l) as [H|[H|[b H]]]; rewrite H.
  - apply meet_Top in H. split; [by left|]. intros _.
    eapply Forall_impl; [exact H|]. intros x Hx. by left.
  - apply meet_Bottom in H. split; [|by intros [?|[? _]]].
    rewrite Forall_forall. intros Hall.
    destruct H as [(x & Hx & Htx)|(x & y & Hx & Hy & Htx & Hty & Hne)].
    + destruct (Hall x Hx) as [?|[? _]]; congruence.
    + destruct (Hall x Hx) as [?|[_ ?]], (Hall y Hy) as [?|[_ ?]]; congruence.
  - apply meet_Const in H as [Hall (x & Hx & Htx)]. split.
    + rewrite Forall_forall. intros Ha. right. split; [done|]. simpl.
      rewrite Forall_forall in Hall.
      destruct (Ha x Hx) as [?|[_ <-]], (Hall x Hx) as [?|[_ <-]]; congruence.
    + intros [?|[_ Hb]]; [done|]. simpl in Hb. by subst b.
Qed.

(** [meet] folds the binary meet over the list. *)
Lemma meet_fold x l : meet (x :: l) = meet [x; meet l].
Proof.
  rewrite (meet_cons x l), (meet_cons x [meet l]). destruct (tag x).
  - by rewrite meet_meet.
  - destruct (decide (Forall (agrees (val x)) l)) as [Hl|Hl].
    + rewrite decide_True; [done|]. constructor; [by apply agrees_meet | done].
    + rewrite decide_False; [done|]. intros [Hm _]%Forall_cons. by apply Hl, agrees_meet.
  - done.
Qed.

Lemma meet_assoc a b c : meet [meet [a; b]; c] = meet [a; meet [b; c]].
Proof.
  destruct a as [[] pa], b as [[] pb], c as [[] pc]; unfold meet; simpl;
    repeat (case_decide; simpl); congruence.
Qed.

Lemma meet_app l1 l2 : meet (l1 ++ l2) = meet [meet l1; meet l2].
Proof.
  induction l1 as [|x l1 IH]; simpl.
  - change (meet []) with Top. rewrite (meet_cons Top). simpl. by rewrite meet_meet.
  - rewrite meet_fold, IH, (meet_fold x l1). by rewrite meet_assoc.
Qed.

(** C4.  [meet] of the empty list is Top; a cell with tag Top never changes
    the result; a cell with tag Bottom anywhere makes it Bottom; two Const
    cells give that Const when their pointers are equal and Bottom otherwise;
    the result depends only on the set of cells listed, hence not on their
    order or multiplicity; the binary meet it induces is commutative,
    associative and idempotent.  The meet of a list is the binary meet
    folded over it, so what holds of two cells holds of any number: a list
    without a Bottom cell whose Const cells hold one pointer gives that
    Const (Top when there is no Const cell), and a list with two Const
    cells that hold different pointers gives Bottom. *)
Theorem meet_algebra :
  meet [] = Top
  ∧ (∀ l1 l2 x, tag x = top → meet (l1 ++ x :: l2) = meet (l1 ++ l2))
  ∧ (∀ l x, x ∈ l → tag x = bottom → meet l = Bottom)
  ∧ (∀ a b, meet [Const a; Const b] = if decide (a = b) then Const a else Bottom)
  ∧ (∀ l l', l ≡ₚ l' → meet l = meet l')
  ∧ (∀ l l', (∀ x, x ∈ l ↔ x ∈ l') → meet l = meet l')
  ∧ (∀ a b, meet [a; b] = meet [b; a])
  ∧ (∀ a b c, meet [meet [a; b]; c] = meet [a; meet [b; c]])
  ∧ (∀ a b c, meet [meet [a; b]; c] = meet [a; b; c])
  ∧ (∀ a, meet [a; a] = meet [a])
  ∧ (∀ x, meet [x] = match tag x with
                      | top => Top | constant => Const (val x) | bottom => Bottom
                      end)
  ∧ (∀ x l, meet (x :: l) = meet [x; meet l])
  ∧ (∀ l1 l2, meet (l1 ++ l2) = meet [meet l1; meet l2])
  ∧ (∀ l, (∀ x, x ∈ l → tag x = top) → meet l = Top)
  ∧ (∀ l a, (∀ x, x ∈ l → tag x = top ∨ x = Const a) → Const a ∈ l → meet l = Const a)
  ∧ (∀ l a b, Const a ∈ l → Const b ∈ l → a ≠ b → meet l = Bottom).
Proof.
  split; [done|].
  split; [apply meet_skip_top|].
  split. { intros l x Hx Hb. apply meet_Bottom. left. eauto. }
  split. { intros a b. unfold meet; simpl. by repeat case_decide. }
  split. { intros l l' Hp. apply meet_set_ext. intros x. by rewrite Hp. }
  split; [apply meet_set_ext|].
  split. { intros a b. apply meet_set_ext. list_mem. }
  split; [apply meet_assoc|].
  split. { intros a b c. rewrite (meet_fold a [b; c]). apply meet_assoc. }
  split. { intros a. apply meet_set_ext. list_mem. }
  split. { intros x. rewrite meet_cons. by destruct (tag x). }
  split; [apply meet_fold|].
  split; [apply meet_app|].
  split. { intros l Hall. apply meet_Top. by apply Forall_forall. }
  split.
  { intros l a Hall Hin. apply meet_Const. split; [|by exists (Const a)].
    apply Forall_forall. intros x Hx. destruct (Hall x Hx) as [?| ->]; [by left | by right]. }
  intros l a b Ha Hb Hne. apply meet_Bottom. right. exists (Const a), (Const b).
  repeat split; done.
Qed.

(** ** propagate *)

Lemma index_Ok {A} (s : list A) (i : Z) (x : A) :
  index s i = Ok x ↔ 0 ≤ i ∧ s !! Z.to_nat i = Some x.
Proof.
  unfold index. case_decide.
  - rewrite orPanic_Ok. tauto.
  - split; [done | lia].
Qed.


(** [propagate] and [addUses] only append to the two worklists. *)
Lemma propagate_frame t b t' :
  propagate t b = Ok t' → ∃ es, t' = addEdges t es.
Proof.
  unfold propagate. intros (B & _ & H)%bind_Ok.
  assert (Hnone : t = addEdges t []).
  { destruct t; unfold addEdges, set_edges; simpl. by rewrite app_nil_r. }
  destruct (bKind B).
  - injection H as <-. eauto.
  - apply bind_Ok in H as (s & _ & [= <-]). eauto.
  - apply bind_Ok in H as (c & _ & H). destruct (tag (getLatticeCell t c)).
    + injection H as <-. eauto.
    + apply bind_Ok in H as (K & _ & (s & _ & [= <-])%bind_Ok). eauto.
    + injection H as <-. eauto.
  - injection H as <-. eauto.
  - injection H as <-. eauto.
  - injection H as <-. eauto.
  - injection H as <-. eauto.
  - apply bind_Ok in H as (c & _ & H). destruct (tag (getLatticeCell t c)).
    + injection H as <-. eauto.
    + apply bind_Ok in H as (K & _ & (s & _ & [= <-])%bind_Ok). eauto.
    + injection H as <-. eauto.
  - apply bind_Ok in H as (s & _ & [= <-]). eauto.
  - done.
Qed.

Lemma addEdges_addEdges t es es' :
  addEdges (addEdges t es) es' = addEdges t (es ++ es').
Proof. unfold addEdges, set_edges; simpl. by rewrite app_assoc. Qed.

Lemma range_propagate_frame bs t t' :
  range_loop propagate t bs = Ok t' → ∃ es, t' = addEdges t es.
Proof.
  revert t. induction bs as [|b bs IH]; intros t; simpl.
  - intros [= <-]. exists []. destruct t; unfold addEdges, set_edges; simpl.
    by rewrite app_nil_r.
  - intros (t1 & [es ->]%propagate_frame & [es' ->]%IH)%bind_Ok.
    rewrite addEdges_addEdges. eauto.
Qed.

Lemma addUses_frame t v t' :
  addUses t v = Ok t' →
  ∃ es, t' = addEdges (set_uses t (wl_uses t ++
            filter (λ use, v ≠ use) (default [] (wl_defUse t !! v)))) es.
Proof. unfold addUses. apply range_propagate_frame. Qed.


(** ** Division by zero *)


Lemma switch_other {A} (op : Op) (x y z : A) :
  op ≠ OpCopy → op ≠ OpPhi →
  match op with OpCopy => x | OpPhi => y | _ => z end = z.
Proof. by destruct op. Qed.

Lemma visitValue_switch_foldable rw t v V :
  Vals (wl_f t) !! v = Some V → isConstOp (vOp V) = false → isFoldable (vOp V) = true →
  visitValue_switch rw t v = visitBinary rw t v V.
Proof.
  intros HV Hc Hf. unfold visitValue_switch, getValue, isConst. rewrite HV; simpl.
  rewrite Hc. rewrite switch_other; [by rewrite Hf | |];
    intros Hop; rewrite Hop in Hf; done.
Qed.


(** ** The constant evaluator *)

Lemma insert_end {A} (l : list A) (x y : A) : <[length l := y]> (l ++ [x]) = l ++ [y].
Proof.
  replace (length l) with (length l + 0)%nat by lia. by rewrite insert_app_r.
Qed.

Lemma lookup_end {A} (l : list A) (x : A) : (l ++ [x]) !! length l = Some x.
Proof. by rewrite lookup_app_r, Nat.sub_diag by lia. Qed.

(** What a call of the evaluator does to the function: one node is added at
    the end of the heap and of the values of the entry block, and nothing
    else changes. *)
Lemma computeConstValue_Ok rw f v args f' n m :
  computeConstValue rw f v args = Ok (f', n, m) →
  n = length (Vals f) ∧
  ∃ P, f' = withProbe f P ∧ (m = true → isConst P = true).
Proof.
  unfold computeConstValue. intros (V & _ & H)%bind_Ok.
  unfold newValue in H. apply bind_Ok in H as (f2 & Hf2 & H).
  unfold AddArgs, getValue in Hf2; simpl in Hf2. rewrite lookup_end in Hf2; simpl in Hf2.
  apply bind_Ok in Hf2 as (as' & _ & [= <-]).
  unfold setValue, getValue in H; simpl in H.
  rewrite insert_end, lookup_end in H; simpl in H.
  destruct (rw _ _) as [P' matched]. rewrite insert_end in H.
  destruct matched, (isConst P') eqn:HP'; simpl in H; try done.
  all: injection H as <- <- <-; split; [done|]; exists P'; split; done.
Qed.

(** C3, amended.  Every invocation of the evaluator returns a node that did
    not exist before the call and leaves the existing nodes as they were;
    an invocation made later in the run, when the heap is at least as large
    as the first call left it, returns a different node.  Pointer equality
    between Const cells is therefore finer than equality of literals. *)
Theorem computeConstValue_fresh (rw : Func → Value → Value * bool)
    (f : Func) (v : ID) (args : list (option ID)) (f1 : Func) (n1 : ID) (m1 : bool)
    (Hcall : computeConstValue rw f v args = Ok (f1, n1, m1)) :
  Vals f !! n1 = None
  ∧ is_Some (Vals f1 !! n1)
  ∧ (∀ p V, Vals f !! p = Some V → Vals f1 !! p = Some V)
  ∧ (∀ f' v' args' f2 n2 m2,
       (length (Vals f1) ≤ length (Vals f'))%nat →
       computeConstValue rw f' v' args' = Ok (f2, n2, m2) →
       n1 ≠ n2).
Proof.
  apply computeConstValue_Ok in Hcall as (-> & P & -> & _); simpl.
  split; [by apply lookup_ge_None|].
  split; [rewrite lookup_end; eauto|].
  split; [intros p V Hp; by apply lookup_app_l_Some|].
  intros f' v' args' f2 n2 m2 Hlen (-> & _)%computeConstValue_Ok.
  rewrite length_app in Hlen; simpl in Hlen. lia.
Qed.

Lemma computeConstValue_fresh_witness :
  computeConstValue foldRules progS1 2 [Some 0%nat; Some 1%nat]
    = Ok (withProbe progS1 (mkValue OpConst32 0 12 [] 0 0 0), 3%nat, true)
  ∧ Vals progS1 !! 3%nat = None.
Proof.
  split; [reflexivity|].
  apply (computeConstValue_fresh foldRules progS1 2 [Some 0%nat; Some 1%nat]
           (withProbe progS1 (mkValue OpConst32 0 12 [] 0 0 0)) 3%nat true).
  reflexivity.
Defined.

(** C3, as stated, fails: evaluating [Add32 5 7] twice gives the nodes 3
    and 4, both [Const32 12]. *)
Lemma foldRules_not_canonicalizing : ¬ canonicalizing foldRules.
Proof.
  intros Hcanon.
  set (f1 := withProbe progS1 (mkValue OpConst32 0 12 [] 0 0 0)).
  set (f2 := withProbe f1 (mkValue OpConst32 0 12 [] 0 0 0)).
  assert (H : 3%nat = 4%nat); [|done].
  by apply (Hcanon progS1 2%nat [Some 0%nat; Some 1%nat] f1 3%nat
                   2%nat [Some 0%nat; Some 1%nat] f2 4%nat
                   (mkValue OpConst32 0 12 [] 0 0 0) (mkValue OpConst32 0 12 [] 0 0 0)).
Qed.


(** ** Cells that are raised *)

(** C1 fails on the code.  In [progS1'] the sum [z] is listed before its
    operands: it is visited while they are Top, gets Bottom, and is then
    raised to Const when the operands wake it up.  In [progS1], where the
    operands come first, [z] is re-evaluated once per operand and each
    evaluation installs a new probe: three transitions. *)
Theorem sccp_cell_history :
  cellHistory foldRules progS1' 2 6 =
    [Some Top; Some Bottom; Some Bottom;
     Some (Const (Some 3%nat)); Some (Const (Some 4%nat)); Some (Const (Some 4%nat))]
  ∧ cellHistory foldRules progS1 2 6 =
    [Some Top; Some (Const (Some 3%nat)); Some (Const (Some 3%nat));
     Some (Const (Some 4%nat)); Some (Const (Some 5%nat)); Some (Const (Some 5%nat))]
  ∧ (∃ t, sccp_solve foldRules 6 progS1' = Some (Ok t))
  ∧ (∃ t, sccp_solve foldRules 6 progS1 = Some (Ok t)).
Proof. repeat split; try (by vm_compute); eexists; by vm_compute. Qed.

(** ** buildDefUses *)

Lemma lookup_appendAt {A} (m : gmap ID (list A)) k x j :
  appendAt m k x !! j =
    if decide (k = j) then Some (default [] (m !! k) ++ [x]) else m !! j.
Proof. unfold appendAt. by rewrite lookup_insert. Qed.

Lemma lookup_collect {A} (pairs : list (ID * A)) (m : gmap ID (list A)) (k : ID) :
  collect pairs m !! k =
    if decide ((filter (λ p, p.1 = k) pairs).*2 = [])
    then m !! k
    else Some (default [] (m !! k) ++ (filter (λ p, p.1 = k) pairs).*2).
Proof.
  revert m. induction pairs as [|[k' x] ps IH]; intros m; [done|].
  change (collect ((k', x) :: ps) m) with (collect ps (appendAt m k' x)).
  rewrite IH, lookup_appendAt, filter_cons; simpl.
  destruct (decide (k' = k)) as [->|Hne]; simpl.
  - change (list_fmap _ _ snd ?l) with (l.*2).
    case_decide as Hnil.
    + by rewrite Hnil.
    + by rewrite <- app_assoc.
  - done.
Qed.

Lemma collect_app {A} (p1 p2 : list (ID * A)) m :
  collect (p1 ++ p2) m = collect p2 (collect p1 m).
Proof. apply foldl_app. Qed.

Lemma buildDefUses_value_Ok f du v :
  is_Some (Vals f !! v) →
  buildDefUses_value f du v = Ok (collect (valueArgPairs f v) du).
Proof.
  intros [V HV]. unfold buildDefUses_value, getValue, valueArgPairs. rewrite HV; simpl.
  f_equal. unfold collect. generalize (vArgs V) du.
  induction l as [|a l IH]; intros m; simpl; [done | apply IH].
Qed.

Lemma buildDefUses_values_Ok f du vs :
  (∀ v, v ∈ vs → is_Some (Vals f !! v)) →
  range_loop (buildDefUses_value f) du vs = Ok (collect (vs ≫= valueArgPairs f) du).
Proof.
  revert du. induction vs as [|v vs IH]; intros du Hvs; [done|].
  cbn [range_loop]. rewrite buildDefUses_value_Ok by (apply Hvs; by left). simpl.
  rewrite IH by (intros; apply Hvs; by right).
  by rewrite collect_app.
Qed.

Lemma buildDefUses_block_Ok f ib du db :
  (∀ v, v ∈ bValues ib.2 → is_Some (Vals f !! v)) →
  buildDefUses_block f (du, db) ib =
    Ok (collect (blockArgPairs f ib) du, collect (blockCtlPairs ib) db).
Proof.
  intros Hvs. unfold buildDefUses_block; simpl.
  rewrite buildDefUses_values_Ok by done. simpl. do 2 f_equal.
  unfold blockCtlPairs, collect. generalize (bControls ib.2) db.
  induction l as [|c l IHl]; intros m; simpl; [done | apply IHl].
Qed.

Lemma buildDefUses_blocks_Ok f ibs du db :
  (∀ ib v, ib ∈ ibs → v ∈ bValues ib.2 → is_Some (Vals f !! v)) →
  range_loop (buildDefUses_block f) (du, db) ibs =
    Ok (collect (ibs ≫= blockArgPairs f) du, collect (ibs ≫= blockCtlPairs) db).
Proof.
  revert du db. induction ibs as [|ib ibs IH]; intros du db Hvs; [done|].
  cbn [range_loop].
  rewrite buildDefUses_block_Ok by (intros; eapply Hvs; [by left | done]). simpl.
  rewrite IH by (intros; eapply Hvs; [by right | done]).
  by rewrite !collect_app.
Qed.

Lemma verifyDefUse_step f db kv K u :
  Vals f !! kv.1 = Some K →
  verifyDefUse f db u kv =
    if decide (vUses K ≠ Z.of_nat (length kv.2)
                 + Z.of_nat (length (default [] (db !! kv.1))))
    then Abort (FatalDefUse f kv.1) else Ok ().
Proof. intros HK. unfold verifyDefUse, getValue. by rewrite HK. Qed.

Lemma verifyDefUse_loop f db l :
  (∀ kv, kv ∈ l → is_Some (Vals f !! kv.1)) →
  (Forall (entryOk f db) l ∧ range_loop (verifyDefUse f db) () l = Ok ())
  ∨ (∃ kv, kv ∈ l ∧ ¬ entryOk f db kv ∧
       range_loop (verifyDefUse f db) () l = Abort (FatalDefUse f kv.1)).
Proof.
  induction l as [|kv l IH]; intros Hkeys; [left; by split|].
  destruct (Hkeys kv) as [K HK]; [by left|].
  cbn [range_loop]. rewrite (verifyDefUse_step f db kv K () HK).
  case_decide as Hbad.
  - right. exists kv. split; [by left|]. split; [|done].
    intros (K' & HK' & Huses). congruence.
  - simpl. destruct IH as [[Hall Hok]|(kv' & Hin & Hnok & Hab)].
    + intros; apply Hkeys; by right.
    + left. split; [|done]. constructor; [|done]. exists K. split; [done|].
      destruct (decide (vUses K = Z.of_nat (length kv.2)
                  + Z.of_nat (length (default [] (db !! kv.1))))); tauto.
    + right. exists kv'. split; [by right | done].
Qed.

Lemma lookup_collect_empty {A} (pairs : list (ID * A)) (k : ID) :
  default [] (collect pairs ∅ !! k) = (filter (λ p, p.1 = k) pairs).*2
  ∧ (is_Some (collect pairs ∅ !! k) ↔ (filter (λ p, p.1 = k) pairs).*2 ≠ []).
Proof.
  rewrite lookup_collect, lookup_empty. case_decide as Hnil; simpl.
  - rewrite Hnil. split; [done|]. split; [by intros [] | done].
  - split; [done|]. split; [done | eauto].
Qed.

Lemma buildDefUses_init f :
  (∀ B v, B ∈ Blocks f → v ∈ bValues B → is_Some (Vals f !! v)) →
  buildDefUses (init f) =
    (_ ← range_loop (verifyDefUse f (defBlockOf f)) () (map_to_list (defUseOf f));
     mret (set_defs (init f) (defUseOf f) (defBlockOf f))).
Proof.
  intros Hvals. unfold buildDefUses. simpl.
  rewrite buildDefUses_blocks_Ok; [done|].
  intros ib v (i & B & -> & HB)%elem_of_lookup_imap Hv.
  eapply Hvals; [|done]. by eapply list_elem_of_lookup_2.
Qed.

Lemma buildDefUses_Ok_inv t t' :
  buildDefUses t = Ok t' →
  ∃ du db, t' = set_defs t du db ∧
    range_loop (buildDefUses_block (wl_f t)) (wl_defUse t, wl_defBlock t)
      (imap pair (Blocks (wl_f t))) = Ok (du, db).
Proof.
  unfold buildDefUses. intros ([du db] & Hloop & H)%bind_Ok.
  apply bind_Ok in H as (_ & _ & [= <-]). eauto.
Qed.

Lemma usersOf_nonempty f a : usersOf f a ≠ [] ↔ ∃ v, (a, v) ∈ argPairs f.
Proof.
  unfold usersOf. split.
  - destruct (filter _ _) as [|[a' v] l] eqn:Hf; [done|]. intros _.
    assert (Hin : (a', v) ∈ filter (λ p, p.1 = a) (argPairs f)) by (rewrite Hf; by left).
    apply list_elem_of_filter in Hin as [Ha Hin]. simpl in Ha. subst. eauto.
  - intros [v Hin] Hnil.
    assert (Hin' : (a, v) ∈ filter (λ p, p.1 = a) (argPairs f))
      by (by apply list_elem_of_filter).
    destruct (filter _ _); [by apply elem_of_nil in Hin' | done].
Qed.

(** C10, amended.  On a function whose blocks list existing values with
    existing arguments, [buildDefUses] records for every value its users and
    the blocks it controls, and checks the use count of exactly the values
    that occur as an argument of some listed value; it completes normally if
    and only if none of those has a mismatched count, and otherwise aborts
    with the fatal error, the function having been printed. *)
Theorem buildDefUses_verifies (f : Func)
    (Hvals : ∀ B v, B ∈ Blocks f → v ∈ bValues B → is_Some (Vals f !! v))
    (Hargs : ∀ a v, (a, v) ∈ argPairs f → is_Some (Vals f !! a)) :
  ((∃ t, buildDefUses (init f) = Ok t) ↔ (∀ a, usersOf f a ≠ [] → useCountOk f a))
  ∧ (∀ t, buildDefUses (init f) = Ok t →
       ∀ a, default [] (wl_defUse t !! a) = usersOf f a
          ∧ default [] (wl_defBlock t !! a) = ctlBlocksOf f a)
  ∧ (∀ e, buildDefUses (init f) = Abort e →
       ∃ key, e = FatalDefUse f key ∧ usersOf f key ≠ [] ∧ ¬ useCountOk f key).
Proof.
  rewrite (buildDefUses_init f Hvals).
  assert (Hentry : ∀ kv, kv ∈ map_to_list (defUseOf f) →
            kv.2 = usersOf f kv.1 ∧ usersOf f kv.1 ≠ []).
  { intros [a l] Hin%elem_of_map_to_list. simpl.
    destruct (lookup_collect_empty (argPairs f) a) as [Hd Hs].
    fold (defUseOf f) in Hd, Hs. rewrite Hin in Hd. simpl in Hd. split; [done|].
    apply Hs. eauto. }
  assert (Hok : ∀ kv, kv ∈ map_to_list (defUseOf f) →
            entryOk f (defBlockOf f) kv ↔ useCountOk f kv.1).
  { intros kv [Hl _]%Hentry. unfold entryOk, useCountOk.
    rewrite Hl. unfold defBlockOf.
    by rewrite (proj1 (lookup_collect_empty (ctlPairs f) kv.1)). }
  assert (Hkeys : ∀ kv, kv ∈ map_to_list (defUseOf f) → is_Some (Vals f !! kv.1)).
  { intros kv [_ Hne]%Hentry. apply usersOf_nonempty in Hne as [v Hv]. eauto. }
  destruct (verifyDefUse_loop f (defBlockOf f) _ Hkeys)
    as [[Hall ->]|(kv & Hin & Hnok & ->)]; simpl.
  - split; [|split].
    + split; [|eauto]. intros _ a Hne.
      destruct (lookup_collect_empty (argPairs f) a) as [Hd Hs].
      fold (defUseOf f) in Hd, Hs. apply Hs in Hne as [l Hl].
      rewrite Forall_forall in Hall.
      apply (Hok (a, l)); [|apply Hall]; by apply elem_of_map_to_list.
    + intros t [= <-] a. simpl. split.
      * apply lookup_collect_empty.
      * apply lookup_collect_empty.
    + done.
  - split; [|split].
    + split; [by intros [t ?]|]. intros Hall. exfalso. apply Hnok.
      apply Hok; [done|]. apply Hall. by apply Hentry.
    + done.
    + intros e [= <-]. exists kv.1. split; [done|]. split; [by apply Hentry|].
      by rewrite <- Hok.
Qed.

Lemma buildDefUses_verifies_witness : ∃ t, buildDefUses (init progIf) = Ok t.
Proof.
  refine (proj2 (proj1 (buildDefUses_verifies progIf _ _)) _).
  - intros B v HB Hv. apply list_elem_of_In in HB, Hv. simpl in HB.
    destruct HB as [<-|[<-|[<-|[]]]]; simpl in Hv;
      repeat (destruct Hv as [<-|Hv]; [eexists; reflexivity|]); destruct Hv.
  - intros a v Hin. apply list_elem_of_In in Hin. vm_compute in Hin.
    repeat (destruct Hin as [[= <- <-]|Hin]; [eexists; reflexivity|]); destruct Hin.
  - intros a Hne. apply usersOf_nonempty in Hne as [v Hin].
    apply list_elem_of_In in Hin. vm_compute in Hin.
    repeat (destruct Hin as [[= <- <-]|Hin];
            [eexists; split; [reflexivity | by vm_compute]|]); destruct Hin.
Defined.

(** C10 as stated fails: in [progStale] the value [c] has a use count of 7
    and one use, as the control value of [b0]; it is the argument of no
    value, no entry of [defUse] has it as key, and the build completes. *)
Lemma progStale_not_checked : ¬ checksEveryValue progStale.
Proof.
  intros [Hcheck _].
  assert (Hok : ∃ t, buildDefUses (init progStale) = Ok t) by (eexists; by vm_compute).
  destruct (Hcheck Hok
              (mkBlock BlockIf [1; 2]%nat [] [0; 1; 2; 3]%nat [2%nat] BranchUnknown) 2%nat)
    as (A & HA & Huses).
  { by left. }
  { simpl. apply list_elem_of_In. simpl. tauto. }
  vm_compute in HA. injection HA as <-. vm_compute in Huses. done.
Qed.

(** ** replaceConst *)

Lemma set_Args_id V : set_Args V (vArgs V) = V.
Proof. by destruct V. Qed.

Lemma set_Uses_id V : set_Uses V (vUses V) = V.
Proof. by destruct V. Qed.

Lemma valsRel_refl f : valsRel f f.
Proof.
  split; [done|]. intros p V HV. exists (vArgs V), (vUses V).
  by rewrite set_Args_id, set_Uses_id.
Qed.

Lemma valsRel_trans f1 f2 f3 : valsRel f1 f2 → valsRel f2 f3 → valsRel f1 f3.
Proof.
  intros [Hl12 H12] [Hl23 H23]. split; [congruence|]. intros p V HV.
  destruct (H12 p V HV) as (a1 & u1 & H1 & Hs1 & Hn1).
  destruct (H23 p _ H1) as (a2 & u2 & H2 & Hs2 & Hn2).
  exists a2, u2. split; [exact H2|]. split; [by etrans|].
  intros Hphi. rewrite Hn2 by done. simpl. auto.
Qed.

(** A value that differs from its original in removed arguments and in
    its use count still does after a further step of that kind. *)
Lemma valsRel_step f f' p V a u :
  valsRel f f' → Vals f !! p = Some (set_Uses (set_Args V a) u) →
  ∃ a' u', Vals f' !! p = Some (set_Uses (set_Args V a') u')
    ∧ sublist a' a ∧ (isPhi V = false → a' = a).
Proof.
  intros [_ Hrel] Hp. destruct (Hrel p _ Hp) as (a' & u' & Hp' & Hs & Hn).
  exists a', u'. split; [exact Hp'|]. split; [exact Hs | exact Hn].
Qed.

Lemma coreEq_refl B : coreEq B B.
Proof. by repeat split. Qed.

Lemma coreEq_trans B1 B2 B3 : coreEq B1 B2 → coreEq B2 B3 → coreEq B1 B3.
Proof. unfold coreEq. intros (-> & -> & -> & -> & ->) (-> & -> & -> & -> & ->). done. Qed.

Lemma lookup_setValue f p V q :
  is_Some (Vals f !! p) →
  Vals (setValue f p V) !! q = if decide (p = q) then Some V else Vals f !! q.
Proof.
  intros Hp%lookup_lt_is_Some. unfold setValue; simpl. case_decide as Hpq.
  - subst. by apply list_lookup_insert_eq.
  - by apply list_lookup_insert_ne.
Qed.

Lemma lookup_setBlock f p B q :
  is_Some (Blocks f !! p) →
  Blocks (setBlock f p B) !! q = if decide (p = q) then Some B else Blocks f !! q.
Proof.
  intros Hp%lookup_lt_is_Some. unfold setBlock; simpl. case_decide as Hpq.
  - subst. by apply list_lookup_insert_eq.
  - by apply list_lookup_insert_ne.
Qed.

(** Writing fewer arguments or another use count into one value. *)
Lemma setValue_valsRel f p V a u :
  Vals f !! p = Some V → sublist a (vArgs V) → (isPhi V = false → a = vArgs V) →
  valsRel f (setValue f p (set_Uses (set_Args V a) u)).
Proof.
  intros HV Hs Hn. split; [apply length_insert|]. intros q W HW.
  rewrite lookup_setValue by eauto. case_decide as Hq.
  - subst q. rewrite HV in HW. injection HW as <-. by exists a, u.
  - exists (vArgs W), (vUses W). by rewrite set_Args_id, set_Uses_id.
Qed.

Lemma decUses_frame f a f' :
  decUses f a = Ok f' → Blocks f' = Blocks f ∧ Entry f' = Entry f ∧ valsRel f f'.
Proof.
  unfold decUses. intros (A & HA%orPanic_Ok & [= <-])%bind_Ok.
  do 2 (split; [done|]).
  rewrite <- (set_Args_id A) at 1. by apply setValue_valsRel.
Qed.

Lemma range_decUses_frame l f f' :
  range_loop decUses f l = Ok f' → Blocks f' = Blocks f ∧ Entry f' = Entry f ∧ valsRel f f'.
Proof.
  revert f. induction l as [|a l IH]; intros f; simpl.
  - intros [= <-]. do 2 (split; [done|]). apply valsRel_refl.
  - intros (f1 & (Hb1 & He1 & Hv1)%decUses_frame & (Hb2 & He2 & Hv2)%IH)%bind_Ok.
    split; [congruence|]. split; [congruence|]. by eapply valsRel_trans.
Qed.

(** [reset]: the former arguments lose uses, then the fields of the value
    are written. *)
Lemma reset_Ok f v op f' :
  reset f v op = Ok f' →
  ∃ fm Vm, Blocks fm = Blocks f ∧ Entry fm = Entry f ∧ valsRel f fm
    ∧ Vals fm !! v = Some Vm ∧ f' = setValue fm v (resetFields Vm op).
Proof.
  unfold reset. intros (V & _ & H)%bind_Ok.
  apply bind_Ok in H as (fm & (Hb & He & Hv)%range_decUses_frame & H).
  apply bind_Ok in H as (Vm & HVm%orPanic_Ok & [= <-]).
  by exists fm, Vm.
Qed.

Lemma removePhiArg_frame j f v f' :
  removePhiArg j f v = Ok f' → Blocks f' = Blocks f ∧ Entry f' = Entry f ∧ valsRel f f'.
Proof.
  unfold removePhiArg. intros (V & HV%orPanic_Ok & H)%bind_Ok.
  destruct (isPhi V) eqn:Hphi;
    [|injection H as <-; do 2 (split; [done|]); apply valsRel_refl].
  destruct (vArgs V !! j) as [a|];
    [|injection H as <-; do 2 (split; [done|]); apply valsRel_refl].
  apply bind_Ok in H as (f1 & (Hb1 & He1 & Hv1)%decUses_frame & H).
  apply bind_Ok in H as (V1 & HV1%orPanic_Ok & [= <-]).
  do 2 (split; [done|]). eapply valsRel_trans; [exact Hv1|].
  rewrite <- (set_Uses_id (set_Args V1 _)).
  apply setValue_valsRel; [done | apply sublist_delete |].
  intros Hn. destruct Hv1 as [_ Hv1]. destruct (Hv1 v V HV) as (a1 & u1 & HV1' & _).
  rewrite HV1 in HV1'. injection HV1' as ->. change (isPhi V = false) in Hn. congruence.
Qed.

Lemma removePhiArgs_frame j vs f f' :
  range_loop (removePhiArg j) f vs = Ok f' →
  Blocks f' = Blocks f ∧ Entry f' = Entry f ∧ valsRel f f'.
Proof.
  revert f. induction vs as [|v vs IH]; intros f; simpl.
  - intros [= <-]. do 2 (split; [done|]). apply valsRel_refl.
  - intros (f1 & (Hb1 & He1 & Hv1)%removePhiArg_frame & (Hb2 & He2 & Hv2)%IH)%bind_Ok.
    split; [congruence|]. split; [congruence|]. by eapply valsRel_trans.
Qed.

(** What [removeEdge] leaves alone: all of every block but its
    predecessors, and the successors of every block but [b]. *)
Lemma removeEdge_frame f b i f' :
  removeEdge f b i = Ok f' →
  valsRel f f' ∧
  ∀ b' B', Blocks f !! b' = Some B' →
    ∃ B'', Blocks f' !! b' = Some B'' ∧
      bKind B'' = bKind B' ∧ bControls B'' = bControls B'
      ∧ bLikely B'' = bLikely B' ∧ bValues B'' = bValues B'
      ∧ bSuccs B'' = if decide (b' = b) then delete (Z.to_nat i) (bSuccs B') else bSuccs B'.
Proof.
  unfold removeEdge. intros (B & HB%orPanic_Ok & H)%bind_Ok.
  apply bind_Ok in H as (c & _ & H).
  apply bind_Ok in H as (C & HC%orPanic_Ok & H).
  apply bind_Ok in H as (j & _ & H).
  apply removePhiArgs_frame in H as (Hblocks & _ & Hvals).
  split; [exact Hvals|].
  - intros b' B' HB'. rewrite Hblocks.
    rewrite lookup_setBlock in HC by eauto.
    rewrite lookup_setBlock by (rewrite lookup_setBlock by eauto; case_decide; eauto).
    rewrite lookup_setBlock by eauto.
    destruct (decide (c = b')) as [->|Hc].
    + destruct (decide (b = b')) as [->|Hb].
      * injection HC as <-. rewrite HB in HB'. injection HB' as <-.
        eexists. split; [done|]. simpl. by rewrite decide_True.
      * rewrite HC in HB'. injection HB' as <-.
        eexists. split; [done|]. simpl. by rewrite decide_False by done.
    + destruct (decide (b = b')) as [->|Hb].
      * rewrite HB in HB'. injection HB' as <-.
        eexists. split; [done|]. simpl. by rewrite decide_True.
      * eexists. split; [done|]. by rewrite decide_False by done.
Qed.

Lemma resetToPlain_frame f b f' :
  resetToPlain f b = Ok f' →
  valsRel f f' ∧ Entry f' = Entry f ∧ length (Blocks f') = length (Blocks f) ∧
  ∀ b' B', Blocks f !! b' = Some B' →
    ∃ B'', Blocks f' !! b' = Some B'' ∧ bValues B'' = bValues B' ∧ bSuccs B'' = bSuccs B'
      ∧ bPreds B'' = bPreds B' ∧
      if decide (b' = b)
      then bKind B'' = BlockPlain ∧ bControls B'' = [] ∧ bLikely B'' = BranchUnknown
      else B'' = B'.
Proof.
  unfold resetToPlain, ResetControls. intros (B & HB%orPanic_Ok & H)%bind_Ok.
  apply bind_Ok in H as (B0 & HB0%orPanic_Ok & H).
  rewrite lookup_setBlock, decide_True in HB0 by eauto. injection HB0 as <-.
  apply bind_Ok in H as (f1 & (Hb1 & He1 & Hv1)%range_decUses_frame & H).
  apply bind_Ok in H as (B1 & HB1%orPanic_Ok & [= <-]).
  rewrite Hb1, lookup_setBlock, decide_True in HB1 by eauto. injection HB1 as <-.
  split; [exact Hv1|]. split; [exact He1|].
  split; [unfold setBlock; simpl; rewrite length_insert, Hb1; simpl; apply length_insert|].
  intros b' B' HB'.
  rewrite lookup_setBlock by (rewrite Hb1, lookup_setBlock, decide_True by eauto; eauto).
  rewrite Hb1, lookup_setBlock by eauto.
  destruct (decide (b = b')) as [->|Hb].
  - rewrite HB in HB'. injection HB' as <-. eexists. split; [done|].
    by rewrite decide_True.
  - exists B'. by rewrite decide_False by done.
Qed.

(** One turn of the rewiring loop: a JumpTable block is left alone; an If
    block loses the successor at [k.AuxInt] and becomes Plain. *)
Lemma rewire_frame k f rc b f' rc' :
  rewire k (f, rc) b = Ok (f', rc') →
  valsRel f f' ∧
  ∃ B, Blocks f !! b = Some B ∧
    ((bKind B = BlockJumpTable ∧ f' = f ∧ rc' = rc)
     ∨ (bKind B = BlockIf ∧ rc' = rc + 1 ∧ ∃ K, Vals f !! k = Some K ∧
        ∀ b' B', Blocks f !! b' = Some B' →
          ∃ B'', Blocks f' !! b' = Some B'' ∧
            if decide (b' = b) then rewiredTo (Z.to_nat (vAuxInt K)) B' B''
            else coreEq B'' B')).
Proof.
  unfold rewire; simpl. intros (B & HB%orPanic_Ok & H)%bind_Ok.
  destruct (bKind B) eqn:Hkind; try done.
  - apply bind_Ok in H as (K & HK%orPanic_Ok & H).
    apply bind_Ok in H as (f1 & [Hv1 Hb1]%removeEdge_frame & H).
    apply bind_Ok in H as (f2 & (Hv2 & _ & _ & Hb2)%resetToPlain_frame & [= <- <-]).
    split; [by eapply valsRel_trans|].
    exists B. split; [done|]. right. split; [done|]. split; [done|].
    exists K. split; [done|]. intros b' B' HB'.
    destruct (Hb1 b' B' HB') as (B1 & HB1 & Hk1 & Hc1 & Hl1 & Hvs1 & Hs1).
    destruct (Hb2 b' B1 HB1) as (B2 & HB2 & Hvs2 & Hs2 & _ & Hrest).
    exists B2. split; [done|]. destruct (decide (b' = b)) as [->|Hne].
    + destruct Hrest as (? & ? & ?). unfold rewiredTo. repeat split; congruence.
    + subst B2. unfold coreEq. repeat split; congruence.
  - injection H as <- <-. split; [apply valsRel_refl|]. exists B. split; [done|]. by left.
Qed.

Lemma rewiredTo_coreEq i B0 B B' : rewiredTo i B0 B → coreEq B' B → rewiredTo i B0 B'.
Proof.
  unfold rewiredTo, coreEq. intros (? & ? & ? & ? & ?) (? & ? & ? & ? & ?).
  repeat split; congruence.
Qed.

Lemma rewire_loop f0 k bs f rc f' rc' :
  range_loop (rewire k) (f, rc) bs = Ok (f', rc') →
  (∀ b B0, Blocks f0 !! b = Some B0 →
     ∃ B, Blocks f !! b = Some B ∧ (bKind B ≠ BlockPlain → coreEq B B0)) →
  valsRel f f'
  ∧ (∀ b B0, Blocks f0 !! b = Some B0 →
       ∃ B, Blocks f' !! b = Some B ∧ (bKind B ≠ BlockPlain → coreEq B B0))
  ∧ (∀ b B0 B i, Blocks f !! b = Some B → rewiredTo i B0 B →
       ∃ B', Blocks f' !! b = Some B' ∧ rewiredTo i B0 B')
  ∧ (∀ K b B0, Vals f !! k = Some K → b ∈ bs → Blocks f0 !! b = Some B0 →
       bKind B0 = BlockIf →
       ∃ B', Blocks f' !! b = Some B' ∧ rewiredTo (Z.to_nat (vAuxInt K)) B0 B').
Proof.
  revert f rc. induction bs as [|b bs IH]; intros f rc Hloop Hcore.
  - injection Hloop as <- <-. split; [apply valsRel_refl|]. split; [done|].
    split; [eauto|]. intros K b B0 _ Hb. by apply elem_of_nil in Hb.
  - cbn [range_loop] in Hloop.
    apply bind_Ok in Hloop as ([f1 rc1] & Hstep & Hloop).
    apply rewire_frame in Hstep as (Hv1 & B & HB & Hcase).
    (* the state after this turn *)
    assert (Hcore1 : ∀ b' B0, Blocks f0 !! b' = Some B0 →
              ∃ B1, Blocks f1 !! b' = Some B1 ∧ (bKind B1 ≠ BlockPlain → coreEq B1 B0)).
    { intros b' B0 HB0. destruct (Hcore b' B0 HB0) as (B' & HB' & Hc).
      destruct Hcase as [(_ & -> & _)|(_ & _ & K & _ & Hblocks)]; [eauto|].
      destruct (Hblocks b' B' HB') as (B1 & HB1 & Hrel). exists B1. split; [done|].
      destruct (decide (b' = b)) as [->|Hne].
      - destruct Hrel as (Hk & _). congruence.
      - intros Hnp. eapply coreEq_trans; [done|]. apply Hc.
        destruct Hrel as (Hk & _). congruence. }
    assert (Hkeep1 : ∀ b' B0 B' i, Blocks f !! b' = Some B' → rewiredTo i B0 B' →
              ∃ B1, Blocks f1 !! b' = Some B1 ∧ rewiredTo i B0 B1).
    { intros b' B0 B' i HB' Hrw.
      destruct Hcase as [(_ & -> & _)|(Hkind & _ & K & _ & Hblocks)]; [eauto|].
      destruct (Hblocks b' B' HB') as (B1 & HB1 & Hrel). exists B1. split; [done|].
      destruct (decide (b' = b)) as [->|Hne].
      - rewrite HB in HB'. injection HB' as <-. destruct Hrw as (Hk & _). congruence.
      - by eapply rewiredTo_coreEq. }
    destruct (IH f1 rc1 Hloop Hcore1) as (Hv2 & Hcore2 & Hkeep2 & Hnew2).
    split; [by eapply valsRel_trans|]. split; [done|]. split.
    { intros b' B0 B' i HB' Hrw.
      destruct (Hkeep1 b' B0 B' i HB' Hrw) as (B1 & HB1 & Hrw1). eauto. }
    intros K b' B0 HK Hin HB0 Hif.
    destruct (proj2 Hv1 k K HK) as (a & u & HK1 & _).
    apply elem_of_cons in Hin as [->|Hin]; [|by apply (Hnew2 _ b' B0 HK1)].
    destruct (Hcore b B0 HB0) as (B' & HB' & Hc).
    rewrite HB in HB'. injection HB' as <-.
    destruct Hcase as [(Hkind & _)|(Hkind & _ & K' & HK' & Hblocks)].
    { destruct Hc as (Hk & _); congruence. }
    rewrite HK in HK'. injection HK' as <-.
    destruct (Hblocks b B HB) as (B1 & HB1 & Hrel).
    rewrite decide_True in Hrel by done.
    apply (Hkeep2 b B0 B1 _ HB1).
    destruct Hc as (_ & Hs & _ & _ & Hvs); [congruence|].
    destruct Hrel as (? & ? & ? & ? & ?). unfold rewiredTo. repeat split; congruence.
Qed.

Lemma isPhi_finalForm V K : isConst K = true → isPhi (finalForm V K) = false.
Proof. unfold isConst, isPhi, finalForm; simpl. by destruct (vOp K). Qed.

Lemma isConst_not_phi V : isConst V = true → isPhi V = false.
Proof. unfold isConst, isPhi. by destruct (vOp V). Qed.

Lemma rcInv_init t : rcInv t [] (wl_f t).
Proof.
  split; [done|]. split; [|split].
  - intros p V0 HV0. split.
    + intros lt k K Hin. by apply elem_of_nil in Hin.
    + intros _. exists (vArgs V0), (vUses V0). by rewrite set_Args_id, set_Uses_id.
  - intros b B0 HB0. exists B0. split; [done|]. intros _. apply coreEq_refl.
  - intros v lt V0 k K b B0 Hin. by apply elem_of_nil in Hin.
Qed.

(** A turn of the outer loop that resets nothing. *)
Lemma rcInv_skip t done vl f :
  rcInv t done f →
  (∀ V0, tag vl.2 = constant → Vals (wl_f t) !! vl.1 = Some V0 → isConst V0 = true) →
  rcInv t (done ++ [vl]) f.
Proof.
  intros (Hlen & Hvals & Hcore & Hrw) Hskip.
  split; [done|]. split; [|split; [done|]].
  - intros p V0 HV0. destruct (Hvals p V0 HV0) as [Hfin Hsame]. split.
    + intros lt k K [Hin|Hin%list_elem_of_singleton]%elem_of_app Htag Hnc; [by eapply Hfin|].
      subst vl. simpl in Hskip. rewrite (Hskip V0 Htag HV0) in Hnc. done.
    + intros Hall. apply Hsame. intros lt Hin. apply Hall, elem_of_app. by left.
  - intros v lt V0 k K b B0 [Hin|Hin%list_elem_of_singleton]%elem_of_app Htag HV0 Hnc;
      [by eapply Hrw|].
    subst vl. simpl in Hskip. rewrite (Hskip V0 Htag HV0) in Hnc. done.
Qed.

Lemma replaceConst_cell_step t done v lt f cc rc f' cc' rc' :
  cellsLiteral t →
  (∀ p lt', (p, lt') ∈ done ++ [(v, lt)] → wl_latticeCells t !! p = Some lt') →
  (∀ lt', (v, lt') ∉ done) →
  rcInv t done f →
  replaceConst_cell t (f, cc, rc) (v, lt) = Ok (f', cc', rc') →
  rcInv t (done ++ [(v, lt)]) f'.
Proof.
  intros Hlit Hcells Hfresh Hinv Hstep.
  unfold replaceConst_cell in Hstep; simpl in Hstep.
  case_bool_decide as Htag; [|injection Hstep as <- <- <-; apply rcInv_skip; [done|]; by intros].
  apply bind_Ok in Hstep as (Vc & HVc%orPanic_Ok & Hstep).
  pose proof Hinv as (Hlen & Hvals & Hcore & Hrw).
  assert (is_Some (Vals (wl_f t) !! v)) as [V0 HV0].
  { apply lookup_lt_is_Some. rewrite <- Hlen. apply lookup_lt_is_Some. eauto. }
  destruct (Hvals v V0 HV0) as [_ Hsame].
  destruct Hsame as (a & u & HVc' & _ & _); [intros lt' Hin; by destruct (Hfresh lt')|].
  rewrite HVc in HVc'. injection HVc' as ->.
  assert (Hc : isConst (set_Uses (set_Args V0 a) u) = isConst V0) by done. rewrite Hc in Hstep.
  destruct (isConst V0) eqn:HcV0; simpl in Hstep.
  { injection Hstep as <- <- <-. apply rcInv_skip; [done|]. simpl. intros V0' _ HV0'.
    congruence. }
  destruct (Hlit v lt) as (k & K0 & Hk & HK0 & HKlit); [|done|].
  { apply Hcells, elem_of_app. right. by apply list_elem_of_singleton. }
  rewrite Hk in Hstep; simpl in Hstep.
  assert (Hkv : v ≠ k) by (intros ->; congruence).
  destruct (Hvals k K0 HK0) as [_ HsameK].
  destruct HsameK as (ak & uk & HKc & _ & _); [intros; done|].
  apply bind_Ok in Hstep as (Kc & HKc1%orPanic_Ok & Hstep).
  rewrite HKc in HKc1. injection HKc1 as <-.
  apply bind_Ok in Hstep as (f1 & Hreset & Hstep).
  apply reset_Ok in Hreset as (fm & Vm & Hbm & _ & Hvm & HVm & ->).
  destruct (valsRel_step _ _ _ _ _ _ Hvm HVc) as (am & um & HVm' & _ & _).
  rewrite HVm in HVm'. injection HVm' as ->.
  destruct (valsRel_step _ _ _ _ _ _ Hvm HKc) as (akm & ukm & HKm & _ & _).
  apply bind_Ok in Hstep as (K' & HK'%orPanic_Ok & Hstep).
  apply bind_Ok in Hstep as (V' & HV'%orPanic_Ok & Hstep).
  rewrite lookup_setValue in HK', HV' by eauto.
  rewrite decide_False in HK' by done. rewrite decide_True in HV' by done.
  rewrite HKm in HK'. injection HK' as <-. injection HV' as <-.
  apply bind_Ok in Hstep as ([f3 rc3] & Hloop & [= <- <- <-]).
  set (f2 := setValue (setValue fm v _) v _) in *.
  assert (Hf2 : ∀ p, Vals f2 !! p = if decide (v = p) then Some (set_Uses (finalForm V0 K0) um)
                                     else Vals fm !! p).
  { intros p. unfold f2. rewrite !lookup_setValue; [by case_decide | eauto |].
    rewrite lookup_setValue by eauto. rewrite decide_True by done. eauto. }
  assert (Hcore2 : ∀ b B0, Blocks (wl_f t) !! b = Some B0 →
            ∃ B, Blocks f2 !! b = Some B ∧ (bKind B ≠ BlockPlain → coreEq B B0)).
  { intros b B0 HB0. change (Blocks f2) with (Blocks fm). rewrite Hbm. by apply Hcore. }
  destruct (rewire_loop (wl_f t) k _ f2 rc f3 rc3 Hloop Hcore2) as (Hv3 & Hcore3 & Hkeep3 & Hnew3).
  split; [rewrite (proj1 Hv3); unfold f2, setValue; simpl;
          rewrite !length_insert, (proj1 Hvm); exact Hlen|].
  split; [|split; [done|]].
  - intros p V0p HV0p. destruct (Hvals p V0p HV0p) as [Hfin Hsame]. split.
    + intros lt' k' K' Hin Htag' Hnc Hk' HK'.
      assert (HKlit' : isConst K' = true).
      { destruct (Hlit p lt') as (k'' & K'' & Hk'' & HK'' & Hl''); [by apply Hcells | done |].
        congruence. }
      assert (Hp2 : ∃ u2, Vals f2 !! p = Some (set_Uses (finalForm V0p K') u2)).
      { rewrite Hf2. apply elem_of_app in Hin as [Hin|Hin%list_elem_of_singleton].
        - rewrite decide_False by (intros <-; by destruct (Hfresh lt')).
          destruct (Hfin _ _ _ Hin Htag' Hnc Hk' HK') as [u0 Hp0].
          rewrite <- (set_Args_id (finalForm V0p K')) in Hp0.
          destruct (valsRel_step _ _ _ _ _ _ Hvm Hp0) as (a1 & u1 & Hp1 & _ & Ha1).
          exists u1. rewrite Hp1, Ha1 by (by apply isPhi_finalForm). done.
        - injection Hin as -> ->. rewrite decide_True by done.
          exists um. congruence. }
      destruct Hp2 as [u2 Hp2].
      rewrite <- (set_Args_id (finalForm V0p K')) in Hp2.
      destruct (valsRel_step _ _ _ _ _ _ Hv3 Hp2) as (a3 & u3 & Hp3 & _ & Ha3).
      exists u3. rewrite Hp3, Ha3 by (by apply isPhi_finalForm). done.
    + intros Hall.
      assert (Hpv : v ≠ p).
      { intros <-. rewrite HV0 in HV0p. injection HV0p as <-.
        rewrite (Hall lt) in HcV0; [done | | done].
        apply elem_of_app. right. by apply list_elem_of_singleton. }
      destruct Hsame as (a1 & u1 & Hp1 & Hs1 & Ha1).
      { intros lt' Hin. apply Hall, elem_of_app. by left. }
      destruct (valsRel_step _ _ _ _ _ _ Hvm Hp1) as (a2 & u2 & Hp2 & Hs2 & Ha2).
      assert (Hp2' : Vals f2 !! p = Some (set_Uses (set_Args V0p a2) u2))
        by (by rewrite Hf2, decide_False).
      destruct (valsRel_step _ _ _ _ _ _ Hv3 Hp2') as (a3 & u3 & Hp3 & Hs3 & Ha3).
      exists a3, u3. split; [done|]. split; [by repeat (etrans; [done|])|].
      intros Hphi. rewrite Ha3, Ha2 by done. auto.
  - intros v' lt' V0' k' K' b B0 Hin Htag' HV0' Hnc Hk' HK' Hb HB0 Hif.
    apply elem_of_app in Hin as [Hin|Hin%list_elem_of_singleton].
    + destruct (Hrw v' lt' V0' k' K' b B0) as (B & HB & HrwB); try done.
      apply (Hkeep3 b B0 B); [|done]. change (Blocks f2) with (Blocks fm). by rewrite Hbm.
    + injection Hin as -> ->.
      assert (k' = k) as -> by congruence. assert (K' = K0) as -> by congruence.
      assert (HK2 : Vals f2 !! k = Some (set_Uses (set_Args (set_Uses (set_Args K0 ak) uk) akm) ukm))
        by (by rewrite Hf2, decide_False).
      by apply (Hnew3 _ b B0 HK2).
Qed.

Lemma replaceConst_loop t done rest s s' :
  cellsLiteral t →
  (∀ p lt, (p, lt) ∈ done ++ rest → wl_latticeCells t !! p = Some lt) →
  NoDup (done ++ rest).*1 →
  rcInv t done s.1.1 →
  range_loop (replaceConst_cell t) s rest = Ok s' →
  rcInv t (done ++ rest) s'.1.1.
Proof.
  intros Hlit. revert done s. induction rest as [|[v lt] rest IH]; intros done s Hcells Hnd Hinv.
  - intros [= <-]. by rewrite app_nil_r.
  - cbn [range_loop]. intros ([[f1 cc1] rc1] & Hstep & Hloop)%bind_Ok.
    destruct s as [[f cc] rc].
    replace (done ++ (v, lt) :: rest) with ((done ++ [(v, lt)]) ++ rest) in *
      by (by rewrite <- app_assoc).
    apply (IH _ (f1, cc1, rc1)); try done. simpl.
    eapply replaceConst_cell_step; try done.
    + intros p lt' Hin. apply Hcells, elem_of_app. by left.
    + intros lt' Hin. rewrite !fmap_app in Hnd. simpl in Hnd.
      apply NoDup_app in Hnd as [Hnd _]. apply NoDup_app in Hnd as (_ & Hd & _).
      apply (Hd v); [|by left]. apply list_elem_of_fmap. by exists (v, lt').
Qed.

(** ** visitValue, case by case *)

Lemma set_f_id t : set_f t (wl_f t) = t.
Proof. by destruct t. Qed.

Lemma addValues_nil B : addValues B [] = B.
Proof. destruct B. unfold addValues; simpl. by rewrite app_nil_r. Qed.

Lemma addValues_app B vs ws : addValues (addValues B vs) ws = addValues B (vs ++ ws).
Proof. unfold addValues; simpl. by rewrite app_assoc. Qed.

Lemma extendsF_refl f : extendsF f f.
Proof.
  split; [done|]. exists []. split; [by rewrite app_nil_r|].
  symmetry. apply list_alter_id. intros B. apply addValues_nil.
Qed.

Lemma extendsF_trans f1 f2 f3 : extendsF f1 f2 → extendsF f2 f3 → extendsF f1 f3.
Proof.
  intros (He1 & p1 & Hv1 & Hb1) (He2 & p2 & Hv2 & Hb2).
  split; [congruence|]. exists (p1 ++ p2). split; [by rewrite Hv2, Hv1, app_assoc|].
  rewrite Hb2, Hb1, He1, list_alter_alter_eq. apply list_alter_ext; [|done].
  intros B _. simpl. rewrite addValues_app. f_equal.
  rewrite Hv1, !length_app. symmetry. apply seq_app.
Qed.

Lemma extendsF_lookup f f' p V : extendsF f f' → Vals f !! p = Some V → Vals f' !! p = Some V.
Proof. intros (_ & probes & -> & _) Hp. by apply lookup_app_l_Some. Qed.

(** A block before is, values added at its end apart, that block after;
    only the entry block gains values. *)
Lemma extendsF_block f f' b B :
  extendsF f f' → Blocks f !! b = Some B →
  ∃ vs, Blocks f' !! b = Some (addValues B vs) ∧ (b ≠ Entry f → vs = []).
Proof.
  intros (_ & probes & _ & ->) HB. rewrite list_lookup_alter. case_decide as Hb.
  - subst b. rewrite HB. simpl. eexists. split; [done|]. by intros [].
  - exists []. by rewrite addValues_nil.
Qed.

Lemma extendsF_block_inv f f' b B' :
  extendsF f f' → Blocks f' !! b = Some B' →
  ∃ B vs, Blocks f !! b = Some B ∧ B' = addValues B vs.
Proof.
  intros Hext HB'. destruct (Blocks f !! b) as [B|] eqn:HB.
  - destruct (extendsF_block _ _ _ _ Hext HB) as (vs & HB1 & _).
    exists B, vs. split; [done|]. congruence.
  - destruct Hext as (_ & probes & _ & Hb). rewrite Hb in HB'.
    apply lookup_lt_Some in HB'. rewrite length_alter in HB'.
    apply lookup_ge_None in HB. lia.
Qed.

Lemma extendsF_withProbe f P : extendsF f (withProbe f P).
Proof. split; [done|]. by exists [P]. Qed.

Lemma computeConstValue_extends rw f v args f' n m :
  computeConstValue rw f v args = Ok (f', n, m) → extendsF f f'.
Proof. intros (_ & P & -> & _)%computeConstValue_Ok. apply extendsF_withProbe. Qed.

Lemma visitBinary_cases rw t v V t' :
  visitBinary rw t v V = Ok t' →
  t' = set_cell t v worstLt
  ∨ ∃ a0 a1 f' n m,
      vArgs V !! 0%nat = Some a0 ∧ vArgs V !! 1%nat = Some a1 ∧
      tag (getLatticeCell t a0) = constant ∧ tag (getLatticeCell t a1) = constant ∧
      computeConstValue rw (wl_f t) v [val (getLatticeCell t a0); val (getLatticeCell t a1)]
        = Ok (f', n, m) ∧
      t' = set_cell (set_f t f') v (if m then Const (Some n) else worstLt).
Proof.
  unfold visitBinary. intros (a0 & [_ Ha0]%index_Ok & H)%bind_Ok.
  apply bind_Ok in H as (a1 & [_ Ha1]%index_Ok & H).
  case_bool_decide as Ht0; simpl in H; [|injection H as <-; by left].
  case_bool_decide as Ht1; simpl in H; [|injection H as <-; by left].
  apply bind_Ok in H as (dz & _ & H). destruct dz; [injection H as <-; by left|].
  apply bind_Ok in H as ([[f' n] m] & Hcall & H). right.
  exists a0, a1, f', n, m. repeat split; try done.
  by destruct m; injection H as <-.
Qed.

Lemma visitPhi_args_spec t blk B args i acc l :
  Blocks (wl_f t) !! blk = Some B →
  visitPhi_args t blk i args acc = Ok l →
  l = acc ++ map (λ ia, getLatticeCell t ia.2)
                 (filter (λ ia, visitedPos t blk (bPreds B) ia)
                         (zip (seq i (length args)) args)).
Proof.
  intros HB. revert i acc. induction args as [|a args IH]; intros i acc; simpl.
  - intros [= <-]. by rewrite app_nil_r.
  - unfold getBlock. rewrite HB; simpl.
    intros (p & Hp%orPanic_Ok & H)%bind_Ok.
    rewrite filter_cons.
    assert (Hvp : visitedPos t blk (bPreds B) (i, a) = isVisited t (mkEdge p blk))
      by (unfold visitedPos; simpl; by rewrite Hp).
    destruct (isVisited t (mkEdge p blk)) eqn:Hvis.
    + rewrite decide_True by (by rewrite Hvp).
      apply IH in H as ->. simpl. by rewrite <- app_assoc.
    + rewrite decide_False by (rewrite Hvp; by intros []). by apply IH in H.
Qed.

Lemma visitPhi_Ok t v t' :
  visitPhi t v = Ok t' →
  ∃ V, Vals (wl_f t) !! v = Some V ∧ t' = set_cell t v (meet (phiInputs t V)).
Proof.
  unfold visitPhi. intros (V & HV%orPanic_Ok & H)%bind_Ok.
  apply bind_Ok in H as (l & Hl & [= <-]). exists V. split; [done|].
  unfold phiInputs. destruct (Blocks (wl_f t) !! vBlock V) as [B|] eqn:HB.
  - by rewrite (visitPhi_args_spec _ _ _ _ _ _ _ HB Hl).
  - destruct (vArgs V); simpl in Hl; [by injection Hl as <-|].
    unfold getBlock in Hl. by rewrite HB in Hl.
Qed.

(** The outcomes of the switch of [visitValue]. *)
Lemma visitValue_switch_cases rw t v t' :
  visitValue_switch rw t v = Ok t' →
  ∃ V, Vals (wl_f t) !! v = Some V ∧
    ((isConst V = true ∧ t' = set_cell t v (Const (Some v)))
     ∨ (vOp V = OpCopy ∧ ∃ a0, vArgs V !! 0%nat = Some a0 ∧
          t' = set_cell t v (getLatticeCell t a0))
     ∨ (vOp V = OpPhi ∧ t' = set_cell t v (meet (phiInputs t V)))
     ∨ (vOp V ≠ OpPhi ∧ t' = set_cell t v worstLt)
     ∨ (vOp V ≠ OpPhi ∧ ∃ a0 a1 f' n m,
          computeConstValue rw (wl_f t) v [val (getLatticeCell t a0); val (getLatticeCell t a1)]
            = Ok (f', n, m) ∧
          t' = set_cell (set_f t f') v (if m then Const (Some n) else worstLt))).
Proof.
  unfold visitValue_switch. intros (V & HV%orPanic_Ok & H)%bind_Ok.
  exists V. split; [done|].
  destruct (isConst V) eqn:Hc; [injection H as <-; by left|]. right.
  destruct (decide (vOp V = OpCopy)) as [Hcopy|Hncopy].
  { rewrite Hcopy in H. apply bind_Ok in H as (a0 & [_ Ha0]%index_Ok & [= <-]).
    left. eauto. }
  right. destruct (decide (vOp V = OpPhi)) as [Hphi|Hnphi].
  { rewrite Hphi in H. apply visitPhi_Ok in H as (V' & HV' & ->).
    left. split; [done|]. congruence. }
  right.
  rewrite switch_other in H by done.
  destruct (isFoldable (vOp V)); [|injection H as <-; by left].
  apply visitBinary_cases in H as [->|(a0 & a1 & f' & n & m & _ & _ & _ & _ & Hcall & ->)];
    [by left|].
  right. split; [done|]. by exists a0, a1, f', n, m.
Qed.

(** What a visit changes: one cell, probes at the end of the heap and of
    the values of the entry block, and entries appended to the two
    worklists. *)
Lemma visitValue_switch_frame rw t v t' :
  visitValue_switch rw t v = Ok t' →
  ∃ f' c, t' = set_cell (set_f t f') v c ∧ extendsF (wl_f t) f'.
Proof.
  intros (V & HV & Hcases)%visitValue_switch_cases.
  destruct Hcases as [[_ ->]|[(_ & a0 & _ & ->)|[[_ ->]|[[_ ->]|
    (_ & a0 & a1 & f' & n & m & Hcall & ->)]]]].
  1-4: eexists (wl_f t), _; rewrite set_f_id; split; [done | apply extendsF_refl].
  exists f'. eexists. split; [done|]. by eapply computeConstValue_extends.
Qed.

Lemma visitValue_frame rw t v t' :
  visitValue rw t v = Ok t' →
  ∃ f' c us es,
    t' = addEdges (set_uses (set_cell (set_f t f') v c) (wl_uses t ++ us)) es
    ∧ extendsF (wl_f t) f'
    ∧ visitValue_switch rw t v = Ok (set_cell (set_f t f') v c)
    ∧ (c = getLatticeCell t v → us = [])
    ∧ (c ≠ getLatticeCell t v → us = filter (λ use, v ≠ use) (default [] (wl_defUse t !! v))).
Proof.
  unfold visitValue. intros (t1 & Hsw & H)%bind_Ok.
  destruct (visitValue_switch_frame _ _ _ _ Hsw) as (f' & c & -> & Hext).
  assert (Hcell : getLatticeCell (set_cell (set_f t f') v c) v = c).
  { unfold getLatticeCell; simpl. by rewrite lookup_insert_eq. }
  rewrite Hcell in H. exists f', c. case_bool_decide as Hchg.
  - apply addUses_frame in H as (es & ->). eexists _, es. split; [done|].
    split; [done|]. split; [done|]. split; [|done].
    intros ->. destruct Hchg; done.
  - injection H as <-. exists [], []. split.
    + unfold addEdges, set_uses, set_edges; simpl. by rewrite !app_nil_r.
    + split; [done|]. split; [done|]. split; [done|]. intros Hne. destruct Hchg.
      destruct c as [tc vc], (getLatticeCell t v) as [to vo]; simpl.
      destruct (decide (tc = to)) as [->|]; [|by left]. right. congruence.
Qed.

(** ** The solver keeps its invariant *)

(** Replacing entries of a list by the meet of the list does not change
    the meet. *)
Lemma meet_replace l l' :
  Forall2 (λ x y, y = x ∨ y = meet l) l l' → meet l' = meet l.
Proof.
  intros Hrel.
  assert (Hfw : ∀ x, x ∈ l → ∃ y, y ∈ l' ∧ (y = x ∨ y = meet l)).
  { intros x (i & Hi)%list_elem_of_lookup.
    destruct (Forall2_lookup_l _ _ _ _ _ Hrel Hi) as (y & Hy & Hxy).
    exists y. split; [by eapply list_elem_of_lookup_2 | done]. }
  assert (Hbw : ∀ y, y ∈ l' → (y ∈ l ∨ y = meet l)).
  { intros y (i & Hi)%list_elem_of_lookup.
    destruct (Forall2_lookup_r _ _ _ _ _ Hrel Hi) as (x & Hx & [-> | ->]); [|by right].
    left. by eapply list_elem_of_lookup_2. }
  destruct (meet_cases l) as [H|[H|[a H]]]; rewrite H in *.
  - apply meet_Top. apply meet_Top in H. rewrite Forall_forall in *.
    intros y Hy. apply Hbw in Hy as [Hy | ->]; auto.
  - apply meet_Bottom. apply meet_Bottom in H.
    destruct H as [(x & Hx & Htx)|(x & z & Hx & Hz & Htx & Htz & Hne)].
    + left. destruct (Hfw x Hx) as (y & Hy & [-> | ->]); eauto.
    + destruct (Hfw x Hx) as (x' & Hx' & [-> | ->]); [|left; eauto].
      destruct (Hfw z Hz) as (z' & Hz' & [-> | ->]); [|left; eauto].
      right. exists x, z. done.
  - apply meet_Const. apply meet_Const in H as [Hall (x & Hx & Htx)]. split.
    + rewrite Forall_forall in *. intros y Hy. apply Hbw in Hy as [Hy | ->]; [auto|]. by right.
    + destruct (Hfw x Hx) as (y & Hy & [-> | ->]); eauto.
Qed.

Lemma isVisited_ext t t' e : wl_visited t' = wl_visited t → isVisited t' e = isVisited t e.
Proof. unfold isVisited. by intros ->. Qed.

Lemma phiInputs_ext t t' W :
  extendsF (wl_f t) (wl_f t') →
  wl_visited t' = wl_visited t →
  (∀ a, a ∈ vArgs W → getLatticeCell t' a = getLatticeCell t a) →
  phiInputs t' W = phiInputs t W.
Proof.
  intros Hext Hvis Hcells. unfold phiInputs.
  destruct (Blocks (wl_f t) !! vBlock W) as [B|] eqn:HB.
  2: { destruct (Blocks (wl_f t') !! vBlock W) as [B'|] eqn:HB'; [|done].
       destruct (extendsF_block_inv _ _ _ _ Hext HB') as (B & vs & HB0 & _). congruence. }
  destruct (extendsF_block _ _ _ _ Hext HB) as (vs & -> & _).
  change (bPreds (addValues B vs)) with (bPreds B).
  rewrite (list_filter_iff _ (λ ia, visitedPos t (vBlock W) (bPreds B) ia)).
  - apply list_fmap_ext. intros i [j a] Hi. simpl. apply Hcells.
    apply list_elem_of_lookup_2, list_elem_of_filter in Hi as [_ Hi].
    by apply elem_of_zip_r in Hi.
  - intros ia. unfold visitedPos. destruct (bPreds B !! ia.1); [|done].
    by rewrite (isVisited_ext t t').
Qed.

Lemma getLatticeCell_set_cell t v c a :
  getLatticeCell (set_cell t v c) a = if decide (v = a) then c else getLatticeCell t a.
Proof. unfold getLatticeCell; simpl. rewrite lookup_insert. by case_decide. Qed.

(** A phi that has just been given the meet of its inputs is up to date,
    also when it is one of its own arguments. *)
Lemma phiInputs_self t v W :
  meet (phiInputs (set_cell t v (meet (phiInputs t W))) W) = meet (phiInputs t W).
Proof.
  apply meet_replace. unfold phiInputs. simpl.
  destruct (Blocks (wl_f t) !! vBlock W) as [B|]; [|constructor].
  change (visitedPos (set_cell t v ?c)) with (visitedPos t).
  apply Forall2_fmap, Forall_Forall2_diag, Forall_forall. intros [i a] _. cbn [snd].
  rewrite !getLatticeCell_set_cell. case_decide; [by right | by left].
Qed.

Lemma getLatticeCell_literal t a :
  cellsLiteral t → tag (getLatticeCell t a) = constant →
  ∃ k K, val (getLatticeCell t a) = Some k ∧ Vals (wl_f t) !! k = Some K ∧ isConst K = true.
Proof.
  intros Hlit. unfold getLatticeCell.
  destruct (wl_latticeCells t !! a) as [c|] eqn:Hc; [by apply (Hlit a) | done].
Qed.

Lemma listedPhi_uses f0 w W a :
  listedPhi f0 w W → a ∈ vArgs W → w ∈ default [] (defUseOf f0 !! a).
Proof.
  intros (b & B & HB & Hw & HW & _) Ha. unfold defUseOf.
  rewrite (proj1 (lookup_collect_empty _ _)).
  apply list_elem_of_fmap. exists (a, w). split; [done|].
  apply list_elem_of_filter. split; [done|].
  apply list_elem_of_bind. exists (b, B). split.
  - apply list_elem_of_bind. exists w. split; [|done].
    unfold valueArgPairs. rewrite HW. apply list_elem_of_fmap. eauto.
  - apply elem_of_lookup_imap. eauto.
Qed.

Lemma set_cell_inj t f1 c1 v t2 c2 :
  set_cell (set_f t f1) v c1 = set_cell t2 v c2 → f1 = wl_f t2 ∧ c1 = c2.
Proof.
  intros Heq. split.
  - by apply (f_equal wl_f) in Heq.
  - apply (f_equal (λ t, getLatticeCell t v)) in Heq.
    by rewrite !getLatticeCell_set_cell, !decide_True in Heq.
Qed.

Lemma visitValue_switch_literal rw t v t' :
  cellsLiteral t → visitValue_switch rw t v = Ok t' → cellsLiteral t'.
Proof.
  intros Hlit Hsw.
  destruct (visitValue_switch_frame _ _ _ _ Hsw) as (f' & c & -> & Hext).
  assert (Hc : tag c = constant →
            ∃ k K, val c = Some k ∧ Vals f' !! k = Some K ∧ isConst K = true).
  { apply visitValue_switch_cases in Hsw as (V & HV & Hcases).
    destruct Hcases as [[HcV Heq]|[(_ & a0 & _ & Heq)|[[_ Heq]|[[_ Heq]|
      (_ & a0 & a1 & f'' & n & m & Hcall & Heq)]]]];
      apply set_cell_inj in Heq as [Hf ->]; simpl in Hf; subst f'.
    - intros _. exists v, V. done.
    - by apply getLatticeCell_literal.
    - intros Htag. destruct (meet_cases (phiInputs t V)) as [H|[H|[a H]]];
        rewrite H in Htag |- *; try done.
      apply meet_Const in H as [Hall (x & Hx & Htx)].
      rewrite Forall_forall in Hall. destruct (Hall x Hx) as [?|[_ <-]]; [congruence|].
      unfold phiInputs in Hx. destruct (Blocks (wl_f t) !! vBlock V); [|by apply elem_of_nil in Hx].
      apply list_elem_of_fmap in Hx as (ia & -> & _).
      by apply getLatticeCell_literal.
    - done.
    - simpl. apply computeConstValue_Ok in Hcall as (-> & P & -> & HP).
      destruct m; [|done]. intros _. exists (length (Vals (wl_f t))), P.
      split; [done|]. split; [apply lookup_end | auto]. }
  intros p lt Hp Htag. simpl in Hp |- *. rewrite lookup_insert in Hp.
  case_decide as Hpv.
  - injection Hp as <-. auto.
  - destruct (Hlit p lt Hp Htag) as (k & K & Hk & HK & HKc).
    exists k, K. split; [done|]. split; [|done]. by eapply extendsF_lookup.
Qed.

(** One visit keeps the invariant; the visited value is no longer pending. *)
Lemma visitValue_inv rw f0 (pend : ID → Prop) t v t' :
  solveInv f0 pend t →
  visitValue rw t v = Ok t' →
  solveInv f0 (λ w, pend w ∧ w ≠ v) t'.
Proof.
  intros (Hext & Hdu & Hdb & Hlit & Hphi) Hvisit.
  destruct (visitValue_frame _ _ _ _ Hvisit) as (f' & c & us & es & -> & Hext' & Hsw & Hsame & Hchg).
  split; [by eapply extendsF_trans|]. split; [done|]. split; [done|]. split.
  { apply (visitValue_switch_literal _ _ _ _ Hlit) in Hsw. exact Hsw. }
  intros Hown w W Hlisted.
  assert (Hcell : ∀ a, getLatticeCell
            (addEdges (set_uses (set_cell (set_f t f') v c) (wl_uses t ++ us)) es) a
            = if decide (v = a) then c else getLatticeCell t a).
  { intros a. apply (getLatticeCell_set_cell (set_f t f') v c a). }
  assert (HW : Vals (wl_f t) !! w = Some W).
  { destruct Hlisted as (b & B & _ & _ & HW & _). by eapply extendsF_lookup. }
  destruct (decide (w = v)) as [->|Hwv].
  - (* the visited value itself *)
    right. right. rewrite Hcell, decide_True by done.
    apply visitValue_switch_cases in Hsw as (V & HV & Hcases).
    rewrite HW in HV. injection HV as <-.
    assert (Hop : vOp W = OpPhi).
    { destruct Hlisted as (_ & _ & _ & _ & _ & Hp). unfold isPhi in Hp.
      by destruct (vOp W). }
    destruct Hcases as [[HcV _]|[(Hcopy & _)|[[_ Heq]|[[Hn _]|(Hn & _)]]]];
      [unfold isConst in HcV; rewrite Hop in HcV; done | congruence | | done | done].
    apply set_cell_inj in Heq as [-> ->].
    rewrite <- (phiInputs_self t v W) at 1. reflexivity.
  - destruct (Hphi Hown w W Hlisted) as [Hin|[Hp|Hok]].
    + left. simpl. apply elem_of_app. by left.
    + right. left. done.
    + destruct (decide (c = getLatticeCell t v)) as [Hceq|Hcne].
      * right. right. rewrite Hcell, decide_False by done. rewrite Hok. f_equal.
        symmetry. apply phiInputs_ext; try done.
        intros a _. rewrite Hcell. case_decide; congruence.
      * destruct (decide (v ∈ vArgs W)) as [Harg|Hnarg].
        -- left. simpl. apply elem_of_app. right. rewrite (Hchg Hcne).
           apply list_elem_of_filter. split; [congruence|].
           rewrite Hdu. by eapply listedPhi_uses.
        -- right. right. rewrite Hcell, decide_False by done. rewrite Hok. f_equal.
           symmetry. apply phiInputs_ext; try done.
           intros a Ha. rewrite Hcell. rewrite decide_False; [done|]. congruence.
Qed.

Lemma solveInv_weaken f0 (pend pend' : ID → Prop) t :
  (∀ w, pend w → pend' w) → solveInv f0 pend t → solveInv f0 pend' t.
Proof.
  intros Hpp (Hext & Hdu & Hdb & Hlit & Hphi). split; [done|]. split; [done|]. split; [done|]. split; [done|].
  intros Hown w W Hl. destruct (Hphi Hown w W Hl) as [?|[?|?]]; auto.
Qed.

Lemma solveInv_addEdges f0 pend t es :
  solveInv f0 pend t → solveInv f0 pend (addEdges t es).
Proof. intros (Hext & Hdu & Hdb & Hlit & Hphi). split; [done|]. split; [done|]. split; [done|]. split; [done|]. exact Hphi. Qed.

Lemma solveInv_set_edges f0 pend t es :
  solveInv f0 pend t → solveInv f0 pend (set_edges t es).
Proof. intros (Hext & Hdu & Hdb & Hlit & Hphi). split; [done|]. split; [done|]. split; [done|]. split; [done|]. exact Hphi. Qed.

Lemma propagate_inv f0 pend t b t' :
  solveInv f0 pend t → propagate t b = Ok t' → solveInv f0 pend t'.
Proof. intros Hinv (es & ->)%propagate_frame. by apply solveInv_addEdges. Qed.

Lemma visitDestValue_inv rw f0 (pend : ID → Prop) seen t x t' :
  solveInv f0 pend t →
  visitDestValue rw seen t x = Ok t' →
  solveInv f0 (λ w, pend w ∧ w ≠ x) t'.
Proof.
  intros Hinv. unfold visitDestValue. intros (V & HV%orPanic_Ok & H)%bind_Ok.
  destruct (isPhi V || negb seen) eqn:Hvisit; [by eapply visitValue_inv|].
  injection H as <-. destruct Hinv as (Hext & Hdu & Hdb & Hlit & Hphi).
  split; [done|]. split; [done|]. split; [done|]. split; [done|].
  intros Hown w W Hl. destruct (Hphi Hown w W Hl) as [?|[?|?]]; auto.
  right. left. split; [done|]. intros ->.
  destruct Hl as (_ & _ & _ & _ & HW & Hp).
  apply (extendsF_lookup _ _ _ _ Hext) in HW. rewrite HV in HW. injection HW as ->.
  by rewrite Hp in Hvisit.
Qed.

Lemma visitedPos_other t e blk preds ia :
  dest e ≠ blk →
  visitedPos (set_visited t (<[e := true]> (wl_visited t))) blk preds ia
  = visitedPos t blk preds ia.
Proof.
  intros Hne. unfold visitedPos. destruct (preds !! ia.1) as [p|]; [|done].
  unfold isVisited; simpl. rewrite lookup_insert_ne; [done|].
  intros ->. by apply Hne.
Qed.

Lemma visitEdge_inv rw f0 t e t' :
  solveInv f0 (λ _, False) t →
  visitEdge rw t e = Ok t' →
  solveInv f0 (λ _, False) t'.
Proof.
  intros Hinv. unfold visitEdge.
  destruct (isVisited t e); [by intros [= <-]|].
  intros (D & HD%orPanic_Ok & H)%bind_Ok. simpl in HD.
  apply bind_Ok in H as (t2 & Hloop & H).
  set (t1 := set_visited t (<[e:=true]> (wl_visited t))) in *.
  assert (Hinv1 : solveInv f0 (λ w, w ∈ bValues D) t1).
  { destruct Hinv as (Hext & Hdu & Hdb & Hlit & Hphi).
    split; [done|]. split; [done|]. split; [done|]. split; [done|].
    intros Hown w W Hl. destruct (Hphi Hown w W Hl) as [?|[[]|Hok]]; [by left|].
    destruct (decide (dest e = vBlock W)) as [Heq|Hne].
    - right. left. destruct Hl as (b & B & HB & Hw & HW & _).
      rewrite (Hown b B w W HB Hw HW) in Heq. subst b.
      destruct (extendsF_block _ _ _ _ Hext HB) as (vs & HB' & _).
      rewrite HB' in HD. injection HD as <-. simpl. apply elem_of_app. by left.
    - right. right. unfold getLatticeCell in *. simpl. rewrite Hok. f_equal.
      unfold phiInputs; simpl. destruct (Blocks (wl_f t) !! vBlock W); [|done].
      f_equal. apply list_filter_iff. intros ia. fold t1.
      unfold t1. by rewrite visitedPos_other. }
  assert (Hinv2 : solveInv f0 (λ w, w ∈ @nil ID) t2).
  { revert Hloop. apply (range_loop_inv _ (λ s rest, solveInv f0 (λ w, w ∈ rest) s)); [done|].
    intros s x rest s' Hs Hx.
    apply (solveInv_weaken f0 (λ w, w ∈ x :: rest ∧ w ≠ x));
      [|by eapply visitDestValue_inv].
    intros w [[->|Hin]%elem_of_cons Hne]; done. }
  apply (solveInv_weaken _ _ (λ _, False)) in Hinv2; [|by intros w ?%elem_of_nil].
  destruct (destVisited t (dest e)); [by injection H as <-|].
  by eapply propagate_inv.
Qed.

Lemma step_inv rw f0 t t' :
  solveInv f0 (λ _, False) t →
  step rw t = Ok (Some t') →
  solveInv f0 (λ _, False) t'.
Proof.
  intros Hinv. unfold step. destruct (wl_edges t) as [|e es].
  - destruct (wl_uses t) as [|u us] eqn:Hu; [done|].
    intros (t1 & Hv & [= <-])%bind_Ok.
    apply (solveInv_weaken f0 (λ w, w = u ∧ w ≠ u)); [by intros w [-> ?]|].
    apply (visitValue_inv rw f0 (λ w, w = u) (set_uses t us) u t1); [|exact Hv].
    + destruct Hinv as (Hext & Hdu & Hdb & Hlit & Hphi).
      split; [done|]. split; [done|]. split; [done|]. split; [done|].
      intros Hown w W Hl. destruct (Hphi Hown w W Hl) as [Hin|[[]|Hok]]; [|by right; right].
      rewrite Hu in Hin. apply elem_of_cons in Hin as [->|Hin]; [by right; left | by left].
  - intros (t1 & Hv & [= <-])%bind_Ok.
    eapply visitEdge_inv; [|exact Hv]. by apply solveInv_set_edges.
Qed.

Lemma step_None rw t : step rw t = Ok None → wl_edges t = [] ∧ wl_uses t = [].
Proof.
  unfold step. destruct (wl_edges t); [|by intros (? & ? & ?)%bind_Ok].
  destruct (wl_uses t); [done | by intros (? & ? & ?)%bind_Ok].
Qed.

Lemma solve_inv rw f0 fuel t t' :
  solveInv f0 (λ _, False) t →
  solve rw fuel t = Some (Ok t') →
  solveInv f0 (λ _, False) t' ∧ wl_edges t' = [] ∧ wl_uses t' = [].
Proof.
  revert t. induction fuel as [|fuel IH]; intros t Hinv; [done|].
  simpl. destruct (step rw t) as [[t1|]|] eqn:Hstep; [| |done].
  - apply IH. by eapply step_inv.
  - intros [= <-]. split; [done|]. by eapply step_None.
Qed.

Lemma buildDefUses_value_inv f du v du' :
  buildDefUses_value f du v = Ok du' → du' = collect (valueArgPairs f v) du.
Proof.
  intros H. assert (is_Some (Vals f !! v)) as Hv.
  { unfold buildDefUses_value, getValue in H. destruct (Vals f !! v); [eauto | done]. }
  rewrite buildDefUses_value_Ok in H by done. congruence.
Qed.

Lemma buildDefUses_blocks_inv f ibs s s' :
  range_loop (buildDefUses_block f) s ibs = Ok s' →
  s' = (collect (ibs ≫= blockArgPairs f) s.1, collect (ibs ≫= blockCtlPairs) s.2).
Proof.
  revert s. induction ibs as [|ib ibs IH]; intros [du db]; simpl.
  - by intros [= <-].
  - intros ([du1 db1] & Hb & Hl)%bind_Ok. apply IH in Hl as ->. simpl.
    unfold buildDefUses_block in Hb. simpl in Hb.
    apply bind_Ok in Hb as (du2 & Hvals & [= <- <-]).
    assert (du2 = collect (blockArgPairs f ib) du) as ->.
    { clear -Hvals. unfold blockArgPairs. revert du Hvals.
      induction (bValues ib.2) as [|v vs IHv]; intros du; simpl.
      - by intros [= <-].
      - intros (du1 & ->%buildDefUses_value_inv & Hl)%bind_Ok.
        apply IHv in Hl as ->. by rewrite collect_app. }
    rewrite !collect_app. do 2 f_equal.
    unfold blockCtlPairs, collect. generalize (bControls ib.2) db.
    induction l as [|c l IHl]; intros m; simpl; [done | apply IHl].
Qed.

Lemma phiInputs_unvisited t W : wl_visited t = ∅ → phiInputs t W = [].
Proof.
  intros Hvis. unfold phiInputs. destruct (Blocks (wl_f t) !! vBlock W) as [B|]; [|done].
  rewrite (list_filter_iff _ (λ _, False)).
  - by induction (zip _ _) as [|x l IH]; [|rewrite filter_cons_False by auto].
  - intros ia. unfold visitedPos, isVisited. rewrite Hvis.
    destruct (bPreds B !! ia.1); [|done]. rewrite lookup_empty.
    rewrite bool_decide_eq_false_2; [done | by intros []].
Qed.

(** The state in which the loop starts satisfies the invariant. *)
Lemma buildDefUses_inv f t :
  buildDefUses (init f) = Ok t → solveInv f (λ _, False) t.
Proof.
  intros (du & db & -> & Hloop%buildDefUses_blocks_inv)%buildDefUses_Ok_inv.
  injection Hloop as -> ->. split; [apply extendsF_refl|].
  split; [done|]. split; [done|]. split.
  - intros v lt Hv. simpl in Hv. by rewrite lookup_empty in Hv.
  - intros _ w W _. right. right. by rewrite phiInputs_unvisited.
Qed.

(** The state in which the loop of [sccp] ends. *)
Lemma sccp_solve_inv rw fuel f t :
  sccp_solve rw fuel f = Some (Ok t) →
  solveInv f (λ _, False) t ∧ wl_edges t = [] ∧ wl_uses t = [].
Proof.
  unfold sccp_solve.
  destruct (buildDefUses (init f)) as [t0|] eqn:Hbuild; [|done].
  apply solve_inv. by apply buildDefUses_inv.
Qed.

(** ** Phis at the fixed point *)

(** C2.  When the loop of [sccp] has ended, the cell of every phi listed
    in a block is the meet of the cells of exactly those arguments whose
    predecessor edge is in the visited set.  So a phi whose visited
    arguments are all Top is Top, one whose visited arguments are Const(k)
    or Top, with at least one Const(k), is Const(k), and one with two
    visited arguments at different constants is Bottom. *)
Theorem phi_cells_at_fixpoint (rw : Func → Value → Value * bool) (fuel : nat)
    (f : Func) (t : worklist)
    (Hown : blocksOwnValues f)
    (Hsolve : sccp_solve rw fuel f = Some (Ok t)) :
  ∀ v V, listedPhi f v V →
    getLatticeCell t v = meet (phiInputs t V)
    ∧ ((∀ c, c ∈ phiInputs t V → tag c = top) → getLatticeCell t v = Top)
    ∧ (∀ k, (∀ c, c ∈ phiInputs t V → tag c = top ∨ c = Const k) →
            Const k ∈ phiInputs t V → getLatticeCell t v = Const k)
    ∧ (∀ k1 k2, Const k1 ∈ phiInputs t V → Const k2 ∈ phiInputs t V → k1 ≠ k2 →
            getLatticeCell t v = Bottom).
Proof.
  intros v V Hl.
  destruct (sccp_solve_inv _ _ _ _ Hsolve) as ((_ & _ & _ & _ & Hphi) & _ & Huses).
  assert (Hcell : getLatticeCell t v = meet (phiInputs t V)).
  { destruct (Hphi Hown v V Hl) as [Hin|[[]|Hok]]; [|done].
    rewrite Huses in Hin. by apply elem_of_nil in Hin. }
  rewrite Hcell. split; [done|]. split; [|split].
  - intros Hall. apply meet_Top. by apply Forall_forall.
  - intros k Hall Hin. apply meet_Const. split.
    + apply Forall_forall. intros c Hc. apply Hall in Hc as [? | ->]; [by left | by right].
    + eauto.
  - intros k1 k2 H1 H2 Hne. apply meet_Bottom. right.
    exists (Const k1), (Const k2). done.
Qed.

Lemma phi_cells_at_fixpoint_witness :
  getLatticeCell (solved foldRules 20 progIf) 5 = Bottom.
Proof.
  refine (proj1 (phi_cells_at_fixpoint foldRules 20 progIf (solved foldRules 20 progIf)
            _ _ 5%nat (mkV OpPhi 0 [3; 4]%nat 2 0) _)).
  - intros b B v V HB Hv HV.
    destruct b as [|[|[|b]]]; simpl in HB; try done; injection HB as <-;
      apply list_elem_of_In in Hv; simpl in Hv;
      repeat (destruct Hv as [<-|Hv]; [simpl in HV; by injection HV as <-|]);
      destruct Hv.
  - by vm_compute.
  - exists 2%nat, (mkBlock BlockRet [] [0; 1]%nat [5%nat] [] BranchUnknown).
    split; [done|]. split; [|done]. apply list_elem_of_In. by left.
Defined.

(** ** The rewriter after the fixed point *)

Lemma order_entries t order :
  order ≡ₚ map_to_list (wl_latticeCells t) →
  (∀ p lt, (p, lt) ∈ order ↔ wl_latticeCells t !! p = Some lt) ∧ NoDup order.*1.
Proof.
  intros Hp. split.
  - intros p lt. rewrite Hp. apply elem_of_map_to_list.
  - rewrite Hp. apply NoDup_fst_map_to_list.
Qed.

Lemma replaceConst_in_inv t order f' cc rc :
  cellsLiteral t →
  order ≡ₚ map_to_list (wl_latticeCells t) →
  replaceConst_in order t = Ok (f', cc, rc) →
  rcInv t order f'.
Proof.
  intros Hlit [Hent Hnd]%order_entries Hrepl.
  apply (replaceConst_loop t [] order (wl_f t, 0, 0) (f', cc, rc)); try done.
  - intros p lt Hin. by apply Hent.
  - apply rcInv_init.
Qed.

Lemma control_defBlock f b B v :
  Blocks f !! b = Some B → v ∈ bControls B → b ∈ default [] (defBlockOf f !! v).
Proof.
  intros HB Hv. unfold defBlockOf. rewrite (proj1 (lookup_collect_empty _ _)).
  apply list_elem_of_fmap. exists (v, b). split; [done|].
  apply list_elem_of_filter. split; [done|].
  apply list_elem_of_bind. exists (b, B). split.
  - unfold blockCtlPairs. apply list_elem_of_fmap. eauto.
  - apply elem_of_lookup_imap. eauto.
Qed.

(** C6.  After the fixed point, a value [v] of the function whose cell is
    Const(k) and whose opcode is not a constant literal is reset in place:
    it gets the opcode and AuxInt of [k] and no arguments, and keeps its
    place in the heap, its type, its block and its position (its use
    count follows the uses that the rewriting removes).  Every If block
    that has [v] as control value becomes Plain, loses the successor at
    index [k.AuxInt], has no control value and an unknown likelihood: with
    AuxInt 1 (true) the else successor goes, with AuxInt 0 (false) the then
    successor. *)
Theorem replaceConst_rewrites (rw : Func → Value → Value * bool) (fuel : nat)
    (f : Func) (t : worklist) (order : list (ID * lattice)) (f' : Func) (cc rc : Z)
    (Hsolve : sccp_solve rw fuel f = Some (Ok t))
    (Horder : order ≡ₚ map_to_list (wl_latticeCells t))
    (Hrepl : replaceConst_in order t = Ok (f', cc, rc)) :
  ∀ v V, Vals f !! v = Some V → isConst V = false →
    tag (getLatticeCell t v) = constant →
    ∃ k K, val (getLatticeCell t v) = Some k ∧ Vals (wl_f t) !! k = Some K
      ∧ isConst K = true
      ∧ (∃ V', Vals f' !! v = Some V'
           ∧ vOp V' = vOp K ∧ vAuxInt V' = vAuxInt K ∧ vArgs V' = []
           ∧ vType V' = vType V ∧ vBlock V' = vBlock V ∧ vPos V' = vPos V)
      ∧ ∀ b B, Blocks f !! b = Some B → bKind B = BlockIf → v ∈ bControls B →
          ∃ B', Blocks f' !! b = Some B' ∧ bKind B' = BlockPlain
            ∧ bSuccs B' = delete (Z.to_nat (vAuxInt K)) (bSuccs B)
            ∧ bControls B' = [] ∧ bLikely B' = BranchUnknown
            ∧ (∀ s0 s1, bSuccs B = [s0; s1] →
                 (vAuxInt K = 1 → bSuccs B' = [s0]) ∧ (vAuxInt K = 0 → bSuccs B' = [s1])).
Proof.
  intros v V HV Hnc Htag.
  destruct (sccp_solve_inv _ _ _ _ Hsolve) as ((Hext & _ & Hdb & Hlit & _) & _ & _).
  destruct (getLatticeCell_literal t v Hlit Htag) as (k & K & Hk & HK & HKc).
  exists k, K. do 3 (split; [done|]).
  destruct (replaceConst_in_inv t order f' cc rc Hlit Horder Hrepl) as (_ & Hvals & _ & Hrw).
  assert (HVt : Vals (wl_f t) !! v = Some V) by (by eapply extendsF_lookup).
  assert (Hin : (v, getLatticeCell t v) ∈ order).
  { apply order_entries in Horder as [Hent _]. apply Hent.
    unfold getLatticeCell in Htag |- *. by destruct (wl_latticeCells t !! v). }
  split.
  - destruct (Hvals v V HVt) as [Hfin _].
    destruct (Hfin _ k K Hin Htag Hnc Hk HK) as [u HV']. eexists. split; [exact HV'|]. done.
  - intros b B HB Hif Hctl.
    destruct (extendsF_block _ _ _ _ Hext HB) as (vs & HBt & _).
    destruct (Hrw v _ V k K b (addValues B vs) Hin Htag HVt Hnc Hk HK) as (B' & HB' & Hr);
      [|exact HBt|done|].
    { rewrite Hdb. by eapply control_defBlock. }
    destruct Hr as (Hkind & Hsuccs & Hctls & Hlik & _). simpl in Hsuccs.
    exists B'. do 5 (split; [done|]).
    intros s0 s1 Hs. rewrite Hsuccs, Hs. split; by intros ->.
Qed.

Lemma replaceConst_rewrites_witness :
  (∃ V', Vals (rewritten foldRules 20 progIf).1.1 !! 2%nat = Some V'
         ∧ vOp V' = OpConstBool ∧ vAuxInt V' = 1 ∧ vArgs V' = [])
  ∧ ∃ B', Blocks (rewritten foldRules 20 progIf).1.1 !! 0%nat = Some B'
          ∧ bKind B' = BlockPlain ∧ bSuccs B' = [1%nat].
Proof.
  destruct (replaceConst_rewrites foldRules 20 progIf (solved foldRules 20 progIf)
              (map_to_list (wl_latticeCells (solved foldRules 20 progIf)))
              (rewritten foldRules 20 progIf).1.1
              (rewritten foldRules 20 progIf).1.2
              (rewritten foldRules 20 progIf).2
              ltac:(vm_compute; reflexivity) ltac:(reflexivity) ltac:(vm_compute; reflexivity)
              2%nat (mkV OpEq32 0 [0; 1]%nat 0 1)
              ltac:(reflexivity) ltac:(reflexivity) ltac:(vm_compute; reflexivity))
    as (k & K & Hk & HK & _ & (V' & HV' & Hop & Haux & Hargs & _) & Hb).
  vm_compute in Hk. injection Hk as <-. vm_compute in HK. injection HK as <-.
  split; [exists V'; split; [exact HV'|]; split; [exact Hop|]; split; [exact Haux | exact Hargs]|].
  destruct (Hb 0%nat (mkBlock BlockIf [1; 2]%nat [] [0; 1; 2; 3]%nat [2%nat] BranchUnknown)
              ltac:(reflexivity) ltac:(reflexivity) ltac:(apply list_elem_of_In; left; reflexivity))
    as (B' & HB' & Hkind & Hsuccs & _).
  exists B'. split; [exact HB'|]. split; [exact Hkind|]. exact Hsuccs.
Defined.




(** ** The loop of sccp *)

(** Edges are drained before values: while an edge is queued a turn of the
    loop pops that edge and leaves the value worklist to [visitEdge]. *)
Lemma step_edges_first rw t e es :
  wl_edges t = e :: es →
  step rw t = (t' ← visitEdge rw (set_edges t es) e; mret (Some t')).
Proof. unfold step. by intros ->. Qed.

(** Dequeuing an edge that is already in the visited set changes nothing
    but the edge worklist. *)
Lemma step_visited_edge rw t e es :
  wl_edges t = e :: es → isVisited t e = true →
  step rw t = Ok (Some (set_edges t es)).
Proof.
  intros He Hvis. rewrite (step_edges_first rw t e es He).
  unfold visitEdge. change (isVisited (set_edges t es) e) with (isVisited t e).
  by rewrite Hvis.
Qed.

Lemma solve_turns rw k t t' fuel :
  turns rw k t = Some t' → solve rw (k + fuel) t = solve rw fuel t'.
Proof.
  revert t. induction k as [|k IH]; intros t; simpl.
  - by intros [= ->].
  - destruct (step rw t) as [[t1|]|]; try done. apply IH.
Qed.

Lemma solve_short rw k t t' fuel :
  turns rw k t = Some t' → (fuel ≤ k)%nat → solve rw fuel t = None.
Proof.
  revert t fuel. induction k as [|k IH]; intros t fuel; simpl.
  - intros _ Hle. by replace fuel with 0%nat by lia.
  - destruct (step rw t) as [[t1|]|] eqn:Hstep; try done. intros Hk Hle.
    destruct fuel as [|fuel]; [done|]. simpl. rewrite Hstep. apply (IH _ _ Hk). lia.
Qed.

(** A state that comes back after some turns of the loop is never left. *)
Lemma solve_periodic rw k t :
  turns rw (S k) t = Some t → ∀ fuel, solve rw fuel t = None.
Proof.
  intros Hper fuel. induction (lt_wf fuel) as [fuel _ IH].
  destruct (decide (fuel ≤ S k)%nat) as [Hle|Hgt].
  - by eapply solve_short.
  - replace fuel with (S k + (fuel - S k))%nat by lia.
    rewrite (solve_turns _ _ _ _ _ Hper). apply IH. lia.
Qed.

Lemma spinState_recurs :
  match spinState with
  | Some s => turns foldRules 6 s = Some s
  | None => False
  end.
Proof. vm_compute. reflexivity. Qed.

(** C8 fails on the code.  On [progSpin] the loop of [sccp] never ends:
    after 16 turns the solver is in a state to which it returns every 6
    turns, the phi [u] and its two copies passing a Bottom and a Const
    around the cycle.  Whatever the bound on the number of turns, the bound
    is reached. *)
Theorem sccp_spins : ∀ fuel, sccp_solve foldRules fuel progSpin = None.
Proof.
  pose proof spinState_recurs as Hper. unfold spinState in Hper.
  intros fuel. unfold sccp_solve.
  destruct (buildDefUses (init progSpin)) as [t0|]; [|done].
  destruct (turns foldRules 16 t0) as [s|] eqn:Hpre; [|done].
  destruct (decide (fuel ≤ 16)%nat) as [Hle|Hgt].
  - by eapply solve_short.
  - replace fuel with (16 + (fuel - 16))%nat by lia.
    rewrite (solve_turns _ _ _ _ _ Hpre). by eapply solve_periodic.
Qed.

(** ** Block propagation and value visits, case by case *)

Lemma addEdges_nil t : addEdges t [] = t.
Proof. destruct t; unfold addEdges, set_edges; simpl. by rewrite app_nil_r. Qed.

Lemma index_elem_of {A} (s : list A) i x : index s i = Ok x → x ∈ s ∧ (0 < length s)%nat.
Proof.
  intros [_ H]%index_Ok. split; [by eapply list_elem_of_lookup_2|].
  apply lookup_lt_Some in H. lia.
Qed.

Lemma propagate_Ok_edges t b t' :
  propagate t b = Ok t' →
  ∃ B es, Blocks (wl_f t) !! b = Some B ∧ t' = addEdges t es
    ∧ (∀ e, e ∈ es → start e = b ∧ dest e ∈ bSuccs B)
    ∧ (length es ≤ length (bSuccs B))%nat.
Proof.
  unfold propagate. intros (B & HB%orPanic_Ok & H)%bind_Ok. exists B.
  assert (Hnone : ∃ es, t = addEdges t es
    ∧ (∀ e, e ∈ es → start e = b ∧ dest e ∈ bSuccs B)
    ∧ (length es ≤ length (bSuccs B))%nat).
  { exists []. rewrite addEdges_nil. split; [done|]. split; [|simpl; lia].
    intros e He. by apply elem_of_nil in He. }
  assert (Hall : ∃ es, addEdges t (map (mkEdge b) (bSuccs B)) = addEdges t es
    ∧ (∀ e, e ∈ es → start e = b ∧ dest e ∈ bSuccs B)
    ∧ (length es ≤ length (bSuccs B))%nat).
  { eexists. split; [done|]. split; [|by rewrite length_map].
    intros e (s & -> & Hs)%list_elem_of_fmap. done. }
  assert (Hone : ∀ i s, index (bSuccs B) i = Ok s →
    ∃ es, addEdges t [mkEdge b s] = addEdges t es
    ∧ (∀ e, e ∈ es → start e = b ∧ dest e ∈ bSuccs B)
    ∧ (length es ≤ length (bSuccs B))%nat).
  { intros i s [Hs Hlen]%index_elem_of. eexists. split; [done|]. split; [|simpl; lia].
    intros e ->%list_elem_of_singleton. done. }
  assert (Hcond : ∀ kind, (cond ← index (bControls B) 0;
      match tag (getLatticeCell t cond) with
      | bottom => mret (addEdges t (map (mkEdge b) (bSuccs B)))
      | constant =>
          c ← orPanic (val (getLatticeCell t cond) ≫= λ p, Vals (wl_f t) !! p);
          s ← index (bSuccs B)
                (match kind with BlockIf => int64 (1 - vAuxInt c) | _ => vAuxInt c end);
          mret (addEdges t [mkEdge b s])
      | top => mret t
      end) = Ok t' →
    ∃ es, t' = addEdges t es
    ∧ (∀ e, e ∈ es → start e = b ∧ dest e ∈ bSuccs B)
    ∧ (length es ≤ length (bSuccs B))%nat).
  { intros kind (c & _ & Hc)%bind_Ok. destruct (tag (getLatticeCell t c)).
    - injection Hc as <-. done.
    - apply bind_Ok in Hc as (K & _ & (s & Hs & [= <-])%bind_Ok). by eapply Hone.
    - injection Hc as <-. done. }
  cut (∃ es, t' = addEdges t es
    ∧ (∀ e, e ∈ es → start e = b ∧ dest e ∈ bSuccs B)
    ∧ (length es ≤ length (bSuccs B))%nat).
  { intros (es & ? & ? & ?). by exists es. }
  destruct (bKind B) eqn:Hk; try (injection H as <-; done); try done.
  - apply bind_Ok in H as (s & Hs & [= <-]). by eapply Hone.
  - by apply (Hcond BlockIf).
  - by apply (Hcond BlockJumpTable).
  - apply bind_Ok in H as (s & Hs & [= <-]). by eapply Hone.
Qed.

Lemma range_propagate_Ok_edges bs t t' :
  range_loop propagate t bs = Ok t' →
  ∃ es, t' = addEdges t es
    ∧ ∀ e, e ∈ es → start e ∈ bs ∧ ∃ B, Blocks (wl_f t) !! start e = Some B ∧ dest e ∈ bSuccs B.
Proof.
  revert t. induction bs as [|b bs IH]; intros t; simpl.
  - intros [= <-]. exists []. rewrite addEdges_nil. split; [done|].
    intros e He. by apply elem_of_nil in He.
  - intros (t1 & (B & es & HB & -> & Hes & _)%propagate_Ok_edges & (es' & -> & Hes')%IH)%bind_Ok.
    exists (es ++ es'). rewrite addEdges_addEdges. split; [done|].
    intros e [He|He]%elem_of_app.
    + destruct (Hes e He) as [Hs Hd]. split; [rewrite Hs; left|]. exists B. by rewrite Hs.
    + destruct (Hes' e He) as [Hs Hd]. split; [by right | done].
Qed.

(** X1.  [propagate] leaves everything but the edge worklist as it was, and
    appends to it only edges that leave the block and lead to one of its
    successors, at most one for each successor slot. *)
Theorem propagate_adds_successor_edges (t : worklist) (b : BlockID) (t' : worklist)
    (Hrun : propagate t b = Ok t') :
  wl_f t' = wl_f t ∧ wl_uses t' = wl_uses t ∧ wl_visited t' = wl_visited t
  ∧ wl_latticeCells t' = wl_latticeCells t
  ∧ wl_defUse t' = wl_defUse t ∧ wl_defBlock t' = wl_defBlock t
  ∧ ∃ B es, Blocks (wl_f t) !! b = Some B ∧ wl_edges t' = wl_edges t ++ es
      ∧ (∀ e, e ∈ es → start e = b ∧ dest e ∈ bSuccs B)
      ∧ (length es ≤ length (bSuccs B))%nat.
Proof.
  destruct (propagate_Ok_edges _ _ _ Hrun) as (B & es & HB & -> & Hes & Hlen).
  repeat (split; [done|]). by exists B, es.
Qed.

Lemma propagate_adds_successor_edges_witness :
  ∃ B es, Blocks progS1 !! 0%nat = Some B
    ∧ wl_edges (addEdges (init progS1) [mkEdge 0 1]) = wl_edges (init progS1) ++ es
    ∧ (∀ e, e ∈ es → start e = 0%nat ∧ dest e ∈ bSuccs B)
    ∧ (length es ≤ length (bSuccs B))%nat.
Proof.
  exact (proj2 (proj2 (proj2 (proj2 (proj2 (proj2
    (propagate_adds_successor_edges (init progS1) 0%nat
       (addEdges (init progS1) [mkEdge 0 1]) eq_refl))))))).
Defined.

(** X2.  On a block that does not branch on a value, [propagate] does not
    look at the lattice: Exit, Ret, RetJmp and Invalid blocks enqueue
    nothing, a Defer block enqueues every successor edge, a Plain or First
    block enqueues the edge to its first successor and panics when it has
    none, and a block of any other kind is a fatal error. *)
Theorem propagate_unconditional (t : worklist) (b : BlockID) (B : Block)
    (Hb : Blocks (wl_f t) !! b = Some B) :
  (bKind B ∈ [BlockExit; BlockRet; BlockRetJmp; BlockInvalid] → propagate t b = Ok t)
  ∧ (bKind B = BlockDefer →
       propagate t b = Ok (addEdges t (map (mkEdge b) (bSuccs B))))
  ∧ (bKind B ∈ [BlockPlain; BlockFirst] →
       propagate t b = match bSuccs B with
                       | s :: _ => Ok (addEdges t [mkEdge b s])
                       | [] => Abort Panic
                       end)
  ∧ (∀ code, bKind B = BlockOther code → propagate t b = Abort FatalBlockKind).
Proof.
  unfold propagate, getBlock. rewrite Hb; simpl.
  split; [|split; [|split]].
  - rewrite !elem_of_cons, elem_of_nil. intros [->|[->|[->|[->|[]]]]]; done.
  - by intros ->.
  - rewrite !elem_of_cons, elem_of_nil. intros [->|[->|[]]]; by destruct (bSuccs B).
  - by intros code ->.
Qed.

Lemma propagate_unconditional_witness :
  propagate (init progS1) 0 = Ok (addEdges (init progS1) [mkEdge 0 1]).
Proof.
  apply (proj1 (proj2 (proj2 (propagate_unconditional (init progS1) 0%nat
           (mkBlock BlockPlain [1%nat] [] [0; 1; 2]%nat [] BranchUnknown) eq_refl)))).
  simpl. apply list_elem_of_here.
Defined.

(** X3.  On a JumpTable block the literal of a Const condition is the number
    of the successor that is enqueued, taken as it is; a literal that is
    negative or not below the number of successors makes the index
    expression panic.  A Bottom condition enqueues every successor and a
    Top condition none. *)
Theorem propagate_JumpTable (t : worklist) (b : BlockID) (B : Block) (c : ID)
    (Hb : Blocks (wl_f t) !! b = Some B)
    (Hkind : bKind B = BlockJumpTable)
    (Hctl : bControls B !! 0%nat = Some c) :
  (tag (getLatticeCell t c) = bottom →
     propagate t b = Ok (addEdges t (map (mkEdge b) (bSuccs B))))
  ∧ (tag (getLatticeCell t c) = top → propagate t b = Ok t)
  ∧ (tag (getLatticeCell t c) = constant →
     ∀ k K, val (getLatticeCell t c) = Some k → Vals (wl_f t) !! k = Some K →
       (∀ s, 0 ≤ vAuxInt K → bSuccs B !! Z.to_nat (vAuxInt K) = Some s →
          propagate t b = Ok (addEdges t [mkEdge b s]))
       ∧ (vAuxInt K < 0 ∨ Z.of_nat (length (bSuccs B)) ≤ vAuxInt K →
          propagate t b = Abort Panic)).
Proof.
  assert (Hi : index (bControls B) 0 = Ok c) by (by apply index_Ok).
  unfold propagate, getBlock. rewrite Hb; simpl. rewrite Hkind, Hi; simpl.
  split; [|split].
  - by intros ->.
  - by intros ->.
  - intros -> k K -> HK; simpl. rewrite HK; simpl. split.
    + intros s Hpos Hs.
      assert (index (bSuccs B) (vAuxInt K) = Ok s) as -> by (by apply index_Ok). done.
    + intros Hout. unfold index. case_decide; [|done].
      destruct Hout as [?|Hge]; [lia|].
      rewrite (lookup_ge_None_2 (bSuccs B)) by lia. done.
Qed.

Lemma propagate_JumpTable_witness :
  propagate (set_cell (built progJump) 0 (Const (Some 0%nat))) 0
    = Ok (addEdges (set_cell (built progJump) 0 (Const (Some 0%nat))) [mkEdge 0 3]).
Proof.
  apply (proj1 (proj2 (proj2 (propagate_JumpTable
           (set_cell (built progJump) 0 (Const (Some 0%nat))) 0%nat
           (mkBlock BlockJumpTable [1; 2; 3]%nat [] [0%nat] [0%nat] BranchUnknown) 0%nat
           eq_refl eq_refl eq_refl)) eq_refl 0%nat (mkV OpConst64 2 [] 0 1) eq_refl eq_refl));
    [simpl; lia | reflexivity].
Defined.

(** X4.  On an If block with two successors, a Const condition whose
    literal is neither 0 nor 1 makes [propagate] panic: the successor index
    [1 - AuxInt] is out of range. *)
Theorem propagate_If_bad_literal (t : worklist) (b : BlockID) (B : Block) (c k : ID)
    (K : Value) (s0 s1 : BlockID)
    (Hb : Blocks (wl_f t) !! b = Some B)
    (Hkind : bKind B = BlockIf)
    (Hctl : bControls B !! 0%nat = Some c)
    (Hsuccs : bSuccs B = [s0; s1])
    (Htag : tag (getLatticeCell t c) = constant)
    (Hk : val (getLatticeCell t c) = Some k)
    (HK : Vals (wl_f t) !! k = Some K)
    (Hrange : - 2^63 ≤ vAuxInt K < 2^63)
    (Hbad : vAuxInt K ≠ 0 ∧ vAuxInt K ≠ 1) :
  propagate t b = Abort Panic.
Proof.
  assert (Hi : index (bControls B) 0 = Ok c) by (by apply index_Ok).
  unfold propagate, getBlock. rewrite Hb; simpl. rewrite Hkind, Hi; simpl.
  rewrite Htag, Hk; simpl. rewrite HK; simpl. rewrite Hsuccs.
  unfold index. case_decide as Hpos; [|done].
  rewrite lookup_ge_None_2; [done|]. simpl.
  revert Hpos. unfold int64.
  destruct (decide (vAuxInt K = - 2^63)) as [->|Hne]; [by vm_compute|].
  destruct (decide (vAuxInt K = - 2^63 + 1)) as [->|Hne']; [by vm_compute|].
  rewrite Z.mod_small by lia. lia.
Qed.

Lemma propagate_If_bad_literal_witness :
  propagate (set_cell (built progBadIf) 0 (Const (Some 0%nat))) 0 = Abort Panic.
Proof.
  apply (propagate_If_bad_literal (set_cell (built progBadIf) 0 (Const (Some 0%nat))) 0%nat
           (mkBlock BlockIf [1; 2]%nat [] [0%nat] [0%nat] BranchUnknown) 0%nat 0%nat
           (mkV OpConst32 5 [] 0 1) 1%nat 2%nat eq_refl eq_refl eq_refl eq_refl eq_refl
           eq_refl eq_refl); simpl; lia.
Defined.

(** X5.  [addUses] appends the users of the value to the value worklist in
    the order of the def-use index, leaving out the value itself where it
    is its own user, and runs [propagate] on the blocks the value
    controls: the edges it appends leave those blocks.  Nothing else
    changes. *)
Theorem addUses_effect (t : worklist) (v : ID) (t' : worklist)
    (Hrun : addUses t v = Ok t') :
  wl_f t' = wl_f t ∧ wl_visited t' = wl_visited t
  ∧ wl_latticeCells t' = wl_latticeCells t
  ∧ wl_defUse t' = wl_defUse t ∧ wl_defBlock t' = wl_defBlock t
  ∧ wl_uses t' = wl_uses t ++ filter (λ use, v ≠ use) (default [] (wl_defUse t !! v))
  ∧ (v ∉ drop (length (wl_uses t)) (wl_uses t'))
  ∧ ∃ es, wl_edges t' = wl_edges t ++ es
      ∧ ∀ e, e ∈ es →
          (start e ∈ default [] (wl_defBlock t !! v)) ∧ succEdge (wl_f t) e.
Proof.
  unfold addUses in Hrun. apply range_propagate_Ok_edges in Hrun as (es & -> & Hes).
  simpl. do 6 (split; [done|]). split.
  - rewrite drop_app_length. intros [Hne _]%list_elem_of_filter. done.
  - exists es. split; [done|]. intros e He. destruct (Hes e He) as [Hs Hd]. done.
Qed.

Lemma addUses_effect_witness :
  wl_uses (set_uses (built progS1) [2%nat]) = wl_uses (built progS1) ++ [2%nat].
Proof.
  refine (eq_trans (proj1 (proj2 (proj2 (proj2 (proj2 (proj2
    (addUses_effect (built progS1) 0%nat (set_uses (built progS1) [2%nat]) _)))))) ) _);
    vm_compute; reflexivity.
Defined.

Lemma isFoldable_cases op :
  isFoldable op = true → isConstOp op = false ∧ op ≠ OpCopy ∧ op ≠ OpPhi.
Proof. by destruct op. Qed.

Lemma getLatticeCell_set_cell_eq t v c : getLatticeCell (set_cell t v c) v = c.
Proof. unfold getLatticeCell; simpl. by rewrite lookup_insert_eq. Qed.

Lemma lattice_changed (a b : lattice) : (tag a ≠ tag b ∨ val a ≠ val b) ↔ a ≠ b.
Proof.
  destruct a as [ta va], b as [tb vb]; simpl. split.
  - intros [?|?] [= ? ?]; done.
  - intros Hne. destruct (decide (ta = tb)) as [->|]; [|by left]. right. congruence.
Qed.

(** [visitValue] when the switch stores [c] without touching anything else. *)
Lemma visitValue_stores rw t v c :
  visitValue_switch rw t v = Ok (set_cell t v c) →
  visitValue rw t v =
    if bool_decide (c ≠ getLatticeCell t v) then addUses (set_cell t v c) v
    else Ok (set_cell t v c).
Proof.
  intros Hsw. unfold visitValue. rewrite Hsw; simpl. rewrite getLatticeCell_set_cell_eq.
  apply (f_equal (λ b : bool, if b then _ else _)).
  apply bool_decide_ext, lattice_changed.
Qed.

Lemma set_cell_same t v :
  is_Some (wl_latticeCells t !! v) → set_cell t v (getLatticeCell t v) = t.
Proof.
  intros [c Hc]. unfold set_cell, getLatticeCell. rewrite Hc.
  rewrite insert_id by done. by destruct t.
Qed.

Lemma getLatticeCell_Some t v c : tag c ≠ top → getLatticeCell t v = c → wl_latticeCells t !! v = Some c.
Proof.
  unfold getLatticeCell. destruct (wl_latticeCells t !! v); [by intros _ ->|].
  by intros Hne <-.
Qed.

Lemma visitValue_keeps rw t v t' :
  visitValue rw t v = Ok t' →
  extendsF (wl_f t) (wl_f t') ∧ wl_visited t' = wl_visited t
  ∧ is_Some (wl_latticeCells t' !! v).
Proof.
  intros (f' & c & us & es & -> & Hext & _)%visitValue_frame. simpl.
  split; [done|]. split; [done|]. by rewrite lookup_insert_eq.
Qed.

(** X6.  What one visit writes: the cell of the visited value and nothing
    else in the table; probes at the end of the heap, which the entry
    block lists after the values it had, every block being otherwise as it
    was; entries at the end of the two worklists.  The users of the value
    are enqueued exactly when its cell has changed, and the visited marks
    and the def-use index are not touched. *)
Theorem visitValue_effect (rw : Func → Value → Value * bool) (t : worklist) (v : ID)
    (t' : worklist)
    (Hrun : visitValue rw t v = Ok t') :
  extendsF (wl_f t) (wl_f t')
  ∧ wl_visited t' = wl_visited t
  ∧ wl_defUse t' = wl_defUse t ∧ wl_defBlock t' = wl_defBlock t
  ∧ (∀ w, w ≠ v → wl_latticeCells t' !! w = wl_latticeCells t !! w)
  ∧ is_Some (wl_latticeCells t' !! v)
  ∧ (∃ es, wl_edges t' = wl_edges t ++ es)
  ∧ wl_uses t' = wl_uses t ++
      (if decide (getLatticeCell t' v = getLatticeCell t v) then []
       else filter (λ use, v ≠ use) (default [] (wl_defUse t !! v))).
Proof.
  destruct (visitValue_frame _ _ _ _ Hrun) as (f' & c & us & es & -> & Hext & _ & Hsame & Hchg).
  simpl. split; [done|]. do 3 (split; [done|]).
  split; [intros w Hw; by rewrite lookup_insert_ne|].
  split; [by rewrite lookup_insert_eq|].
  split; [by exists es|].
  assert (Hcell : getLatticeCell
            (addEdges (set_uses (set_cell (set_f t f') v c) (wl_uses t ++ us)) es) v = c)
    by apply getLatticeCell_set_cell_eq.
  case_decide as Hc; rewrite Hcell in Hc; [by rewrite Hsame | by rewrite Hchg].
Qed.

Lemma visitValue_effect_witness :
  wl_uses (set_uses (set_cell (built progS1) 0 (Const (Some 0%nat))) [2%nat])
    = wl_uses (built progS1) ++ [2%nat].
Proof.
  refine (eq_trans (proj2 (proj2 (proj2 (proj2 (proj2 (proj2 (proj2
    (visitValue_effect foldRules (built progS1) 0%nat
       (set_uses (set_cell (built progS1) 0 (Const (Some 0%nat))) [2%nat]) _)))))))) _);
    vm_compute; reflexivity.
Defined.

(** X7.  A constant literal gets the cell Const of itself, and from then on
    a visit changes nothing: the state is returned as it is and no user is
    enqueued. *)
Theorem visitValue_literal (rw : Func → Value → Value * bool) (t : worklist) (v : ID)
    (V : Value)
    (HV : Vals (wl_f t) !! v = Some V)
    (Hc : isConst V = true) :
  visitValue_switch rw t v = Ok (set_cell t v (Const (Some v)))
  ∧ (getLatticeCell t v = Const (Some v) → visitValue rw t v = Ok t)
  ∧ (∀ t', visitValue rw t v = Ok t' →
       getLatticeCell t' v = Const (Some v) ∧ wl_f t' = wl_f t
       ∧ visitValue rw t' v = Ok t').
Proof.
  assert (Hsw : ∀ t0, wl_f t0 = wl_f t →
            visitValue_switch rw t0 v = Ok (set_cell t0 v (Const (Some v)))).
  { intros t0 Hf. unfold visitValue_switch, getValue. rewrite Hf, HV; simpl. by rewrite Hc. }
  assert (Hstable : ∀ t0, wl_f t0 = wl_f t → getLatticeCell t0 v = Const (Some v) →
            visitValue rw t0 v = Ok t0).
  { intros t0 Hf Hcell. rewrite (visitValue_stores _ _ _ _ (Hsw t0 Hf)).
    rewrite bool_decide_eq_false_2 by (by rewrite Hcell; intros []).
    rewrite <- Hcell at 1. rewrite set_cell_same; [done|].
    exists (Const (Some v)). by apply getLatticeCell_Some. }
  split; [by apply Hsw|]. split; [by apply Hstable|].
  intros t'. rewrite (visitValue_stores _ _ _ _ (Hsw t eq_refl)).
  assert (Hgoal : ∀ es us,
    let t1 := addEdges (set_uses (set_cell t v (Const (Some v))) us) es in
    getLatticeCell t1 v = Const (Some v) ∧ wl_f t1 = wl_f t ∧ visitValue rw t1 v = Ok t1).
  { intros es us t1.
    assert (Hcell : getLatticeCell t1 v = Const (Some v)) by apply getLatticeCell_set_cell_eq.
    split; [done|]. split; [done|]. by apply Hstable. }
  case_bool_decide.
  - intros (es & ->)%addUses_frame. apply Hgoal.
  - intros [= <-]. specialize (Hgoal [] (wl_uses t)). simpl in Hgoal.
    rewrite addEdges_nil in Hgoal.
    replace (set_uses (set_cell t v (Const (Some v))) (wl_uses t))
      with (set_cell t v (Const (Some v))) in Hgoal by done.
    exact Hgoal.
Qed.

Lemma visitValue_literal_witness :
  visitValue_switch foldRules (built progS1) 0
    = Ok (set_cell (built progS1) 0 (Const (Some 0%nat))).
Proof.
  exact (proj1 (visitValue_literal foldRules (built progS1) 0%nat (mkV OpConst32 5 [] 0 1)
                  eq_refl eq_refl)).
Defined.

(** X8.  A value whose opcode is none of the literals, Copy, Phi or the
    evaluated binary opcodes gets the cell Bottom whatever its arguments
    are; the evaluator is not consulted and the function is left as it
    was. *)
Theorem visitValue_unsupported (rw : Func → Value → Value * bool) (t : worklist) (v : ID)
    (V : Value)
    (HV : Vals (wl_f t) !! v = Some V)
    (Hnc : isConst V = false)
    (Hcopy : vOp V ≠ OpCopy)
    (Hphi : vOp V ≠ OpPhi)
    (Hnf : isFoldable (vOp V) = false) :
  visitValue_switch rw t v = Ok (set_cell t v Bottom)
  ∧ (∀ rw', visitValue rw' t v = visitValue rw t v)
  ∧ (∀ t', visitValue rw t v = Ok t' →
       getLatticeCell t' v = Bottom ∧ wl_f t' = wl_f t).
Proof.
  assert (Hsw : ∀ rw0, visitValue_switch rw0 t v = Ok (set_cell t v Bottom)).
  { intros rw0. unfold visitValue_switch, getValue. rewrite HV; simpl. rewrite Hnc.
    rewrite switch_other by done. by rewrite Hnf. }
  split; [apply Hsw|]. split.
  - intros rw'. by rewrite !(visitValue_stores _ _ _ _ (Hsw _)).
  - intros t'. rewrite (visitValue_stores _ _ _ _ (Hsw _)). case_bool_decide.
    + intros (es & ->)%addUses_frame. split; [apply getLatticeCell_set_cell_eq | done].
    + intros [= <-]. split; [apply getLatticeCell_set_cell_eq | done].
Qed.

Lemma visitValue_unsupported_witness :
  visitValue_switch foldRules (built progIf) 3 = Ok (set_cell (built progIf) 3 Bottom).
Proof.
  apply (visitValue_unsupported foldRules (built progIf) 3%nat (mkV (OpOther 0) 0 [] 0 1));
    [reflexivity | reflexivity | discriminate | discriminate | reflexivity].
Defined.

(** X9.  A binary value one of whose operands has a cell that is not Const
    -- Bottom, or still Top because the operand has not been visited --
    gets the cell Bottom.  The evaluator is not consulted and the function
    is left as it was. *)
Theorem visitValue_operand_not_const (rw : Func → Value → Value * bool) (t : worklist)
    (v : ID) (V : Value) (a0 a1 : ID)
    (HV : Vals (wl_f t) !! v = Some V)
    (Hf : isFoldable (vOp V) = true)
    (Ha0 : vArgs V !! 0%nat = Some a0)
    (Ha1 : vArgs V !! 1%nat = Some a1)
    (Hnc : tag (getLatticeCell t a0) ≠ constant ∨ tag (getLatticeCell t a1) ≠ constant) :
  visitValue_switch rw t v = Ok (set_cell t v Bottom)
  ∧ (∀ rw', visitValue rw' t v = visitValue rw t v)
  ∧ (∀ t', visitValue rw t v = Ok t' →
       getLatticeCell t' v = Bottom ∧ wl_f t' = wl_f t).
Proof.
  destruct (isFoldable_cases _ Hf) as (Hncst & _ & _).
  assert (Hsw : ∀ rw0, visitValue_switch rw0 t v = Ok (set_cell t v Bottom)).
  { intros rw0. rewrite (visitValue_switch_foldable rw0 t v V HV Hncst Hf).
    unfold visitBinary.
    assert (index (vArgs V) 0 = Ok a0) as -> by (by apply index_Ok).
    assert (index (vArgs V) 1 = Ok a1) as -> by (by apply index_Ok).
    simpl. destruct (decide (tag (getLatticeCell t a0) = constant)) as [H0|H0].
    - rewrite (bool_decide_eq_true_2 _ H0); simpl.
      destruct Hnc as [?|H1]; [done|]. by rewrite (bool_decide_eq_false_2 _ H1).
    - by rewrite (bool_decide_eq_false_2 _ H0). }
  split; [apply Hsw|]. split.
  - intros rw'. by rewrite !(visitValue_stores _ _ _ _ (Hsw _)).
  - intros t'. rewrite (visitValue_stores _ _ _ _ (Hsw _)). case_bool_decide.
    + intros (es & ->)%addUses_frame. split; [apply getLatticeCell_set_cell_eq | done].
    + intros [= <-]. split; [apply getLatticeCell_set_cell_eq | done].
Qed.

Lemma visitValue_operand_not_const_witness :
  visitValue_switch foldRules (built progS1) 2 = Ok (set_cell (built progS1) 2 Bottom).
Proof.
  apply (visitValue_operand_not_const foldRules (built progS1) 2%nat
           (mkV OpAdd32 0 [0; 1]%nat 0 0) 0%nat 1%nat);
    [reflexivity | reflexivity | reflexivity | reflexivity | left; vm_compute; discriminate].
Defined.

(** X10.  A Copy gets the cell of its argument as it is at the time of the
    visit -- an explicit Top when the argument has no cell yet.  The
    evaluator is not consulted and the function is left as it was.  A Copy
    without an argument makes the visit panic. *)
Theorem visitValue_Copy (rw : Func → Value → Value * bool) (t : worklist) (v : ID)
    (V : Value)
    (HV : Vals (wl_f t) !! v = Some V)
    (Hop : vOp V = OpCopy) :
  (∀ a0, vArgs V !! 0%nat = Some a0 →
     visitValue_switch rw t v = Ok (set_cell t v (getLatticeCell t a0))
     ∧ ∀ t', visitValue rw t v = Ok t' →
         getLatticeCell t' v = getLatticeCell t a0 ∧ wl_f t' = wl_f t)
  ∧ (vArgs V = [] → visitValue rw t v = Abort Panic)
  ∧ (∀ rw', visitValue rw' t v = visitValue rw t v).
Proof.
  assert (Hsw : ∀ rw0, visitValue_switch rw0 t v =
            (a0 ← index (vArgs V) 0; mret (set_cell t v (getLatticeCell t a0)))).
  { intros rw0. unfold visitValue_switch, getValue, isConst. rewrite HV; simpl.
    by rewrite Hop. }
  split; [|split].
  - intros a0 Ha0.
    assert (Hsw' : ∀ rw0, visitValue_switch rw0 t v
                            = Ok (set_cell t v (getLatticeCell t a0))).
    { intros rw0. rewrite Hsw.
      assert (index (vArgs V) 0 = Ok a0) as -> by (by apply index_Ok). done. }
    split; [apply Hsw'|]. intros t'. rewrite (visitValue_stores _ _ _ _ (Hsw' _)).
    case_bool_decide.
    + intros (es & ->)%addUses_frame. split; [apply getLatticeCell_set_cell_eq | done].
    + intros [= <-]. split; [apply getLatticeCell_set_cell_eq | done].
  - intros Hnil. unfold visitValue. rewrite Hsw, Hnil. done.
  - intros rw'. unfold visitValue. by rewrite !Hsw.
Qed.

Lemma visitValue_Copy_witness :
  visitValue_switch foldRules (built progSpin) 3
    = Ok (set_cell (built progSpin) 3 (getLatticeCell (built progSpin) 2)).
Proof.
  exact (proj1 (proj1 (visitValue_Copy foldRules (built progSpin) 3%nat
                         (mkV OpCopy 0 [2%nat] 0 1) eq_refl eq_refl) 2%nat eq_refl)).
Defined.

(** X11.  Each evaluation of a binary value with Const operands allocates one
    probe at the end of the heap and keeps it, whether a rule matched or
    not.  When a rule matched the new cell is Const of that probe, which
    no cell held before: the visit counts as a change even if the value
    already was Const of an equal literal, and its users are enqueued
    again. *)
Theorem visitValue_fold_is_a_change (rw : Func → Value → Value * bool) (t : worklist)
    (v : ID) (V : Value) (a0 a1 : ID) (f' : Func) (n : ID) (m : bool)
    (Hlit : cellsLiteral t)
    (HV : Vals (wl_f t) !! v = Some V)
    (Hf : isFoldable (vOp V) = true)
    (Ha0 : vArgs V !! 0%nat = Some a0)
    (Ha1 : vArgs V !! 1%nat = Some a1)
    (Hc0 : tag (getLatticeCell t a0) = constant)
    (Hc1 : tag (getLatticeCell t a1) = constant)
    (Hdz : isDivByZero (wl_f t) (vOp V) (val (getLatticeCell t a1)) = Ok false)
    (Hfold : computeConstValue rw (wl_f t) v
               [val (getLatticeCell t a0); val (getLatticeCell t a1)] = Ok (f', n, m)) :
  n = length (Vals (wl_f t))
  ∧ length (Vals f') = S n
  ∧ visitValue_switch rw t v =
      Ok (set_cell (set_f t f') v (if m then Const (Some n) else Bottom))
  ∧ (m = true →
       getLatticeCell t v ≠ Const (Some n)
       ∧ visitValue rw t v = addUses (set_cell (set_f t f') v (Const (Some n))) v).
Proof.
  destruct (isFoldable_cases _ Hf) as (Hncst & _ & _).
  destruct (computeConstValue_Ok _ _ _ _ _ _ _ Hfold) as (Hn & P & Hf' & _).
  assert (Hsw : visitValue_switch rw t v =
            Ok (set_cell (set_f t f') v (if m then Const (Some n) else Bottom))).
  { rewrite (visitValue_switch_foldable rw t v V HV Hncst Hf). unfold visitBinary.
    assert (index (vArgs V) 0 = Ok a0) as -> by (by apply index_Ok).
    assert (index (vArgs V) 1 = Ok a1) as -> by (by apply index_Ok).
    simpl. rewrite (bool_decide_eq_true_2 _ Hc0), (bool_decide_eq_true_2 _ Hc1); simpl.
    rewrite Hdz; simpl. rewrite Hfold; simpl. by destruct m. }
  split; [done|]. split; [rewrite Hf'; simpl; rewrite length_app; simpl; lia|].
  split; [done|]. intros ->.
  assert (Hold : getLatticeCell t v ≠ Const (Some n)).
  { intros Hcell. apply getLatticeCell_Some in Hcell; [|done].
    destruct (Hlit _ _ Hcell eq_refl) as (k & K & [= <-] & HK & _).
    apply lookup_lt_Some in HK. lia. }
  split; [done|]. unfold visitValue. rewrite Hsw; simpl.
  rewrite getLatticeCell_set_cell_eq.
  rewrite bool_decide_eq_true_2; [done|]. apply lattice_changed. by intros Heq.
Qed.

Lemma visitValue_fold_is_a_change_witness :
  visitValue foldRules stateS1 2
    = addUses (set_cell (set_f stateS1
                 (withProbe progS1 (mkValue OpConst32 0 12 [] 0 0 0)))
                 2 (Const (Some 3%nat))) 2.
Proof.
  refine (proj2 (proj2 (proj2 (proj2 (visitValue_fold_is_a_change foldRules stateS1 2%nat
            (mkV OpAdd32 0 [0; 1]%nat 0 0) 0%nat 1%nat
            (withProbe progS1 (mkValue OpConst32 0 12 [] 0 0 0)) 3%nat true
            _ eq_refl eq_refl eq_refl eq_refl eq_refl eq_refl eq_refl eq_refl))) eq_refl)).
  intros w lt Hw Htag. unfold stateS1 in Hw; simpl in Hw.
  apply lookup_insert_Some in Hw as [[<- <-]|[_ Hw]].
  { exists 1%nat, (mkV OpConst32 7 [] 0 1). repeat split. }
  apply lookup_insert_Some in Hw as [[<- <-]|[_ Hw]].
  { exists 0%nat, (mkV OpConst32 5 [] 0 1). repeat split. }
  vm_compute in Hw. discriminate Hw.
Defined.

(** X12.  [computeConstValue] on arguments that are not nil: the rewriter is
    run on a probe that has the opcode, type and position of the value and
    the given arguments, allocated at the end of the heap and listed last
    in the entry block; the call is fatal exactly when the rewriter
    reports a match and leaves an opcode that is not a constant literal;
    otherwise the probe, as rewritten, is the new last object of the heap
    and is returned with the rewriter's answer.  A nil argument makes the
    call panic. *)
Theorem computeConstValue_outcome (rw : Func → Value → Value * bool) (f : Func) (v : ID)
    (V : Value) (args : list ID)
    (HV : Vals f !! v = Some V) :
  let P := mkValue (vOp V) (vType V) 0 args (Entry f) 0 (vPos V) in
  let f2 := withProbe f P in
  computeConstValue rw f v (Some <$> args) =
    (if (rw f2 P).2 && negb (isConst (rw f2 P).1) then Abort (FatalNotConst v)
     else Ok (withProbe f (rw f2 P).1, length (Vals f), (rw f2 P).2))
  ∧ ∀ args', None ∈ args' → computeConstValue rw f v args' = Abort Panic.
Proof.
  intros P f2.
  assert (Hloop : ∀ acc, range_loop (λ (acc : list ID) (a : option ID),
                      x ← orPanic a; mret (acc ++ [x])) acc (Some <$> args) = Ok (acc ++ args)).
  { induction args as [|a args IH]; intros acc; simpl; [by rewrite app_nil_r|].
    rewrite IH. by rewrite <- app_assoc. }
  assert (Hloop' : ∀ args' acc, None ∈ args' → range_loop (λ (acc : list ID) (a : option ID),
                      x ← orPanic a; mret (acc ++ [x])) acc args' = Abort Panic).
  { induction args' as [|a args' IH]; intros acc Hin; [by apply elem_of_nil in Hin|].
    destruct a as [a|]; simpl; [|done]. apply IH.
    apply elem_of_cons in Hin as [?|?]; done. }
  split.
  - unfold computeConstValue, getValue. rewrite HV; simpl.
    unfold AddArgs, getValue; simpl. rewrite lookup_end; simpl. rewrite Hloop; simpl.
    unfold setValue; simpl. rewrite insert_end. rewrite lookup_end; simpl.
    fold P. change (set_Vals _ (Vals f ++ [P])) with f2.
    destruct (rw f2 P) as [P' matched]; simpl. rewrite insert_end.
    by destruct (matched && negb (isConst P')).
  - intros args' Hin. unfold computeConstValue, getValue. rewrite HV; simpl.
    unfold AddArgs, getValue; simpl. rewrite lookup_end; simpl. by rewrite Hloop'.
Qed.

Lemma computeConstValue_outcome_witness :
  computeConstValue foldRules progS1 2 [Some 0%nat; Some 1%nat]
    = Ok (withProbe progS1 (mkValue OpConst32 0 12 [] 0 0 0), 3%nat, true).
Proof.
  exact (proj1 (computeConstValue_outcome foldRules progS1 2%nat
                  (mkV OpAdd32 0 [0; 1]%nat 0 0) [0; 1]%nat eq_refl)).
Defined.

(** X13.  The three outcomes of [meet], each characterised by the cells of
    the list: Top exactly when every cell is Top; Const(a) exactly when
    some cell is Const and every cell is Top or Const(a); Bottom exactly
    when some cell is Bottom or two Const cells hold different pointers. *)
Theorem meet_outcomes (l : list lattice) :
  (meet l = Top ↔ Forall (λ x, tag x = top) l)
  ∧ (∀ a, meet l = Const a ↔ Forall (agrees a) l ∧ ∃ x, x ∈ l ∧ tag x = constant)
  ∧ (meet l = Bottom ↔
       (∃ x, x ∈ l ∧ tag x = bottom)
       ∨ (∃ x y, x ∈ l ∧ y ∈ l ∧ tag x = constant ∧ tag y = constant ∧ val x ≠ val y))
  ∧ (meet l = Top ∨ meet l = Bottom ∨ ∃ a, meet l = Const a).
Proof.
  split; [apply meet_Top|]. split; [intros a; apply meet_Const|].
  split; [apply meet_Bottom | apply meet_cases].
Qed.

(** ** A turn of the loop only adds to the state *)

Lemma advances_refl t : advances t t.
Proof.
  split; [apply extendsF_refl|]. do 2 (split; [done|]).
  split; [exists []; by rewrite app_nil_r|].
  split; [|done]. exists []. rewrite app_nil_r. split; [done|].
  intros e He. by apply elem_of_nil in He.
Qed.

Lemma succEdge_ext f f' e : extendsF f f' → succEdge f' e ↔ succEdge f e.
Proof.
  intros Hext. split.
  - intros (B' & HB' & Hd).
    destruct (extendsF_block_inv _ _ _ _ Hext HB') as (B & vs & HB & ->). by exists B.
  - intros (B & HB & Hd).
    destruct (extendsF_block _ _ _ _ Hext HB) as (vs & HB' & _). by eexists.
Qed.

Lemma advances_trans t1 t2 t3 : advances t1 t2 → advances t2 t3 → advances t1 t3.
Proof.
  intros (Hx1 & Hdu1 & Hdb1 & [us1 Hu1] & (es1 & He1 & Hs1) & Hv1 & Hc1)
         (Hx2 & Hdu2 & Hdb2 & [us2 Hu2] & (es2 & He2 & Hs2) & Hv2 & Hc2).
  split; [by eapply extendsF_trans|].
  split; [congruence|]. split; [congruence|].
  split; [exists (us1 ++ us2); by rewrite Hu2, Hu1, app_assoc|].
  split; [|split; [by auto | by auto]].
  exists (es1 ++ es2). split; [by rewrite He2, He1, app_assoc|].
  intros e [He|He]%elem_of_app; [by auto|].
  apply (succEdge_ext _ _ _ Hx1). by apply Hs2.
Qed.

Lemma advances_addEdges t es :
  (∀ e, e ∈ es → succEdge (wl_f t) e) → advances t (addEdges t es).
Proof.
  intros Hes. split; [apply extendsF_refl|]. do 2 (split; [done|]).
  split; [exists []; simpl; by rewrite app_nil_r|].
  split; [|done]. by exists es.
Qed.

Lemma propagate_advances t b t' : propagate t b = Ok t' → advances t t'.
Proof.
  intros (B & es & HB & -> & Hes & _)%propagate_Ok_edges.
  apply advances_addEdges. intros e He. destruct (Hes e He) as [Hs Hd].
  exists B. by rewrite Hs.
Qed.

Lemma addUses_advances t v t' : addUses t v = Ok t' → advances t t'.
Proof.
  unfold addUses. intros (es & -> & Hes)%range_propagate_Ok_edges.
  split; [apply extendsF_refl|]. do 2 (split; [done|]).
  split; [by eexists|]. split; [|done].
  exists es. split; [done|]. intros e He. by destruct (Hes e He) as [_ ?].
Qed.

Lemma visitValue_switch_advances rw t v t' :
  visitValue_switch rw t v = Ok t' → advances t t'.
Proof.
  intros (f' & c & -> & Hext)%visitValue_switch_frame.
  split; [done|]. do 2 (split; [done|]).
  split; [exists []; simpl; by rewrite app_nil_r|].
  split; [exists []; simpl; rewrite app_nil_r; split; [done|];
          intros e He; by apply elem_of_nil in He|].
  split; [done|]. intros w Hw; simpl.
  destruct (decide (v = w)) as [->|Hne];
    [by rewrite lookup_insert_eq | by rewrite lookup_insert_ne].
Qed.

Lemma visitValue_advances rw t v t' : visitValue rw t v = Ok t' → advances t t'.
Proof.
  unfold visitValue. intros (t1 & Hsw%visitValue_switch_advances & H)%bind_Ok.
  case_bool_decide.
  - eapply advances_trans; [done|]. by eapply addUses_advances.
  - by injection H as <-.
Qed.

Lemma visitDestValue_advances rw seen t x t' :
  visitDestValue rw seen t x = Ok t' → advances t t'.
Proof.
  unfold visitDestValue. intros (V & _ & H)%bind_Ok.
  destruct (isPhi V || negb seen).
  - by eapply visitValue_advances.
  - injection H as <-. apply advances_refl.
Qed.

Lemma range_advances {A} (body : worklist → A → result worklist) l t t' :
  (∀ t x t', body t x = Ok t' → advances t t') →
  range_loop body t l = Ok t' → advances t t'.
Proof.
  intros Hbody. revert t. induction l as [|x l IH]; intros t; simpl.
  - intros [= <-]. apply advances_refl.
  - intros (t1 & H1 & H2)%bind_Ok. eapply advances_trans; [by eapply Hbody | by apply IH].
Qed.

Lemma visitEdge_advances rw t e t' :
  visitEdge rw t e = Ok t' →
  advances t t' ∧ is_Some (wl_visited t' !! e)
  ∧ (isVisited t e = true → t' = t).
Proof.
  unfold visitEdge. destruct (isVisited t e) eqn:Hvis.
  - intros [= <-]. split; [apply advances_refl|]. split; [|done].
    by apply bool_decide_eq_true in Hvis.
  - intros (D & _ & (t2 & Hloop & H)%bind_Ok)%bind_Ok.
    set (t1 := set_visited t (<[e:=true]> (wl_visited t))) in *.
    assert (H01 : advances t t1).
    { split; [apply extendsF_refl|]. do 2 (split; [done|]).
      split; [exists []; simpl; by rewrite app_nil_r|].
      split; [exists []; simpl; rewrite app_nil_r; split; [done|];
              intros e' He'; by apply elem_of_nil in He'|].
      split; [|done]. intros e' He'; simpl.
      destruct (decide (e = e')) as [->|Hne];
        [by rewrite lookup_insert_eq | by rewrite lookup_insert_ne]. }
    assert (H12 : advances t1 t2).
    { eapply range_advances; [|done]. intros ???. apply visitDestValue_advances. }
    assert (H2' : advances t2 t').
    { destruct (destVisited t (dest e)).
      - injection H as <-. apply advances_refl.
      - by eapply propagate_advances. }
    assert (H1' : advances t1 t') by (by eapply advances_trans).
    split; [by eapply advances_trans|]. split; [|done].
    destruct H1' as (_ & _ & _ & _ & _ & Hv & _). apply Hv. simpl.
    by rewrite lookup_insert_eq.
Qed.

(** X14.  One turn of the loop of [sccp].  While an edge is pending the turn
    takes the first edge and only appends to the value worklist, so values
    wait until the edge worklist is empty; the edge is visited afterwards,
    and when it already was, the turn does nothing but drop it.  With no
    edge pending the turn takes the first value.  In both cases the rest of
    the state only grows: probes at the end of the heap and of the values
    of the entry block, entries at the end of the worklists, visited marks
    and cells. *)
Theorem step_monotone (rw : Func → Value → Value * bool) (t t' : worklist)
    (Hstep : step rw t = Ok (Some t')) :
  match wl_edges t with
  | e :: es =>
      advances (set_edges t es) t'
      ∧ is_Some (wl_visited t' !! e)
      ∧ (isVisited t e = true → t' = set_edges t es)
  | [] =>
      ∃ use us, wl_uses t = use :: us ∧ advances (set_uses t us) t'
                ∧ is_Some (wl_latticeCells t' !! use)
  end.
Proof.
  unfold step in Hstep. destruct (wl_edges t) as [|e es] eqn:He.
  - destruct (wl_uses t) as [|use us] eqn:Hu; [done|].
    apply bind_Ok in Hstep as (t1 & Hvisit & [= <-]).
    exists use, us. split; [done|]. split; [by eapply visitValue_advances|].
    by destruct (visitValue_keeps _ _ _ _ Hvisit) as (_ & _ & ?).
  - apply bind_Ok in Hstep as (t1 & Hvisit & [= <-]).
    by apply visitEdge_advances in Hvisit.
Qed.

Lemma step_monotone_witness :
  advances (set_edges (built progS1) []) (next foldRules (built progS1))
  ∧ is_Some (wl_visited (next foldRules (built progS1)) !! mkEdge 0 0)
  ∧ (isVisited (built progS1) (mkEdge 0 0) = true →
       next foldRules (built progS1) = set_edges (built progS1) []).
Proof.
  exact (step_monotone foldRules (built progS1) (next foldRules (built progS1))
           ltac:(vm_compute; reflexivity)).
Defined.

Lemma advances_edgesInv f0 t t' : edgesInv f0 t → advances t t' →
  (∀ e, is_Some (wl_visited t' !! e) → cfgEdge f0 e) → edgesInv f0 t'.
Proof.
  intros (Hb & He & _) (Hx & _ & _ & _ & (es & Hes & Hs) & _ & _) Hv.
  split; [by eapply extendsF_trans|]. split; [|done].
  intros e. rewrite Hes. intros [?|?]%elem_of_app; [by auto|].
  right. apply (succEdge_ext _ _ _ Hb). by apply Hs.
Qed.

Lemma visitValue_edgesInv rw f0 t v t' :
  edgesInv f0 t → visitValue rw t v = Ok t' → edgesInv f0 t'.
Proof.
  intros Hinv Hrun. eapply advances_edgesInv; [done | by eapply visitValue_advances |].
  destruct (visitValue_keeps _ _ _ _ Hrun) as (_ & -> & _). by destruct Hinv as (_ & _ & ?).
Qed.

Lemma propagate_edgesInv f0 t b t' :
  edgesInv f0 t → propagate t b = Ok t' → edgesInv f0 t'.
Proof.
  intros Hinv Hrun. eapply advances_edgesInv; [done | by eapply propagate_advances |].
  apply propagate_frame in Hrun as [es ->]. by destruct Hinv as (_ & _ & ?).
Qed.

Lemma visitDestValue_edgesInv rw f0 seen t x t' :
  edgesInv f0 t → visitDestValue rw seen t x = Ok t' → edgesInv f0 t'.
Proof.
  unfold visitDestValue. intros Hinv (V & _ & H)%bind_Ok.
  destruct (isPhi V || negb seen); [by eapply visitValue_edgesInv | by injection H as <-].
Qed.

Lemma visitEdge_edgesInv rw f0 t e t' :
  edgesInv f0 t → cfgEdge f0 e → visitEdge rw t e = Ok t' → edgesInv f0 t'.
Proof.
  intros Hinv Hcfg. unfold visitEdge. destruct (isVisited t e); [by intros [= <-]|].
  intros (D & _ & (t2 & Hloop & H)%bind_Ok)%bind_Ok.
  assert (H1 : edgesInv f0 (set_visited t (<[e:=true]> (wl_visited t)))).
  { destruct Hinv as (Hb & He & Hv). split; [done|]. split; [done|].
    intros e'; simpl. destruct (decide (e = e')) as [<-|Hne]; [done|].
    rewrite lookup_insert_ne by done. apply Hv. }
  assert (H2 : edgesInv f0 t2).
  { eapply (range_loop_inv _ (λ s _, edgesInv f0 s)); [exact H1| |exact Hloop].
    intros s x rest s' Hs Hx. by eapply visitDestValue_edgesInv. }
  destruct (destVisited t (dest e)); [by injection H as <-|].
  by eapply propagate_edgesInv.
Qed.

Lemma step_edgesInv rw f0 t t' :
  edgesInv f0 t → step rw t = Ok (Some t') → edgesInv f0 t'.
Proof.
  intros Hinv. unfold step. destruct (wl_edges t) as [|e es] eqn:He.
  - destruct (wl_uses t) as [|use us]; [done|].
    intros (t1 & Hvisit & [= <-])%bind_Ok. eapply visitValue_edgesInv; [|done].
    destruct Hinv as (Hb & Hes & Hv). split; [done|]. split; [|done].
    exact Hes.
  - intros (t1 & Hvisit & [= <-])%bind_Ok.
    destruct Hinv as (Hb & Hes & Hv). rewrite He in Hes.
    eapply visitEdge_edgesInv; [|apply Hes; left|done].
    split; [done|]. split; [|done]. simpl. intros e' He'. apply Hes. by right.
Qed.

Lemma solve_edgesInv rw f0 fuel t t' :
  edgesInv f0 t → solve rw fuel t = Some (Ok t') → edgesInv f0 t'.
Proof.
  revert t. induction fuel as [|fuel IH]; intros t Hinv; simpl; [done|].
  destruct (step rw t) as [[t1|]|] eqn:Hstep; [|by intros [= <-]|done].
  intros H. eapply IH; [|done]. by eapply step_edgesInv.
Qed.

(** X15.  Every edge the solver has marked visited when its loop ends is the
    edge it starts from, (Entry, Entry), or leads from a block of the
    function to one of the successors of that block. *)
Theorem visited_edges_are_cfg_edges (rw : Func → Value → Value * bool) (fuel : nat)
    (f : Func) (t : worklist)
    (Hsolve : sccp_solve rw fuel f = Some (Ok t)) :
  ∀ e, isVisited t e = true → cfgEdge f e.
Proof.
  unfold sccp_solve in Hsolve.
  destruct (buildDefUses (init f)) as [t0|] eqn:Hbuild; [|done].
  apply buildDefUses_Ok_inv in Hbuild as (du & db & -> & _).
  assert (H0 : edgesInv f (set_defs (init f) du db)).
  { split; [apply extendsF_refl|]. split.
    - intros e ->%list_elem_of_singleton. by left.
    - intros e [x Hx]. simpl in Hx. by rewrite lookup_empty in Hx. }
  destruct (solve_edgesInv _ _ _ _ _ H0 Hsolve) as (_ & _ & Hv).
  intros e He. apply Hv. by apply bool_decide_eq_true in He.
Qed.

Lemma visited_edges_are_cfg_edges_witness : cfgEdge progIf (mkEdge 0 1).
Proof.
  exact (visited_edges_are_cfg_edges foldRules 20 progIf (solved foldRules 20 progIf)
           ltac:(vm_compute; reflexivity) (mkEdge 0 1) ltac:(vm_compute; reflexivity)).
Defined.

(** ** What replaceConst does to the blocks *)

Lemma rewiredFrom_refl B : rewiredFrom B B.
Proof. unfold rewiredFrom. split; [done|]. split; [by left|]. done. Qed.

Lemma rewiredFrom_trans B0 B1 B2 : rewiredFrom B0 B1 → rewiredFrom B1 B2 → rewiredFrom B0 B2.
Proof.
  intros (Hv1 & Hk1 & Hs1 & Hp1 & Hr1) (Hv2 & Hk2 & Hs2 & Hp2 & Hr2).
  split; [congruence|]. split.
  { destruct Hk1 as [Hk1|[Hk1 Hk1']], Hk2 as [Hk2|[Hk2 Hk2']];
      [left; congruence | right; split; congruence | right; split; congruence | congruence]. }
  split; [by etrans|]. split; [by etrans|].
  intros Hne. destruct (Hr1 Hne) as (? & ? & ?).
  assert (bKind B1 ≠ BlockIf) as Hne1 by (destruct Hk1 as [?|[? ?]]; congruence).
  destruct (Hr2 Hne1) as (? & ? & ?). repeat split; congruence.
Qed.

Lemma blocksRewired_refl f : blocksRewired f f.
Proof. do 3 (split; [done|]). intros b B HB. exists B. split; [done | apply rewiredFrom_refl]. Qed.

Lemma blocksRewired_trans f0 f1 f2 :
  blocksRewired f0 f1 → blocksRewired f1 f2 → blocksRewired f0 f2.
Proof.
  intros (Hl1 & He1 & Hn1 & H1) (Hl2 & He2 & Hn2 & H2).
  split; [congruence|]. split; [congruence|]. split; [congruence|].
  intros b B0 HB0. destruct (H1 b B0 HB0) as (B1 & HB1 & Hr1).
  destruct (H2 b B1 HB1) as (B2 & HB2 & Hr2). exists B2. split; [done|].
  by eapply rewiredFrom_trans.
Qed.

Lemma valsRel_length f f' : valsRel f f' → length (Vals f') = length (Vals f).
Proof. by intros [? _]. Qed.

Lemma setBlock_rewired f b B B' :
  Blocks f !! b = Some B → rewiredFrom B B' → blocksRewired f (setBlock f b B').
Proof.
  intros HB Hr. split; [apply length_insert|]. do 2 (split; [done|]).
  intros b' B0 HB0. rewrite lookup_setBlock by eauto. case_decide as Hb.
  - subst b'. rewrite HB in HB0. injection HB0 as <-. by exists B'.
  - exists B0. split; [done | apply rewiredFrom_refl].
Qed.

(** Writing values leaves the blocks as they are. *)
Lemma blocksRewired_same f f' :
  Blocks f' = Blocks f → Entry f' = Entry f → valsRel f f' → blocksRewired f f'.
Proof.
  intros Hb He Hv. split; [by rewrite Hb|]. split; [done|]. split; [by apply valsRel_length|].
  intros b B0 HB. exists B0. rewrite Hb. split; [done | apply rewiredFrom_refl].
Qed.

Lemma removeEdge_rewired f b i B f' :
  Blocks f !! b = Some B → bKind B = BlockIf →
  removeEdge f b i = Ok f' → blocksRewired f f'.
Proof.
  intros HB0 Hkind. unfold removeEdge. intros (B' & HB%orPanic_Ok & H)%bind_Ok.
  rewrite HB0 in HB. injection HB as <-.
  apply bind_Ok in H as (c & _ & H).
  set (B1 := mkBlock _ _ _ _ _ _) in H. set (f1 := setBlock f b B1) in H.
  apply bind_Ok in H as (C & HC%orPanic_Ok & H).
  apply bind_Ok in H as (j & _ & H).
  set (C1 := mkBlock _ _ _ _ _ _) in H. set (f2 := setBlock f1 c C1) in H.
  apply removePhiArgs_frame in H as (Hblocks & Hentry & Hvals).
  assert (H1 : blocksRewired f f1).
  { apply (setBlock_rewired f b B); [done|].
    split; [done|]. split; [by left|]. split; [apply sublist_delete|]. split; [done|].
    simpl. by rewrite Hkind. }
  assert (H2 : blocksRewired f1 f2).
  { apply (setBlock_rewired f1 c C); [done|].
    split; [done|]. split; [by left|]. split; [done|]. split; [apply sublist_delete|]. done. }
  assert (H3 : blocksRewired f2 f') by (by apply blocksRewired_same).
  eapply blocksRewired_trans; [exact H1|]. eapply blocksRewired_trans; [exact H2 | exact H3].
Qed.

Lemma rewire_rewired k f rc b f' rc' :
  rewire k (f, rc) b = Ok (f', rc') → blocksRewired f f'.
Proof.
  unfold rewire; simpl. intros (B & HB%orPanic_Ok & H)%bind_Ok.
  destruct (bKind B) eqn:Hkind; try done.
  - apply bind_Ok in H as (K & _ & H).
    apply bind_Ok in H as (f1 & Hrm & H).
    apply bind_Ok in H as (f2 & Hreset & [= <- <-]).
    pose proof (removeEdge_rewired _ _ _ _ _ HB Hkind Hrm) as H1.
    eapply blocksRewired_trans; [exact H1|].
    destruct (removeEdge_frame _ _ _ _ Hrm) as [_ Hfr].
    destruct (Hfr b B HB) as (B1 & HB1 & Hk & _).
    assert (bKind B1 = BlockIf) as Hk1 by congruence.
    apply resetToPlain_frame in Hreset as (Hv2 & He2 & Hl2 & Hb2).
    split; [done|]. split; [done|]. split; [by apply valsRel_length|].
    intros b' B' HB'. destruct (Hb2 b' B' HB') as (B2 & HB2 & Hvs2 & Hs2 & Hp2 & Hrest).
    exists B2. split; [done|]. destruct (decide (b' = b)) as [->|Hne].
    + rewrite HB1 in HB'. injection HB' as <-. destruct Hrest as (Hk2 & _).
      split; [done|]. split; [by right|]. rewrite Hs2, Hp2. done.
    + subst B2. apply rewiredFrom_refl.
  - injection H as <- <-. apply blocksRewired_refl.
Qed.

Lemma rewire_loop_rewired k bs f rc f' rc' :
  range_loop (rewire k) (f, rc) bs = Ok (f', rc') → blocksRewired f f'.
Proof.
  revert f rc. induction bs as [|b bs IH]; intros f rc; simpl.
  - intros [= <- <-]. apply blocksRewired_refl.
  - intros ([f1 rc1] & H1%rewire_rewired & H2%IH)%bind_Ok. by eapply blocksRewired_trans.
Qed.

Lemma setValue_rewired f p V : blocksRewired f (setValue f p V).
Proof.
  split; [done|]. split; [done|]. split; [apply length_insert|].
  intros b B HB. exists B. split; [done | apply rewiredFrom_refl].
Qed.

Lemma replaceConst_cell_rewired t f cc rc vl f' cc' rc' :
  replaceConst_cell t (f, cc, rc) vl = Ok (f', cc', rc') → blocksRewired f f'.
Proof.
  unfold replaceConst_cell. case_bool_decide as Htag; [|intros [= <- <- <-]; apply blocksRewired_refl].
  intros (V & _ & H)%bind_Ok.
  destruct (isConst V); simpl in H; [injection H as <- <- <-; apply blocksRewired_refl|].
  apply bind_Ok in H as (k & _ & H). apply bind_Ok in H as (K & _ & H).
  apply bind_Ok in H as (f1 & (fm & Vm & Hbm & Hem & Hvm & _ & ->)%reset_Ok & H).
  apply bind_Ok in H as (K' & _ & H). apply bind_Ok in H as (V' & _ & H).
  apply bind_Ok in H as ([f3 rc3] & Hloop%rewire_loop_rewired & [= <- <- <-]).
  eapply blocksRewired_trans; [|exact Hloop].
  eapply blocksRewired_trans; [by apply (blocksRewired_same f fm)|].
  eapply blocksRewired_trans; apply setValue_rewired.
Qed.

Lemma replaceConst_in_rewired t order f' cc rc :
  replaceConst_in order t = Ok (f', cc, rc) → blocksRewired (wl_f t) f'.
Proof.
  unfold replaceConst_in. intros Hrepl. change f' with (f', cc, rc).1.1.
  eapply (range_loop_inv _ (λ s _, blocksRewired (wl_f t) s.1.1)); [| |exact Hrepl].
  - apply blocksRewired_refl.
  - intros [[f1 cc1] rc1] vl rest [[f2 cc2] rc2] Hinv Hcell; simpl in *.
    eapply blocksRewired_trans; [exact Hinv|]. by eapply replaceConst_cell_rewired.
Qed.

(** X16.  What [replaceConst] does to the blocks, whatever the cells are and
    in whatever order they are taken: no block and no value is added or
    removed and the values of each block stay listed as they were; the
    only change of kind is from If to Plain; successors and predecessors
    are only removed; and a block that was not an If keeps its successors,
    its control values and its branch prediction -- in particular a
    JumpTable block whose selector became a constant is not rewired. *)
Theorem replaceConst_blocks (t : worklist) (order : list (ID * lattice)) (f' : Func)
    (cc rc : Z)
    (Hrepl : replaceConst_in order t = Ok (f', cc, rc)) :
  length (Blocks f') = length (Blocks (wl_f t))
  ∧ Entry f' = Entry (wl_f t)
  ∧ length (Vals f') = length (Vals (wl_f t))
  ∧ ∀ b B0, Blocks (wl_f t) !! b = Some B0 →
      ∃ B, Blocks f' !! b = Some B
        ∧ bValues B = bValues B0
        ∧ (bKind B = bKind B0 ∨ (bKind B0 = BlockIf ∧ bKind B = BlockPlain))
        ∧ sublist (bSuccs B) (bSuccs B0)
        ∧ sublist (bPreds B) (bPreds B0)
        ∧ (bKind B0 ≠ BlockIf →
             bSuccs B = bSuccs B0 ∧ bControls B = bControls B0 ∧ bLikely B = bLikely B0).
Proof.
  destruct (replaceConst_in_rewired _ _ _ _ _ Hrepl) as (Hlb & Hle & Hlv & Hblocks).
  do 3 (split; [done|]). intros b B0 HB0.
  destruct (Hblocks b B0 HB0) as (B & HB & Hv & Hk & Hs & Hp & Hrest).
  exists B. split; [exact HB|]. split; [exact Hv|]. split; [exact Hk|].
  split; [exact Hs|]. split; [exact Hp | exact Hrest].
Qed.

Lemma replaceConst_blocks_witness :
  length (Blocks (rewritten foldRules 20 progIf).1.1)
    = length (Blocks (wl_f (solved foldRules 20 progIf))).
Proof.
  assert (Hrepl : replaceConst_in (map_to_list (wl_latticeCells (solved foldRules 20 progIf)))
                    (solved foldRules 20 progIf)
                  = Ok ((rewritten foldRules 20 progIf).1.1,
                        (rewritten foldRules 20 progIf).1.2,
                        (rewritten foldRules 20 progIf).2))
    by (vm_compute; reflexivity).
  exact (proj1 (replaceConst_blocks _ _ _ _ _ Hrepl)).
Defined.

(** ** The solver and the pass from end to end *)

(** X17.  The loop of [sccp] does not rewrite the function: when it ends
    the entry is as it was and so is every value object; the heap has only
    gained probes at its end, which the entry block lists after its own
    values in the order of their allocation; every other block is as it
    was, and the entry block has its kind, edges and control values; the
    def-use index is the one built at the start; and both worklists are
    empty. *)
Theorem sccp_solve_keeps_function (rw : Func → Value → Value * bool) (fuel : nat)
    (f : Func) (t : worklist)
    (Hsolve : sccp_solve rw fuel f = Some (Ok t)) :
  Entry (wl_f t) = Entry f
  ∧ (∃ probes,
       Vals (wl_f t) = Vals f ++ probes
       ∧ Blocks (wl_f t) =
           alter (λ B, addValues B (seq (length (Vals f)) (length probes)))
                 (Entry f) (Blocks f))
  ∧ (∀ p V, Vals f !! p = Some V → Vals (wl_f t) !! p = Some V)
  ∧ (∀ b B, Blocks f !! b = Some B → b ≠ Entry f → Blocks (wl_f t) !! b = Some B)
  ∧ (∀ b B, Blocks f !! b = Some B →
       ∃ B', Blocks (wl_f t) !! b = Some B'
         ∧ bKind B' = bKind B ∧ bSuccs B' = bSuccs B ∧ bPreds B' = bPreds B
         ∧ bControls B' = bControls B ∧ bLikely B' = bLikely B
         ∧ bValues B `prefix_of` bValues B')
  ∧ wl_defUse t = defUseOf f ∧ wl_defBlock t = defBlockOf f
  ∧ wl_edges t = [] ∧ wl_uses t = [].
Proof.
  destruct (sccp_solve_inv _ _ _ _ Hsolve) as ((Hext & Hdu & Hdb & _) & He & Hu).
  pose proof Hext as (Hen & Hprobes).
  do 2 (split; [done|]).
  split; [intros p V HV; by eapply extendsF_lookup|].
  split.
  { intros b B HB Hb. destruct (extendsF_block _ _ _ _ Hext HB) as (vs & HB' & Hvs).
    rewrite HB', (Hvs Hb). by rewrite addValues_nil. }
  split; [|done].
  intros b B HB. destruct (extendsF_block _ _ _ _ Hext HB) as (vs & HB' & _).
  eexists. split; [exact HB'|]. do 5 (split; [done|]). by exists vs.
Qed.

Lemma sccp_solve_keeps_function_witness :
  Blocks (wl_f (solved foldRules 20 progIf)) !! 1%nat
    = Some (mkBlock BlockPlain [2%nat] [0%nat] [4%nat] [] BranchUnknown).
Proof.
  exact (proj1 (proj2 (proj2 (proj2
           (sccp_solve_keeps_function foldRules 20 progIf (solved foldRules 20 progIf)
              ltac:(vm_compute; reflexivity)))))
           1%nat (mkBlock BlockPlain [2%nat] [0%nat] [4%nat] [] BranchUnknown)
           eq_refl ltac:(discriminate)).
Defined.

Lemma turns_inv rw f0 n t t' :
  solveInv f0 (λ _, False) t → turns rw n t = Some t' → solveInv f0 (λ _, False) t'.
Proof.
  revert t. induction n as [|n IH]; intros t Hinv; simpl; [by intros [= <-]|].
  destruct (step rw t) as [[t1|]|] eqn:Hstep; try done.
  apply IH. by eapply step_inv.
Qed.

(** X18.  At every turn of the loop of [sccp], and when the loop ends, every
    cell that is Const holds a pointer to a live value object with a
    constant-literal opcode, so the dereferences [condLattice.val.AuxInt]
    of [propagate] and [lt.val.Op] and [lt.val.AuxInt] of [replaceConst]
    do not meet a nil pointer. *)
Theorem sccp_solve_const_cells (rw : Func → Value → Value * bool) (f : Func)
    (t0 : worklist)
    (Hbuild : buildDefUses (init f) = Ok t0) :
  (∀ n t, turns rw n t0 = Some t →
     ∀ v, tag (getLatticeCell t v) = constant →
       ∃ k K, val (getLatticeCell t v) = Some k
         ∧ Vals (wl_f t) !! k = Some K ∧ isConst K = true)
  ∧ (∀ fuel t, solve rw fuel t0 = Some (Ok t) →
       ∀ v, tag (getLatticeCell t v) = constant →
         ∃ k K, val (getLatticeCell t v) = Some k
           ∧ Vals (wl_f t) !! k = Some K ∧ isConst K = true).
Proof.
  pose proof (buildDefUses_inv f t0 Hbuild) as Hinv0. split.
  - intros n t Hturns v Htag.
    destruct (turns_inv _ _ _ _ _ Hinv0 Hturns) as (_ & _ & _ & Hlit & _).
    by apply getLatticeCell_literal.
  - intros fuel t Hsolve v Htag.
    destruct (solve_inv _ _ _ _ _ Hinv0 Hsolve) as ((_ & _ & _ & Hlit & _) & _).
    by apply getLatticeCell_literal.
Qed.

Lemma sccp_solve_const_cells_witness :
  ∃ k K, val (getLatticeCell (solved foldRules 20 progIf) 2) = Some k
    ∧ Vals (wl_f (solved foldRules 20 progIf)) !! k = Some K ∧ isConst K = true.
Proof.
  exact (proj2 (sccp_solve_const_cells foldRules progIf (built progIf)
                  ltac:(vm_compute; reflexivity))
           20%nat (solved foldRules 20 progIf) ltac:(vm_compute; reflexivity)
           2%nat ltac:(vm_compute; reflexivity)).
Defined.

(** X19.  [sccp] from end to end, when it returns: no block is added or
    removed; each block keeps the values it listed, in their order, the
    entry block alone listing more (the probes); a block is rewired at most
    from If to Plain, edges being only removed; the value objects of the
    function stay where they are, each with its type, block and position,
    the heap having only gained probes; a constant literal keeps its
    opcode, AuxInt and arguments; every other value is either turned into
    a constant literal without arguments or keeps its opcode and AuxInt;
    and no value gains an argument. *)
Theorem sccp_keeps_shape (rw : Func → Value → Value * bool) (fuel : nat) (f f' : Func)
    (Hrun : sccp rw fuel f = Some (Ok f')) :
  length (Blocks f') = length (Blocks f)
  ∧ Entry f' = Entry f
  ∧ (length (Vals f) ≤ length (Vals f'))%nat
  ∧ (∀ b B0, Blocks f !! b = Some B0 →
       ∃ B, Blocks f' !! b = Some B
         ∧ bValues B0 `prefix_of` bValues B
         ∧ (b ≠ Entry f → bValues B = bValues B0)
         ∧ (bKind B = bKind B0 ∨ (bKind B0 = BlockIf ∧ bKind B = BlockPlain))
         ∧ sublist (bSuccs B) (bSuccs B0)
         ∧ sublist (bPreds B) (bPreds B0)
         ∧ (bKind B0 ≠ BlockIf →
              bSuccs B = bSuccs B0 ∧ bControls B = bControls B0 ∧ bLikely B = bLikely B0))
  ∧ (∀ v V, Vals f !! v = Some V →
       ∃ V', Vals f' !! v = Some V'
         ∧ vType V' = vType V ∧ vBlock V' = vBlock V ∧ vPos V' = vPos V
         ∧ sublist (vArgs V') (vArgs V)
         ∧ (isConst V = true →
              vOp V' = vOp V ∧ vAuxInt V' = vAuxInt V ∧ vArgs V' = vArgs V)
         ∧ ((isConst V' = true ∧ vArgs V' = [])
            ∨ (vOp V' = vOp V ∧ vAuxInt V' = vAuxInt V))).
Proof.
  unfold sccp in Hrun. destruct (sccp_solve rw fuel f) as [[t|]|] eqn:Hsolve; [|done|done].
  injection Hrun as Hrun. apply bind_Ok in Hrun as ([[f1 cc] rc] & Hrepl & [= ->]).
  destruct (sccp_solve_inv _ _ _ _ Hsolve) as ((Hext & _ & _ & Hlit & _) & _ & _).
  pose proof Hext as (Hen & probes & Hv & Hb).
  destruct (replaceConst_in_rewired _ _ _ _ _ Hrepl) as (Hlb & Hle & Hlv & Hblocks).
  split; [by rewrite Hlb, Hb, length_alter|]. split; [by rewrite Hle|].
  split; [rewrite Hlv, Hv, length_app; lia|].
  split.
  { intros b B0 HB0. destruct (extendsF_block _ _ _ _ Hext HB0) as (vs & HBt & Hvs).
    destruct (Hblocks b _ HBt) as (B & HB & Hvals & Hrest).
    exists B. split; [exact HB|]. simpl in Hvals. split; [rewrite Hvals; by exists vs|].
    split; [|exact Hrest].
    intros Hne. by rewrite Hvals, (Hvs Hne), app_nil_r. }
  intros v V HV.
  assert (HVt : Vals (wl_f t) !! v = Some V) by (rewrite Hv; by apply lookup_app_l_Some).
  destruct (replaceConst_in_inv t _ f' cc rc Hlit (reflexivity _) Hrepl) as (_ & Hvals & _).
  destruct (Hvals v V HVt) as [Hfin Hsame].
  destruct (order_entries t (map_to_list (wl_latticeCells t)) (reflexivity _)) as [Hent _].
  assert (Hkept : (∀ lt, (v, lt) ∈ map_to_list (wl_latticeCells t) → tag lt = constant →
                     isConst V = true) →
    ∃ V', Vals f' !! v = Some V'
      ∧ vType V' = vType V ∧ vBlock V' = vBlock V ∧ vPos V' = vPos V
      ∧ sublist (vArgs V') (vArgs V)
      ∧ (isConst V = true → vOp V' = vOp V ∧ vAuxInt V' = vAuxInt V ∧ vArgs V' = vArgs V)
      ∧ ((isConst V' = true ∧ vArgs V' = []) ∨ (vOp V' = vOp V ∧ vAuxInt V' = vAuxInt V))).
  { intros Hall. destruct (Hsame Hall) as (a & u & -> & Hsub & Ha).
    eexists. split; [done|]. simpl. do 3 (split; [done|]). split; [exact Hsub|].
    split; [|by right]. intros Hc. do 2 (split; [done|]). by apply Ha, isConst_not_phi. }
  destruct (wl_latticeCells t !! v) as [lt|] eqn:Hcell.
  - destruct (decide (tag lt = constant ∧ isConst V = false)) as [[Htag Hnc]|Hno].
    + destruct (Hlit v lt Hcell Htag) as (k & K & Hk & HK & HKc).
      destruct (Hfin lt k K) as [u HV']; try done; [by apply Hent|].
      eexists. split; [exact HV'|]. simpl. do 3 (split; [done|]).
      split; [apply sublist_nil_l|]. split; [by rewrite Hnc|]. by left.
    + apply Hkept. intros lt' Hin Htag. apply Hent in Hin. rewrite Hcell in Hin.
      injection Hin as <-. destruct (isConst V); [done|]. by destruct Hno.
  - apply Hkept. intros lt' Hin Htag. apply Hent in Hin. by rewrite Hcell in Hin.
Qed.

Lemma sccp_keeps_shape_witness :
  length (Blocks (rewritten foldRules 20 progIf).1.1) = length (Blocks progIf).
Proof.
  exact (proj1 (sccp_keeps_shape foldRules 20 progIf (rewritten foldRules 20 progIf).1.1
                  ltac:(vm_compute; reflexivity))).
Defined.

(** ** A function without constants *)

Lemma noConstCell_get t a : noConstCell t → tag (getLatticeCell t a) ≠ constant.
Proof.
  intros Hno. unfold getLatticeCell.
  destruct (wl_latticeCells t !! a) as [c|] eqn:Hc; [by eapply Hno | done].
Qed.

Lemma noConstCell_set t v c : noConstCell t → tag c ≠ constant → noConstCell (set_cell t v c).
Proof.
  intros Hno Hc w lt. simpl. rewrite lookup_insert. case_decide; [by intros [= <-]|].
  apply Hno.
Qed.

Lemma visitValue_switch_noConst rw t v t' :
  (∀ w W, Vals (wl_f t) !! w = Some W → isConst W = false) →
  noConstCell t →
  visitValue_switch rw t v = Ok t' →
  wl_f t' = wl_f t ∧ noConstCell t'.
Proof.
  intros Hnc Hno. unfold visitValue_switch. intros (V & HV%orPanic_Ok & H)%bind_Ok.
  rewrite (Hnc v V HV) in H.
  destruct (decide (vOp V = OpCopy)) as [Hcopy|Hncopy].
  { rewrite Hcopy in H. apply bind_Ok in H as (a0 & _ & [= <-]).
    split; [done|]. apply noConstCell_set; [done|]. by apply noConstCell_get. }
  destruct (decide (vOp V = OpPhi)) as [Hphi|Hnphi].
  { rewrite Hphi in H. apply visitPhi_Ok in H as (V' & _ & ->).
    split; [done|]. apply noConstCell_set; [done|].
    destruct (meet_cases (phiInputs t V')) as [->|[->|[a Hm]]]; [done | done |].
    apply meet_Const in Hm as [_ (x & Hx & Htx)]. exfalso.
    unfold phiInputs in Hx. destruct (Blocks (wl_f t) !! vBlock V'); [|by apply elem_of_nil in Hx].
    apply list_elem_of_fmap in Hx as (ia & -> & _). by apply (noConstCell_get t ia.2). }
  rewrite switch_other in H by done.
  destruct (isFoldable (vOp V)).
  - apply visitBinary_cases in H as [->|(a0 & a1 & f' & n & m & _ & _ & Ht0 & _)].
    + split; [done|]. by apply noConstCell_set.
    + exfalso. by apply (noConstCell_get t a0).
  - injection H as <-. split; [done|]. by apply noConstCell_set.
Qed.

Lemma visitValue_noConst rw f t v t' :
  (∀ w W, Vals f !! w = Some W → isConst W = false) →
  noConstInv f t → visitValue rw t v = Ok t' → noConstInv f t'.
Proof.
  intros Hnc [Hf Hno]. unfold visitValue. intros (t1 & Hsw & H)%bind_Ok.
  apply visitValue_switch_noConst in Hsw as [Hf1 Hno1]; [|by rewrite Hf|done].
  case_bool_decide.
  - apply addUses_frame in H as (es & ->). split; [simpl; congruence | exact Hno1].
  - injection H as <-. split; [congruence | done].
Qed.

Lemma visitEdge_noConst rw f t e t' :
  (∀ w W, Vals f !! w = Some W → isConst W = false) →
  noConstInv f t → visitEdge rw t e = Ok t' → noConstInv f t'.
Proof.
  intros Hnc Hinv. unfold visitEdge. destruct (isVisited t e); [by intros [= <-]|].
  intros (D & _ & (t2 & Hloop & H)%bind_Ok)%bind_Ok.
  assert (H2 : noConstInv f t2).
  { eapply (range_loop_inv _ (λ s _, noConstInv f s)); [| |exact Hloop]; [exact Hinv|].
    intros s x rest s' Hs. unfold visitDestValue. intros (V & _ & Hx)%bind_Ok.
    destruct (isPhi V || negb _); [by eapply visitValue_noConst | by injection Hx as <-]. }
  destruct (destVisited t (dest e)); [by injection H as <-|].
  by apply propagate_frame in H as [es ->].
Qed.

Lemma solve_noConst rw f fuel t t' :
  (∀ w W, Vals f !! w = Some W → isConst W = false) →
  noConstInv f t → solve rw fuel t = Some (Ok t') → noConstInv f t'.
Proof.
  intros Hnc. revert t. induction fuel as [|fuel IH]; intros t Hinv; simpl; [done|].
  destruct (step rw t) as [[t1|]|] eqn:Hstep; [|by intros [= <-]|done].
  apply IH. unfold step in Hstep. destruct (wl_edges t) as [|e es].
  - destruct (wl_uses t) as [|use us]; [done|].
    apply bind_Ok in Hstep as (t2 & Hvisit & [= <-]).
    eapply visitValue_noConst; [done | | exact Hvisit]. exact Hinv.
  - apply bind_Ok in Hstep as (t2 & Hvisit & [= <-]).
    eapply visitEdge_noConst; [done | | exact Hvisit]. exact Hinv.
Qed.

(** X31.  The pass on a function none of whose values has a constant-literal
    opcode: the loop of [sccp], when it ends, has left the function as it
    was and has made no cell Const (no probe was allocated, the evaluator
    was never called); [replaceConst] then resets and rewires nothing, in
    whatever order it takes the cells; and [sccp] returns the function
    unchanged. *)
Theorem sccp_without_constants (rw : Func → Value → Value * bool) (fuel : nat) (f : Func)
    (Hnc : ∀ v V, Vals f !! v = Some V → isConst V = false) :
  (∀ t, sccp_solve rw fuel f = Some (Ok t) →
     wl_f t = f
     ∧ (∀ v, tag (getLatticeCell t v) ≠ constant)
     ∧ ∀ order, (∀ vl, vl ∈ order → wl_latticeCells t !! vl.1 = Some vl.2) →
         replaceConst_in order t = Ok (f, 0, 0))
  ∧ (∀ f', sccp rw fuel f = Some (Ok f') → f' = f).
Proof.
  assert (Hsolve : ∀ t, sccp_solve rw fuel f = Some (Ok t) → noConstInv f t).
  { intros t. unfold sccp_solve.
    destruct (buildDefUses (init f)) as [t0|] eqn:Hbuild; [|done].
    apply buildDefUses_Ok_inv in Hbuild as (du & db & -> & _).
    apply solve_noConst; [done|]. split; [done|].
    intros v lt Hv. simpl in Hv. by rewrite lookup_empty in Hv. }
  assert (Hrepl : ∀ t order, noConstInv f t →
            (∀ vl, vl ∈ order → wl_latticeCells t !! vl.1 = Some vl.2) →
            replaceConst_in order t = Ok (f, 0, 0)).
  { intros t order [Hf Hno] Hcells. unfold replaceConst_in. rewrite Hf.
    generalize (f, 0, 0). induction order as [|vl order IH]; intros s; [done|].
    cbn [range_loop].
    assert (replaceConst_cell t s vl = Ok s) as ->.
    { unfold replaceConst_cell. destruct s as [[f0 cc] rc].
      rewrite bool_decide_eq_false_2; [done|]. apply (Hno vl.1), Hcells. by left. }
    simpl. apply IH. intros vl' Hin. apply Hcells. by right. }
  split.
  - intros t Ht. pose proof (Hsolve t Ht) as Hinv. split; [apply Hinv|].
    split; [intros v; apply noConstCell_get, Hinv|]. intros order. by apply Hrepl.
  - intros f'. unfold sccp.
    destruct (sccp_solve rw fuel f) as [[t|]|] eqn:Ht; [|done|done].
    unfold replaceConst. rewrite (Hrepl t _ (Hsolve t eq_refl)); [by intros [= <-]|].
    intros [v lt] Hin. by apply elem_of_map_to_list.
Qed.

Lemma sccp_without_constants_witness :
  (rewritten foldRules 20 progOpaque).1.1 = progOpaque.
Proof.
  apply (proj2 (sccp_without_constants foldRules 20 progOpaque
                  ltac:(intros [|[|v]] V; simpl; intros [= <-]; reflexivity))).
  vm_compute; reflexivity.
Defined.

(** ** Phis and the entries into a block *)

Lemma visitPhi_args_Ok t blk B args i acc :
  Blocks (wl_f t) !! blk = Some B →
  (i + length args ≤ length (bPreds B))%nat →
  ∃ l, visitPhi_args t blk i args acc = Ok l.
Proof.
  intros HB. revert i acc. induction args as [|a args IH]; intros i acc Hlen; simpl.
  - by eexists.
  - unfold getBlock. rewrite HB; simpl in *.
    destruct (lookup_lt_is_Some_2 (bPreds B) i) as [p Hp]; [lia|].
    rewrite Hp; simpl. destruct (isVisited t (mkEdge p blk)); apply IH; lia.
Qed.

Lemma visitPhi_args_Panic t blk B args i acc :
  Blocks (wl_f t) !! blk = Some B →
  (i ≤ length (bPreds B) < i + length args)%nat →
  visitPhi_args t blk i args acc = Abort Panic.
Proof.
  intros HB. revert i acc. induction args as [|a args IH]; intros i acc Hlen; simpl in *.
  - lia.
  - unfold getBlock. rewrite HB; simpl.
    destruct (bPreds B !! i) as [p|] eqn:Hp; simpl; [|done].
    apply lookup_lt_Some in Hp.
    destruct (isVisited t (mkEdge p blk)); apply IH; lia.
Qed.

Lemma filter_none {A} (P : A → Prop) `{∀ x, Decision (P x)} (l : list A) :
  (∀ x, x ∈ l → ¬ P x) → filter P l = [].
Proof.
  induction l as [|x l IH]; intros Hl; [done|].
  rewrite filter_cons, decide_False by (apply Hl; left).
  apply IH. intros y Hy. apply Hl. by right.
Qed.

(** X20.  [visitPhi] on a phi whose block has a predecessor for each of its
    arguments stores the meet of the cells of the arguments that come in
    over visited edges; the arguments on edges not yet visited do not
    count, so with no visited incoming edge the cell is Top.  Only that
    cell is written.  A phi with more arguments than its block has
    predecessors makes the call panic. *)
Theorem visitPhi_outcome (t : worklist) (v : ID) (V : Value) (B : Block)
    (HV : Vals (wl_f t) !! v = Some V)
    (HB : Blocks (wl_f t) !! vBlock V = Some B) :
  ((length (vArgs V) ≤ length (bPreds B))%nat →
     visitPhi t v = Ok (set_cell t v (meet (phiInputs t V))))
  ∧ ((length (bPreds B) < length (vArgs V))%nat → visitPhi t v = Abort Panic)
  ∧ ((∀ p, p ∈ bPreds B → isVisited t (mkEdge p (vBlock V)) = false) →
       meet (phiInputs t V) = Top).
Proof.
  split; [|split].
  - intros Hlen. destruct (visitPhi_args_Ok t (vBlock V) B (vArgs V) 0 [] HB) as [l Hl]; [lia|].
    assert (Hrun : visitPhi t v = Ok (set_cell t v (meet l))).
    { unfold visitPhi, getValue. rewrite HV; simpl. by rewrite Hl. }
    rewrite Hrun. apply visitPhi_Ok in Hrun as (V' & HV' & Heq).
    rewrite HV in HV'. injection HV' as <-. by rewrite Heq.
  - intros Hlen. unfold visitPhi, getValue. rewrite HV; simpl.
    rewrite (visitPhi_args_Panic t (vBlock V) B) by (done || lia). done.
  - intros Hnone. unfold phiInputs. rewrite HB.
    rewrite filter_none; [done|].
    intros [i a] _. unfold visitedPos; simpl.
    destruct (bPreds B !! i) as [p|] eqn:Hp; [|by intros []].
    rewrite Hnone; [by intros []|]. by eapply list_elem_of_lookup_2.
Qed.

Lemma visitPhi_outcome_witness :
  visitPhi (solved foldRules 20 progIf) 5
    = Ok (set_cell (solved foldRules 20 progIf) 5
            (meet (phiInputs (solved foldRules 20 progIf) (mkV OpPhi 0 [3; 4]%nat 2 0)))).
Proof.
  apply (proj1 (visitPhi_outcome (solved foldRules 20 progIf) 5%nat
           (mkV OpPhi 0 [3; 4]%nat 2 0)
           (mkBlock BlockRet [] [0; 1]%nat [5%nat] [] BranchUnknown)
           ltac:(vm_compute; reflexivity) ltac:(vm_compute; reflexivity))).
  simpl. lia.
Defined.

Lemma destVisited_true t d :
  destVisited t d = true ↔ ∃ e, isVisited t e = true ∧ dest e = d.
Proof.
  unfold destVisited, isVisited. rewrite existsb_exists. split.
  - intros ([e x] & Hin & Hd). apply list_elem_of_In, elem_of_map_to_list in Hin.
    apply bool_decide_eq_true in Hd. exists e. split; [|done].
    apply bool_decide_eq_true. by exists x.
  - intros (e & [x Hx]%bool_decide_eq_true & Hd). exists (e, x). split.
    + by apply list_elem_of_In, elem_of_map_to_list.
    + by apply bool_decide_eq_true.
Qed.

Lemma visitDestValue_step rw seen t x V :
  Vals (wl_f t) !! x = Some V →
  visitDestValue rw seen t x = if isPhi V || negb seen then visitValue rw t x else Ok t.
Proof. intros HV. unfold visitDestValue, getValue. by rewrite HV. Qed.

Lemma visitDestValue_later rw f0 vals t :
  extendsF f0 (wl_f t) →
  (∀ x, x ∈ vals → is_Some (Vals f0 !! x)) →
  range_loop (visitDestValue rw true) t vals
    = range_loop (visitValue rw) t (filter (isPhiAt f0) vals).
Proof.
  revert t. induction vals as [|x vals IH]; intros t Hext Hvals; [done|].
  destruct (Hvals x) as [V HV]; [left|].
  assert (Hrest : ∀ y, y ∈ vals → is_Some (Vals f0 !! y)) by (intros y ?; apply Hvals; by right).
  cbn [range_loop].
  rewrite (visitDestValue_step _ _ _ _ V) by (by eapply extendsF_lookup).
  simpl negb. rewrite orb_false_r.
  rewrite filter_cons. destruct (isPhi V) eqn:Hphi.
  - rewrite decide_True by (by exists V). simpl.
    destruct (visitValue rw t x) as [t1|] eqn:Hvisit; simpl; [|done].
    apply IH; [|done]. eapply extendsF_trans; [done|].
    by destruct (visitValue_keeps _ _ _ _ Hvisit) as (? & _).
  - rewrite decide_False by (intros (V' & HV' & ?); congruence). by apply IH.
Qed.

Lemma visitDestValue_first rw f0 vals t :
  extendsF f0 (wl_f t) →
  (∀ x, x ∈ vals → is_Some (Vals f0 !! x)) →
  range_loop (visitDestValue rw false) t vals = range_loop (visitValue rw) t vals.
Proof.
  revert t. induction vals as [|x vals IH]; intros t Hext Hvals; [done|].
  destruct (Hvals x) as [V HV]; [left|].
  assert (Hrest : ∀ y, y ∈ vals → is_Some (Vals f0 !! y)) by (intros y ?; apply Hvals; by right).
  cbn [range_loop].
  rewrite (visitDestValue_step _ _ _ _ V) by (by eapply extendsF_lookup).
  simpl negb. rewrite orb_true_r.
  destruct (visitValue rw t x) as [t1|] eqn:Hvisit; simpl; [|done].
  apply IH; [|done]. eapply extendsF_trans; [done|].
  by destruct (visitValue_keeps _ _ _ _ Hvisit) as (? & _).
Qed.

(** X21.  Taking an edge that is not yet visited marks it, and then depends
    on whether some edge into the same block was visited before.  On the
    first entry every value of the block is visited, in the order of the
    block, and the block is propagated.  On a later entry only the phis of
    the block are visited again and the block is not propagated. *)
Theorem visitEdge_entries (rw : Func → Value → Value * bool) (t : worklist) (e : edge)
    (D : Block)
    (Hnew : isVisited t e = false)
    (HD : Blocks (wl_f t) !! dest e = Some D)
    (Hvals : ∀ x, x ∈ bValues D → is_Some (Vals (wl_f t) !! x)) :
  let t1 := set_visited t (<[e := true]> (wl_visited t)) in
  (destVisited t (dest e) = true ↔ ∃ e', isVisited t e' = true ∧ dest e' = dest e)
  ∧ (destVisited t (dest e) = false →
       visitEdge rw t e =
         (t2 ← range_loop (visitValue rw) t1 (bValues D); propagate t2 (dest e)))
  ∧ (destVisited t (dest e) = true →
       visitEdge rw t e =
         range_loop (visitValue rw) t1 (filter (isPhiAt (wl_f t)) (bValues D))).
Proof.
  intros t1. split; [apply destVisited_true|].
  assert (Hext : extendsF (wl_f t) (wl_f t1)) by apply extendsF_refl.
  split; intros Hseen; unfold visitEdge; rewrite Hnew, Hseen; unfold getBlock; simpl;
    rewrite HD; simpl; fold t1.
  - by rewrite (visitDestValue_first rw (wl_f t)).
  - rewrite (visitDestValue_later rw (wl_f t)) by done.
    by destruct (range_loop _ _ _).
Qed.

Lemma visitEdge_entries_witness :
  visitEdge foldRules (built progS1) (mkEdge 0 0)
    = (t2 ← range_loop (visitValue foldRules)
              (set_visited (built progS1) (<[mkEdge 0 0 := true]> (wl_visited (built progS1))))
              [0; 1; 2]%nat;
       propagate t2 0).
Proof.
  apply (proj1 (proj2 (visitEdge_entries foldRules (built progS1) (mkEdge 0 0)
           (mkBlock BlockPlain [1%nat] [] [0; 1; 2]%nat [] BranchUnknown)
           eq_refl eq_refl
           ltac:(intros x Hx; repeat (apply elem_of_cons in Hx as [->|Hx]; [by eexists|]);
                 by apply elem_of_nil in Hx)))).
  reflexivity.
Defined.

(** ** The loop form that rotation accepts *)

Lemma illShape_scan_false loopExit exits :
  illShape_scan loopExit exits true = false ↔ loopExit ∈ exits.
Proof.
  induction exits as [|x exits IH]; simpl.
  - split; [done|]. by intros ?%elem_of_nil.
  - case_decide as Hx.
    + subst. split; [left|done].
    + rewrite IH, elem_of_cons. split; [by right|]. by intros [?|?].
Qed.

(** X22.  [checkLoopForm] accepts a loop exactly when its header is an If
    block with two predecessors whose second successor is one of the exits
    of the loop; on an If header with two predecessors and fewer than two
    successors the index expression panics; every other loop is
    rejected. *)
Theorem checkLoopForm_accepts (f : Func) (l : loop) (H : Block)
    (Hheader : Blocks f !! header l = Some H) :
  (checkLoopForm f l = Ok true ↔
     bKind H = BlockIf ∧ length (bPreds H) = 2%nat
     ∧ ∃ s, bSuccs H !! 1%nat = Some s ∧ s ∈ exits l)
  ∧ (checkLoopForm f l = Abort Panic ↔
       bKind H = BlockIf ∧ length (bPreds H) = 2%nat ∧ (length (bSuccs H) < 2)%nat)
  ∧ (checkLoopForm f l = Ok true ∨ checkLoopForm f l = Ok false
     ∨ checkLoopForm f l = Abort Panic).
Proof.
  unfold checkLoopForm, getBlock. rewrite Hheader; simpl.
  case_decide as Hk.
  { split; [split; [done | by intros (? & _)]|].
    split; [split; [done | by intros (? & _)]|]. by right; left. }
  case_decide as Hp.
  { split; [split; [done | by intros (_ & ? & _)]|].
    split; [split; [done | by intros (_ & ? & _)]|]. by right; left. }
  unfold index. rewrite decide_True by lia. change (Z.to_nat 1) with 1%nat.
  destruct (bSuccs H !! 1%nat) as [s|] eqn:Hs; simpl.
  - pose proof (illShape_scan_false s (exits l)) as Hscan.
    apply lookup_lt_Some in Hs as Hlen.
    destruct (illShape_scan s (exits l) true).
    + split; [|split; [|by right; left]].
      * split; [done|]. intros (_ & _ & s' & [= <-] & Hin). by apply Hscan in Hin.
      * split; [done|]. intros (_ & _ & ?). lia.
    + split; [|split; [|by left]].
      * split; [|done]. intros _. do 2 (split; [done|]). exists s. split; [done|].
        by apply Hscan.
      * split; [done|]. intros (_ & _ & ?). lia.
  - apply lookup_ge_None in Hs. split; [|split; [|by right; right]].
    + split; [done|]. intros (_ & _ & s' & ? & _). done.
    + split; [|done]. intros _. repeat split; [done..|lia].
Qed.

Lemma checkLoopForm_accepts_witness : checkLoopForm progSpin loopSpin = Ok true.
Proof.
  apply (proj1 (checkLoopForm_accepts progSpin loopSpin
           (mkBlock BlockIf [2; 3]%nat [0; 2]%nat [4; 7]%nat [7%nat] BranchUnknown) eq_refl)).
  split; [reflexivity|]. split; [reflexivity|]. exists 3%nat. split; [reflexivity|].
  apply list_elem_of_here.
Defined.

(** ** Block ordering permutes the blocks *)

Lemma bind_Done {A B} (r : outcome A) (k : A → outcome B) (b : B) :
  r ≫= k = Done b ↔ ∃ a, r = Done a ∧ k a = Done b.
Proof.
  destruct r as [a|e]; simpl.
  - split; [by exists a | by intros (a' & [= <-] & ?)].
  - split; [done | by intros (a' & ? & _)].
Qed.

Lemma at_Done {A} (s : list A) i x : at_ s i = Done x ↔ s !! i = Some x.
Proof. unfold at_. destruct (s !! i); split; congruence. Qed.

Lemma store_Done {A} (s : list A) i x :
  (i < length s)%nat → store s i x = Done (<[i := x]> s).
Proof. intros Hi. unfold store. by rewrite decide_True. Qed.

Lemma forEach_app {S A} (body : S → A → outcome S) s l1 l2 :
  forEach body s (l1 ++ l2) = s' ← forEach body s l1; forEach body s' l2.
Proof.
  revert s. induction l1 as [|x l1 IH]; intros s; simpl; [done|].
  destruct (body s x); simpl; [apply IH | done].
Qed.

(** The first loop: every block finds its index in [idToIdx]. *)
Lemma setIdx_loop order k idx0 :
  NoDup order → (∀ b, b ∈ order → (b < length idx0)%nat) →
  ∃ idx, forEach setIdx idx0 (imap (λ i b, ((k + i)%nat, b)) order) = Done idx
    ∧ length idx = length idx0
    ∧ (∀ i b, order !! i = Some b → idx !! b = Some (k + i)%nat)
    ∧ (∀ b, b ∉ order → idx !! b = idx0 !! b).
Proof.
  revert k idx0. induction order as [|x order IH]; intros k idx0 Hnd Hlt.
  - exists idx0. repeat split; try done.
  - apply NoDup_cons in Hnd as [Hx Hnd]. simpl.
    assert (setIdx idx0 ((k + 0)%nat, x) = Done (<[x := (k + 0)%nat]> idx0)) as ->
      by (apply store_Done, Hlt; left).
    simpl.
    destruct (IH (S k) (<[x := (k + 0)%nat]> idx0) Hnd) as (idx & Hrun & Hlen & Hin & Hout).
    { intros b Hb. rewrite length_insert. apply Hlt. by right. }
    exists idx. split.
    { rewrite <- Hrun. f_equal. apply imap_ext. intros i b _. simpl. f_equal. lia. }
    split; [by rewrite Hlen, length_insert|]. split.
    + intros [|i] b Hb; simpl in Hb.
      * injection Hb as <-. rewrite Hout by done.
        apply list_lookup_insert_eq. apply Hlt. left.
      * rewrite (Hin i b Hb). f_equal. lia.
    + intros b Hb. apply not_elem_of_cons in Hb as [Hne Hb].
      rewrite Hout by done. by apply list_lookup_insert_ne.
Qed.

(** The loop over the predecessors: a block of the loop, if any. *)
Lemma pickPred_loop f ln l preds acc :
  length (b2l ln) = length (Blocks f) →
  (∀ e, e ∈ preds → (e < length (Blocks f))%nat) →
  ∃ p, forEach (pickPred f ln l) acc preds = Done p
    ∧ (p = acc ∨ ∃ e, p = Some e ∧ e ∈ preds ∧ b2l ln !! e = Some (Some l)).
Proof.
  intros Hlen. revert acc. induction preds as [|e preds IH]; intros acc Hlt.
  - exists acc. split; [done | by left].
  - destruct (lookup_lt_is_Some_2 (Blocks f) e) as [E HE]; [apply Hlt; left|].
    destruct (lookup_lt_is_Some_2 (b2l ln) e) as [le Hle]; [rewrite Hlen; apply Hlt; left|].
    assert (Hstep : pickPred f ln l acc e = Done acc
                    ∨ (pickPred f ln l acc e = Done (Some e) ∧ le = Some l)).
    { unfold pickPred, at_. rewrite HE; simpl. case_decide; [by left|].
      rewrite Hle; simpl. case_decide as Hl; [by left|]. right. split; [done|].
      by destruct (decide (le = Some l)). }
    destruct (IH acc) as (p & Hp & Hcase); [intros; apply Hlt; by right|].
    destruct (IH (Some e)) as (p' & Hp' & Hcase'); [intros; apply Hlt; by right|].
    simpl. destruct Hstep as [->|[-> ->]]; simpl.
    + exists p. split; [done|]. destruct Hcase as [?|(e' & ? & ? & ?)]; [by left|].
      right. exists e'. split; [done|]. split; [by right | done].
    + exists p'. split; [done|]. right.
      destruct Hcase' as [->|(e' & ? & ? & ?)].
      * exists e. split; [done|]. split; [left | done].
      * exists e'. split; [done|]. split; [by right | done].
Qed.

(** The inner loop: it ends within [length f.Blocks] turns, and appends to
    [after[p.ID]] blocks of the loop that follow [b] in [f.Blocks]. *)
Lemma scan_spec ln l p bound s b i xs :
  indexed (lBlocks s) (lIdToIdx s) →
  (∀ x, x ∈ lBlocks s → (x < length (b2l ln))%nat) →
  lBlocks s !! i = Some b →
  (length (lBlocks s) ≤ i + bound)%nat →
  lAfter s !! p = Some xs →
  ∃ ys, scan bound ln l p s b = Done (set_after s (<[p := xs ++ ys]> (lAfter s)))
    ∧ sublist ys (drop (S i) (lBlocks s))
    ∧ ∀ y, y ∈ ys → y ≠ p ∧ b2l ln !! y = Some (Some l).
Proof.
  intros Hidx Hlt. revert s b i xs Hidx Hlt.
  induction bound as [|bound IH]; intros s b i xs Hidx Hlt Hb Hlen Hxs.
  { apply lookup_lt_Some in Hb. lia. }
  assert (Hnone : ∃ ys, Done s = Done (set_after s (<[p := xs ++ ys]> (lAfter s)))
    ∧ sublist ys (drop (S i) (lBlocks s))
    ∧ ∀ y, y ∈ ys → y ≠ p ∧ b2l ln !! y = Some (Some l)).
  { exists []. rewrite app_nil_r, insert_id by done. split; [by destruct s|].
    split; [apply sublist_nil_l|]. intros y Hy. by apply elem_of_nil in Hy. }
  cbn [scan].
  assert (at_ (lIdToIdx s) b = Done i) as -> by (by apply at_Done, Hidx).
  cbn [mbind outcome_bind].
  case_decide as Hend; [exact Hnone|].
  destruct (lookup_lt_is_Some_2 (lBlocks s) (S i)) as [nextb Hnext]; [lia|].
  assert (at_ (lBlocks s) (S i) = Done nextb) as -> by (by apply at_Done).
  cbn [mbind outcome_bind].
  case_decide as Hp; [exact Hnone|].
  destruct (lookup_lt_is_Some_2 (b2l ln) nextb) as [lb Hlb].
  { apply Hlt. by eapply list_elem_of_lookup_2. }
  assert (at_ (b2l ln) nextb = Done lb) as -> by (by apply at_Done).
  cbn [mbind outcome_bind].
  assert (Hdrop : drop (S i) (lBlocks s) = nextb :: drop (S (S i)) (lBlocks s))
    by (by apply drop_S).
  case_decide as Hl.
  - destruct (IH (set_after s (<[p := default [] (lAfter s !! p) ++ [nextb]]> (lAfter s)))
                nextb (S i) (xs ++ [nextb])) as (ys & Hrun & Hsub & Hys); try done.
    { simpl. lia. }
    { simpl. rewrite Hxs; simpl. apply lookup_insert_eq. }
    exists (nextb :: ys). split.
    + rewrite Hrun. unfold set_after; simpl. rewrite insert_insert_eq.
      by rewrite <- app_assoc.
    + split; [rewrite Hdrop; by apply sublist_skip|].
      intros y [->|Hy]%elem_of_cons; [by subst lb | by apply Hys].
  - destruct (IH s nextb (S i) xs) as (ys & Hrun & Hsub & Hys); try done.
    { lia. }
    exists ys. split; [done|]. split; [|done].
    rewrite Hdrop. by apply sublist_cons.
Qed.

(** Exchanging two entries of [f.Blocks]. *)
Lemma lookup_swap (blocks : list BlockID) ih ip h p i :
  blocks !! ih = Some h → blocks !! ip = Some p →
  <[ip := h]> (<[ih := p]> blocks) !! i =
    if decide (i = ip) then Some h
    else if decide (i = ih) then Some p
    else blocks !! i.
Proof.
  intros Hh Hp. apply lookup_lt_Some in Hh as Hlh. apply lookup_lt_Some in Hp as Hlp.
  case_decide as Hi.
  - subst. apply list_lookup_insert_eq. by rewrite length_insert.
  - rewrite list_lookup_insert_ne by done. case_decide as Hi'.
    + subst. by apply list_lookup_insert_eq.
    + by apply list_lookup_insert_ne.
Qed.

Lemma swap_elem_of (blocks : list BlockID) ih ip h p x :
  blocks !! ih = Some h → blocks !! ip = Some p →
  x ∈ <[ip := h]> (<[ih := p]> blocks) ↔ x ∈ blocks.
Proof.
  intros Hh Hp. rewrite !list_elem_of_lookup. split.
  - intros [i Hi]. rewrite (lookup_swap _ _ _ _ _ _ Hh Hp) in Hi.
    repeat case_decide; [exists ih | exists ip | exists i]; congruence.
  - intros [i Hi]. destruct (decide (i = ih)) as [->|Hne].
    + exists ip. rewrite (lookup_swap _ _ _ _ _ _ Hh Hp). rewrite decide_True by done.
      congruence.
    + destruct (decide (i = ip)) as [->|Hne'].
      * exists ih. rewrite (lookup_swap _ _ _ _ _ _ Hh Hp).
        case_decide; [congruence|]. rewrite decide_True by done. congruence.
      * exists i. rewrite (lookup_swap _ _ _ _ _ _ Hh Hp).
        by rewrite !decide_False by done.
Qed.

Lemma swap_NoDup (blocks : list BlockID) ih ip h p :
  blocks !! ih = Some h → blocks !! ip = Some p → NoDup blocks →
  NoDup (<[ip := h]> (<[ih := p]> blocks)).
Proof.
  intros Hh Hp Hnd. apply NoDup_alt. intros i j x Hi Hj.
  rewrite (lookup_swap _ _ _ _ _ _ Hh Hp) in Hi.
  rewrite (lookup_swap _ _ _ _ _ _ Hh Hp) in Hj.
  pose proof (proj1 (NoDup_alt blocks) Hnd) as Hinj.
  repeat case_decide; subst;
    repeat match goal with H : Some _ = Some _ |- _ => injection H as ? end; subst;
    try done; try (by eapply Hinj);
    exfalso;
    repeat match goal with
           | H1 : blocks !! ?a = Some ?v, H2 : blocks !! ?b = Some ?v |- _ =>
               tryif constr_eq a b then fail
               else (pose proof (Hinj _ _ _ H1 H2); subst)
           end; congruence.
Qed.

Lemma elem_of_move (xs : list BlockID) (m : gset BlockID) x :
  x ∈ foldl (λ m x, {[x]} ∪ m) m xs ↔ x ∈ m ∨ x ∈ xs.
Proof.
  revert m. induction xs as [|y xs IH]; intros m; simpl.
  - rewrite elem_of_nil. tauto.
  - rewrite IH, elem_of_union, elem_of_singleton, elem_of_cons. tauto.
Qed.

Lemma rotInv_next ln nb cur s : rotInv ln nb cur s → rotInv ln nb (S cur) s.
Proof.
  intros (? & ? & ? & ? & ? & Hafter & ? & ?). do 5 (split; [done|]).
  split; [|done]. intros k xs Hk. destruct (Hafter k xs Hk) as (l & ? & ?).
  exists l. split; [lia | done].
Qed.

Lemma rotate_inv bound f ln nb cur s L :
  nb = length (Blocks f) →
  length (b2l ln) = nb →
  (nb ≤ bound)%nat →
  b2l ln !! header L = Some (Some cur) →
  (∀ B p, Blocks f !! header L = Some B → p ∈ bPreds B → (p < nb)%nat) →
  rotInv ln nb cur s →
  ∃ s', rotate bound f ln s (cur, L) = Done s' ∧ rotInv ln nb (S cur) s'
    ∧ (∀ k xs, lAfter s !! k = Some xs → lAfter s' !! k = Some xs)
    ∧ (∀ p, latch f ln cur L = Some p → ∃ ys, lAfter s' !! p = Some (header L :: ys)).
Proof.
  intros Hnb Hb2l Hbound Hheader Hpreds Hinv.
  pose proof Hinv as (Hnd & Hlen & Helem & Hlidx & Hidx & Hafter & Hkeys & Hmove).
  set (h := header L) in *.
  assert (Hh : (h < nb)%nat) by (rewrite <- Hb2l; by eapply lookup_lt_Some).
  destruct (lookup_lt_is_Some_2 (Blocks f) h) as [B HB]; [lia|].
  unfold rotate. cbn [fst snd]. fold h.
  assert (at_ (Blocks f) h = Done B) as -> by (by apply at_Done).
  cbn [mbind outcome_bind].
  destruct (pickPred_loop f ln cur (bPreds B) None) as (po & Hpick & Hpo).
  { lia. } { intros e He. rewrite <- Hnb. by eapply Hpreds. }
  rewrite Hpick. cbn [mbind outcome_bind].
  assert (Hlatch : latch f ln cur L =
            match po with
            | Some p => if decide (p = h) then None else Some p
            | None => None
            end).
  { unfold latch. fold h. by rewrite HB, Hpick. }
  destruct Hpo as [->|(p & -> & Hp & Hlp)].
  { exists s. split; [done|]. split; [by apply rotInv_next|]. split; [done|].
    intros p. by rewrite Hlatch. }
  case_decide as Hph.
  { exists s. split; [done|]. split; [by apply rotInv_next|]. split; [done|].
    intros p'. by rewrite Hlatch. }
  assert (Hpnb : (p < nb)%nat) by (by eapply Hpreds).
  assert (Hnew : lAfter s !! p = None).
  { destruct (lAfter s !! p) as [xs|] eqn:Hxs; [|done].
    destruct (Hafter p xs Hxs) as (l & Hl & Hbl & _). rewrite Hlp in Hbl.
    injection Hbl as ->. lia. }
  destruct (proj1 (list_elem_of_lookup _ _) (proj2 (Helem h) Hh)) as [ih Hih].
  destruct (proj1 (list_elem_of_lookup _ _) (proj2 (Helem p) Hpnb)) as [ip Hip].
  destruct (scan_spec ln cur p bound (set_after s (<[p := [h]]> (lAfter s))) h ih [h])
    as (ys & -> & Hsub & Hys); try done.
  { intros x Hx. rewrite Hb2l. by apply Helem. }
  { simpl. lia. }
  { simpl. apply lookup_insert_eq. }
  cbn [mbind outcome_bind]. unfold set_after; cbn [lBlocks lIdToIdx lMove lAfter].
  rewrite insert_insert_eq. cbn [app].
  assert (at_ (lIdToIdx s) h = Done ih) as -> by (by apply at_Done, Hidx).
  cbn [mbind outcome_bind].
  rewrite (store_Done (lBlocks s) ih p) by (by eapply lookup_lt_Some).
  cbn [mbind outcome_bind].
  assert (at_ (lIdToIdx s) p = Done ip) as -> by (by apply at_Done, Hidx).
  cbn [mbind outcome_bind].
  rewrite (store_Done (<[ih := p]> (lBlocks s)) ip h)
    by (rewrite length_insert; by eapply lookup_lt_Some).
  cbn [mbind outcome_bind].
  rewrite (store_Done (lIdToIdx s) h ip) by lia. cbn [mbind outcome_bind].
  rewrite (store_Done (<[h := ip]> (lIdToIdx s)) p ih) by (rewrite length_insert; lia).
  cbn [mbind outcome_bind].
  rewrite lookup_insert_eq. cbn [default].
  eexists. split; [done|]. cbn [lAfter]. split; [|split].
  2:{ intros k xs Hk. rewrite lookup_insert_ne; [done|]. intros <-. by rewrite Hnew in Hk. }
  2:{ intros p'. rewrite Hlatch. intros [= <-].
      exists ys. apply lookup_insert_eq. }
  unfold rotInv. cbn [lBlocks lIdToIdx lMove lAfter].
  assert (Hihp : ih ≠ ip).
  { intros ->. rewrite Hih in Hip. by injection Hip as ->. }
  assert (Hys_in : ∀ y, y ∈ ys → y ∈ drop (S ih) (lBlocks s)).
  { intros y Hy. by eapply elem_of_sublist. }
  assert (Hdrop_nd : NoDup (take (S ih) (lBlocks s) ++ drop (S ih) (lBlocks s)))
    by (by rewrite take_drop).
  apply NoDup_app in Hdrop_nd as (_ & Hdisj & Hnd_drop).
  assert (Hh_ys : h ∉ ys).
  { intros Hy%Hys_in. eapply Hdisj; [|exact Hy].
    apply list_elem_of_lookup. exists ih. rewrite lookup_take_lt by lia. done. }
  split; [by apply swap_NoDup|].
  split; [by rewrite !length_insert|].
  split; [intros x; rewrite swap_elem_of by done; apply Helem|].
  split; [by rewrite !length_insert|].
  split.
  { intros i b. cbn [lBlocks lIdToIdx]. rewrite (lookup_swap _ _ _ _ _ _ Hih Hip).
    case_decide as Hi; [intros [= <-]|].
    { subst i. rewrite list_lookup_insert_ne by done.
      apply list_lookup_insert_eq. lia. }
    case_decide as Hi'; [intros [= <-]|].
    { subst i. apply list_lookup_insert_eq. rewrite length_insert. lia. }
    intros Hb.
    pose proof (proj1 (NoDup_alt _) Hnd) as Hinj.
    assert (b ≠ h) by (intros ->; apply Hi'; by eapply Hinj).
    assert (b ≠ p) by (intros ->; apply Hi; by eapply Hinj).
    rewrite !list_lookup_insert_ne by done. by apply Hidx. }
  split.
  { intros k xs. cbn [lAfter]. intros [[<- <-]|[Hne Hk]]%lookup_insert_Some.
    - exists cur. split; [lia|]. split; [done|]. split.
      + apply NoDup_cons. split; [done|]. by eapply sublist_NoDup.
      + intros x [->|Hx]%elem_of_cons.
        * repeat split; [by intros -> | done | done].
        * destruct (Hys x Hx) as [? ?]. repeat split; [done| |done].
          apply Helem. eapply elem_of_sublist; [by apply Hys_in | apply sublist_drop].
    - destruct (Hafter k xs Hk) as (l & ? & ?). exists l. split; [lia | done]. }
  split.
  { intros k k' xs xs'. cbn [lAfter].
    intros [[<- <-]|[Hne Hk]]%lookup_insert_Some [[<- <-]|[Hne' Hk']]%lookup_insert_Some Heq;
      try done.
    - destruct (Hafter k' xs' Hk') as (l & Hl & Hbl & _).
      rewrite Hlp, Hbl in Heq. injection Heq as <-. lia.
    - destruct (Hafter k xs Hk) as (l & Hl & Hbl & _).
      rewrite Hlp, Hbl in Heq. injection Heq as ->. lia.
    - by eapply Hkeys. }
  intros x. cbn [lMove lAfter]. rewrite elem_of_move, Hmove. split.
  - intros [(k & xs & Hk & Hx)|Hx].
    + exists k, xs. split; [|done]. rewrite lookup_insert_ne; [done|].
      intros <-. by rewrite Hnew in Hk.
    + exists p, (h :: ys). split; [apply lookup_insert_eq | done].
  - intros (k & xs & [[<- <-]|[Hne Hk]]%lookup_insert_Some & Hx); [by right|].
    left. by exists k, xs.
Qed.

Lemma rotate_loop bound f ln nb Ls k s :
  nb = length (Blocks f) →
  length (b2l ln) = nb →
  (nb ≤ bound)%nat →
  (∀ i L, Ls !! i = Some L → b2l ln !! header L = Some (Some (k + i)%nat)) →
  (∀ i L B p, Ls !! i = Some L → Blocks f !! header L = Some B → p ∈ bPreds B →
     (p < nb)%nat) →
  rotInv ln nb k s →
  ∃ s', forEach (rotate bound f ln) s (imap (λ i L, ((k + i)%nat, L)) Ls) = Done s'
    ∧ rotInv ln nb (k + length Ls) s'
    ∧ (∀ b xs, lAfter s !! b = Some xs → lAfter s' !! b = Some xs)
    ∧ (∀ i L p, Ls !! i = Some L → latch f ln (k + i) L = Some p →
         ∃ ys, lAfter s' !! p = Some (header L :: ys)).
Proof.
  intros Hnb Hb2l Hbound. revert k s.
  induction Ls as [|L Ls IH]; intros k s Hheader Hpreds Hinv.
  - exists s. split; [done|]. split; [by rewrite Nat.add_0_r|]. split; [done|].
    intros i L p HL. by rewrite lookup_nil in HL.
  - destruct (rotate_inv bound f ln nb (k + 0) s L) as (s1 & Hrun & Hinv1 & Hold1 & Hnew1);
      try done.
    { by apply (Hheader 0%nat). }
    { intros B p. by apply (Hpreds 0%nat L). }
    { by rewrite Nat.add_0_r. }
    destruct (IH (S k) s1) as (s' & Hrun' & Hinv' & Hold' & Hnew').
    { intros i L' HL'. rewrite (Hheader (S i) L' HL'). do 2 f_equal. lia. }
    { intros i L' B p HL'. by apply (Hpreds (S i) L'). }
    { by rewrite Nat.add_0_r in Hinv1. }
    exists s'. split.
    { simpl. rewrite Hrun. simpl. rewrite <- Hrun'. f_equal.
      apply imap_ext. intros i L' _. simpl. f_equal. lia. }
    split; [simpl; by rewrite <- Nat.add_succ_comm|].
    split; [intros b xs Hb; by apply Hold', Hold1|].
    intros [|i] L' p HL' Hp; simpl in HL'.
    + injection HL' as <-. destruct (Hnew1 p Hp) as [ys Hys]. exists ys. by apply Hold'.
    + apply (Hnew' i L' p HL'). by replace (S k + i)%nat with (k + S i)%nat by lia.
Qed.

Lemma emit_Done arr j a :
  (j < length arr)%nat → emit (arr, j) a = Done (<[j := a]> arr, S j).
Proof. intros Hj. unfold emit; simpl. by rewrite store_Done. Qed.

(** The writes [f.Blocks[j] = a; j++], seen from the part of [f.Blocks]
    written so far. *)
Lemma emit_loop ws out tl :
  (length ws ≤ length tl)%nat →
  forEach emit (out ++ tl, length out) ws
    = Done ((out ++ ws) ++ drop (length ws) tl, length (out ++ ws)).
Proof.
  revert out tl. induction ws as [|w ws IH]; intros out tl Hlen.
  - simpl. by rewrite !app_nil_r.
  - destruct tl as [|t tl]; [simpl in Hlen; lia|].
    cbn [forEach]. rewrite emit_Done by (rewrite length_app; simpl; lia).
    cbn [mbind outcome_bind].
    replace (<[length out := w]> (out ++ t :: tl)) with ((out ++ [w]) ++ tl).
    2:{ rewrite <- (Nat.add_0_r (length out)) at 1. rewrite insert_app_r. simpl.
        by rewrite <- app_assoc. }
    replace (S (length out)) with (length (out ++ [w])) by (rewrite length_app; simpl; lia).
    rewrite IH by (simpl in Hlen; lia).
    by rewrite <- !app_assoc.
Qed.

Lemma place_emit s st b : place s st b = forEach emit st (placed s b).
Proof. unfold place, placed. by case_decide. Qed.

Lemma place_loop s bs out tl :
  (length (bs ≫= placed s) ≤ length tl)%nat →
  forEach (place s) (out ++ tl, length out) bs
    = Done ((out ++ (bs ≫= placed s)) ++ drop (length (bs ≫= placed s)) tl,
            length (out ++ (bs ≫= placed s))).
Proof.
  revert out tl. induction bs as [|b bs IH]; intros out tl Hlen.
  - simpl. by rewrite !app_nil_r.
  - rewrite bind_cons in Hlen |- *. rewrite length_app in Hlen.
    cbn [forEach]. rewrite place_emit, emit_loop by lia. cbn [mbind outcome_bind].
    rewrite IH by (rewrite length_drop; lia).
    rewrite drop_drop, <- !app_assoc. rewrite !length_app. by rewrite Nat.add_assoc.
Qed.

(** With the invariant, the blocks written by the last loop are the blocks
    of [oldOrder], each once. *)
Lemma placed_Permutation ln nb cur s :
  length (b2l ln) = nb → rotInv ln nb cur s →
  lBlocks s ≫= placed s ≡ₚ lBlocks s.
Proof.
  intros Hb2l (Hnd & Hlen & Helem & _ & _ & Hafter & Hkeys & Hmove).
  assert (Hplaced : ∀ x y, y ∈ placed s x ↔
            (x ∉ lMove s) ∧ (y = x ∨ ∃ xs, lAfter s !! x = Some xs ∧ y ∈ xs)).
  { intros x y. unfold placed. case_decide as Hx.
    - rewrite elem_of_nil. tauto.
    - rewrite elem_of_cons. destruct (lAfter s !! x) as [xs|]; simpl.
      + split; [intros [?|?]; eauto|]. intros (_ & [?|(xs' & [= <-] & ?)]); auto.
      + rewrite elem_of_nil. split; [intros [?|[]]; auto|].
        intros (_ & [?|(xs' & ? & _)]); [auto | done]. }
  assert (Hkey_unmoved : ∀ k xs, lAfter s !! k = Some xs → k ∉ lMove s).
  { intros k xs Hk (k' & xs' & Hk' & Hin)%Hmove.
    destruct (Hafter k xs Hk) as (l & _ & Hbl & _).
    destruct (Hafter k' xs' Hk') as (l' & _ & Hbl' & _ & Hxs').
    destruct (Hxs' k Hin) as (Hne & _ & Hbk). apply Hne.
    eapply Hkeys; [done..|]. congruence. }
  apply NoDup_Permutation; [|done|].
  - apply NoDup_bind; [|intros x _|done].
    + intros x1 x2 y _ _ (Hm1 & H1)%Hplaced (Hm2 & H2)%Hplaced.
      destruct H1 as [->|(xs1 & Hk1 & Hy1)], H2 as [->|(xs2 & Hk2 & Hy2)]; [done|..].
      * destruct Hm1. apply Hmove. by exists x2, xs2.
      * destruct Hm2. apply Hmove. by exists x1, xs1.
      * destruct (Hafter x1 xs1 Hk1) as (l1 & _ & Hbl1 & _ & Hxs1).
        destruct (Hafter x2 xs2 Hk2) as (l2 & _ & Hbl2 & _ & Hxs2).
        destruct (Hxs1 y Hy1) as (_ & _ & Hb1). destruct (Hxs2 y Hy2) as (_ & _ & Hb2).
        eapply Hkeys; [done..|]. congruence.
    + unfold placed. case_decide; [constructor|].
      destruct (lAfter s !! x) as [xs|] eqn:Hxs; simpl.
      * destruct (Hafter x xs Hxs) as (l & _ & _ & Hndx & Hxs').
        apply NoDup_cons. split; [|done]. intros Hin. by destruct (Hxs' x Hin).
      * apply NoDup_singleton.
  - intros y. rewrite list_elem_of_bind. split.
    + intros (x & (Hm & [->|(xs & Hk & Hy)])%Hplaced & Hx); [done|].
      destruct (Hafter x xs Hk) as (l & _ & _ & _ & Hxs).
      apply Helem. by destruct (Hxs y Hy) as (_ & ? & _).
    + intros Hy. destruct (decide (y ∈ lMove s)) as [Hm|Hm].
      * apply Hmove in Hm as (k & xs & Hk & Hin). exists k. split.
        -- apply Hplaced. split; [by eapply Hkey_unmoved|]. right. by exists xs.
        -- apply Helem. destruct (Hafter k xs Hk) as (l & _ & Hbl & _).
           rewrite <- Hb2l. by eapply lookup_lt_Some.
      * exists y. split; [|done]. apply Hplaced. split; [done | by left].
Qed.

Lemma key_unmoved ln nb cur s k xs :
  rotInv ln nb cur s → lAfter s !! k = Some xs → k ∉ lMove s.
Proof.
  intros (_ & _ & _ & _ & _ & Hafter & Hkeys & Hmove) Hk (k' & xs' & Hk' & Hin)%Hmove.
  destruct (Hafter k xs Hk) as (l & _ & Hbl & _).
  destruct (Hafter k' xs' Hk') as (l' & _ & Hbl' & _ & Hxs').
  destruct (Hxs' k Hin) as (Hne & _ & Hbk). apply Hne.
  eapply Hkeys; [done..|]. congruence.
Qed.

(** A run of [blockOrdering] that goes past the two early returns. *)
Lemma blockOrdering_run bound ln f order :
  hasIrreducible ln = false → loops ln ≠ [] →
  (length (Blocks f) ≤ bound)%nat →
  order ≡ₚ seq 0 (length (Blocks f)) →
  length (b2l ln) = length (Blocks f) →
  (∀ l L, loops ln !! l = Some L → b2l ln !! header L = Some (Some l)) →
  (∀ l L B p, loops ln !! l = Some L → Blocks f !! header L = Some B →
     p ∈ bPreds B → (p < length (Blocks f))%nat) →
  ∃ s, blockOrdering bound ln f order = Done (lBlocks s ≫= placed s)
    ∧ rotInv ln (length (Blocks f)) (length (loops ln)) s
    ∧ lBlocks s ≡ₚ order
    ∧ (∀ l L p, loops ln !! l = Some L → latch f ln l L = Some p →
         ∃ ys, lAfter s !! p = Some (header L :: ys)).
Proof.
  intros Hirr Hloops Hbound Horder Hb2l Hheader Hpreds.
  unfold blockOrdering. rewrite Hirr.
  rewrite decide_False by (by destruct (loops ln)).
  set (nb := length (Blocks f)) in *.
  assert (Hnd : NoDup order) by (rewrite Horder; apply NoDup_seq).
  assert (Helem : ∀ x, x ∈ order ↔ (x < nb)%nat).
  { intros x. rewrite Horder, elem_of_seq. lia. }
  assert (Hlen : length order = nb) by (by rewrite Horder, length_seq).
  destruct (setIdx_loop order 0 (replicate nb 0%nat) Hnd) as (idx & Hidx & Hlidx & Hin & _).
  { intros b Hb. rewrite length_replicate. by apply Helem. }
  rewrite length_replicate in Hlidx.
  replace (imap pair order) with (imap (λ i b : nat, ((0 + i)%nat, b)) order)
    by (by apply imap_ext).
  rewrite Hidx. cbn [mbind outcome_bind].
  destruct (rotate_loop bound f ln nb (loops ln) 0 (mkLayout order idx ∅ ∅))
    as (s & Hrun & Hinv & _ & Hlatch); try done.
  { split; [done|]. split; [done|]. split; [done|]. split; [done|].
    split; [exact Hin|]. cbn [lAfter lMove]. split; [|split].
    - intros k xs Hk. by rewrite lookup_empty in Hk.
    - intros k k' xs xs' Hk. by rewrite lookup_empty in Hk.
    - intros x. split; [by intros ?%elem_of_empty|].
      intros (k & xs & Hk & _). by rewrite lookup_empty in Hk. }
  replace (imap pair (loops ln)) with (imap (λ i L, ((0 + i)%nat, L)) (loops ln))
    by (by apply imap_ext).
  rewrite Hrun. cbn [mbind outcome_bind].
  pose proof (placed_Permutation ln nb _ s Hb2l Hinv) as Hperm.
  pose proof (Permutation_length Hperm) as Hplen.
  pose proof (place_loop s (lBlocks s) [] (lBlocks s)) as Hplace.
  cbn [app length] in Hplace. rewrite Hplace by lia. cbn [mbind outcome_bind fst snd].
  rewrite decide_False by (intros Hne; by apply Hne).
  rewrite Hplen, drop_all, app_nil_r.
  exists s. split; [done|]. split; [done|]. split; [|exact Hlatch].
  destruct Hinv as (Hnd' & _ & Helem' & _).
  apply NoDup_Permutation; [done..|]. intros x. by rewrite Helem, Helem'.
Qed.

(** X23.  [blockOrdering] permutes [f.Blocks].  Let [f.Blocks] list every
    block once, [b2l] have an entry for each block, the header of each
    loop belong to that loop, and the predecessors of the headers be
    blocks of the function.  Then the call returns -- no index is out of
    range, the inner loop ends within as many turns as there are blocks,
    and the final check [j != len(oldOrder)] does not fire -- and
    [f.Blocks] holds the same blocks afterwards, each once.  With an
    irreducible loop nest, or with no loop, [f.Blocks] is left as it
    is. *)
Theorem blockOrdering_permutes (bound : nat) (ln : loopnest) (f : Func)
    (order : list BlockID)
    (Hbound : (length (Blocks f) ≤ bound)%nat)
    (Horder : order ≡ₚ seq 0 (length (Blocks f)))
    (Hb2l : length (b2l ln) = length (Blocks f))
    (Hheader : ∀ l L, loops ln !! l = Some L → b2l ln !! header L = Some (Some l))
    (Hpreds : ∀ l L B p, loops ln !! l = Some L → Blocks f !! header L = Some B →
                p ∈ bPreds B → (p < length (Blocks f))%nat) :
  ∃ order', blockOrdering bound ln f order = Done order' ∧ order' ≡ₚ order
    ∧ (hasIrreducible ln = true ∨ loops ln = [] → order' = order).
Proof.
  destruct (hasIrreducible ln) eqn:Hirr.
  { exists order. unfold blockOrdering. by rewrite Hirr. }
  destruct (decide (loops ln = [])) as [Hnil|Hloops].
  { exists order. unfold blockOrdering. rewrite Hirr, Hnil. done. }
  destruct (blockOrdering_run bound ln f order) as (s & Hrun & Hinv & Hperm & _); try done.
  exists (lBlocks s ≫= placed s). split; [done|]. split; [|by intros [?|?]].
  rewrite <- Hperm. by eapply placed_Permutation.
Qed.

Lemma blockOrdering_permutes_witness :
  ∃ order', blockOrdering 4 nestSpin progSpin [0; 1; 2; 3]%nat = Done order'
    ∧ order' ≡ₚ [0; 1; 2; 3]%nat
    ∧ (hasIrreducible nestSpin = true ∨ loops nestSpin = [] → order' = [0; 1; 2; 3]%nat).
Proof.
  apply (blockOrdering_permutes 4 nestSpin progSpin [0; 1; 2; 3]%nat).
  - simpl. lia.
  - reflexivity.
  - reflexivity.
  - intros [|l] L HL; [|done]. injection HL as <-. reflexivity.
  - intros [|l] L B p HL HB Hp; [|done]. injection HL as <-. injection HB as <-.
    simpl in Hp. apply elem_of_cons in Hp as [->|Hp]; [simpl; lia|].
    apply list_elem_of_singleton in Hp as ->. simpl. lia.
Defined.

(** The block that is picked: the last predecessor of the header that is
    a Plain block of the loop, when it is not the header itself. *)
Lemma latch_last f ln l L B P p before later :
  length (b2l ln) = length (Blocks f) →
  (∀ e, e ∈ bPreds B → (e < length (Blocks f))%nat) →
  Blocks f !! header L = Some B →
  bPreds B = before ++ p :: later →
  Blocks f !! p = Some P → bKind P = BlockPlain →
  b2l ln !! p = Some (Some l) →
  p ≠ header L →
  (∀ e E le, e ∈ later → Blocks f !! e = Some E → b2l ln !! e = Some le →
     bKind E ≠ BlockPlain ∨ le ≠ Some l) →
  latch f ln l L = Some p.
Proof.
  intros Hb2l Hpreds HB Hsplit HP Hplain Hin Hne Hlater.
  unfold latch. rewrite HB, Hsplit, forEach_app.
  destruct (pickPred_loop f ln l before None Hb2l) as (acc & -> & _).
  { intros e He. apply Hpreds. rewrite Hsplit. apply elem_of_app. by left. }
  cbn [mbind outcome_bind forEach].
  assert (pickPred f ln l acc p = Done (Some p)) as ->.
  { unfold pickPred, at_. rewrite HP; simpl. rewrite decide_False by (by intros []).
    rewrite Hin; simpl. by rewrite decide_False by (by intros []). }
  cbn [mbind outcome_bind].
  assert (Hkeep : forEach (pickPred f ln l) (Some p) later = Done (Some p)).
  { assert (Hvalid : ∀ e, e ∈ later → (e < length (Blocks f))%nat).
    { intros e He. apply Hpreds. rewrite Hsplit. apply elem_of_app. right. by right. }
    clear Hsplit. induction later as [|e later IH]; [done|].
    destruct (lookup_lt_is_Some_2 (Blocks f) e) as [E HE]; [apply Hvalid; left|].
    destruct (lookup_lt_is_Some_2 (b2l ln) e) as [le Hle]; [rewrite Hb2l; apply Hvalid; left|].
    cbn [forEach].
    assert (pickPred f ln l (Some p) e = Done (Some p)) as ->.
    { unfold pickPred, at_. rewrite HE; simpl. case_decide as Hk; [done|].
      rewrite Hle; simpl. case_decide as Hl; [done|].
      destruct (Hlater e E le ltac:(left) HE Hle) as [Hkind|Hloop];
        [by destruct Hk | by destruct Hl]. }
    cbn [mbind outcome_bind]. apply IH.
    - intros e' E' le' He'. apply Hlater. by right.
    - intros e' He'. apply Hvalid. by right. }
  rewrite Hkeep. by rewrite decide_False.
Qed.

(** X24.  What [blockOrdering] is for.  Under the conditions of the theorem
    above, let [p] be the last predecessor of the header of a loop that is
    a Plain block of that loop, and let it not be the header itself.  Then
    the header comes right after [p] in [f.Blocks] afterwards: the check
    of the loop condition stands at the end of the loop. *)
Theorem blockOrdering_header_follows_latch (bound : nat) (ln : loopnest) (f : Func)
    (order : list BlockID) (l : nat) (L : loop) (B P : Block) (p : BlockID)
    (before later : list BlockID)
    (Hirr : hasIrreducible ln = false)
    (Hbound : (length (Blocks f) ≤ bound)%nat)
    (Horder : order ≡ₚ seq 0 (length (Blocks f)))
    (Hb2l : length (b2l ln) = length (Blocks f))
    (Hheader : ∀ l L, loops ln !! l = Some L → b2l ln !! header L = Some (Some l))
    (Hpreds : ∀ l L B p, loops ln !! l = Some L → Blocks f !! header L = Some B →
                p ∈ bPreds B → (p < length (Blocks f))%nat)
    (HL : loops ln !! l = Some L)
    (HB : Blocks f !! header L = Some B)
    (Hsplit : bPreds B = before ++ p :: later)
    (HP : Blocks f !! p = Some P)
    (Hplain : bKind P = BlockPlain)
    (Hin : b2l ln !! p = Some (Some l))
    (Hne : p ≠ header L)
    (Hlater : ∀ e E le, e ∈ later → Blocks f !! e = Some E → b2l ln !! e = Some le →
                bKind E ≠ BlockPlain ∨ le ≠ Some l) :
  ∃ pre post, blockOrdering bound ln f order = Done (pre ++ p :: header L :: post).
Proof.
  assert (Hlatch : latch f ln l L = Some p).
  { eapply latch_last; try done. intros e He. by eapply Hpreds. }
  destruct (blockOrdering_run bound ln f order) as (s & Hrun & Hinv & Hperm & Hafter);
    try done.
  { intros Hnil. by rewrite Hnil in HL. }
  destruct (Hafter l L p HL Hlatch) as [ys Hys].
  assert (Hp : p ∈ lBlocks s).
  { destruct Hinv as (_ & _ & Helem & _). apply Helem. by eapply lookup_lt_Some. }
  apply list_elem_of_split in Hp as (l1 & l2 & Hl12).
  exists (l1 ≫= placed s), (ys ++ (l2 ≫= placed s)).
  rewrite Hrun, Hl12, bind_app, bind_cons. do 2 f_equal.
  unfold placed at 1. rewrite decide_False by (by eapply key_unmoved).
  rewrite Hys. simpl. done.
Qed.

Lemma blockOrdering_header_follows_latch_witness :
  ∃ pre post, blockOrdering 4 nestSpin progSpin [0; 1; 2; 3]%nat
                = Done (pre ++ 2%nat :: 1%nat :: post).
Proof.
  apply (blockOrdering_header_follows_latch 4 nestSpin progSpin [0; 1; 2; 3]%nat
           0%nat loopSpin
           (mkBlock BlockIf [2; 3]%nat [0; 2]%nat [4; 7]%nat [7%nat] BranchUnknown)
           (mkBlock BlockPlain [1%nat] [1%nat] [5; 6]%nat [] BranchUnknown)
           2%nat [0%nat] []).
  - reflexivity.
  - simpl. lia.
  - reflexivity.
  - reflexivity.
  - intros [|l] L HL; [|done]. injection HL as <-. reflexivity.
  - intros [|l] L B p HL HB Hp; [|done]. injection HL as <-. injection HB as <-.
    simpl in Hp. apply elem_of_cons in Hp as [->|Hp]; [simpl; lia|].
    apply list_elem_of_singleton in Hp as ->. simpl. lia.
  - reflexivity.
  - reflexivity.
  - reflexivity.
  - reflexivity.
  - reflexivity.
  - reflexivity.
  - discriminate.
  - intros e E le He. by apply elem_of_nil in He.
Defined.
